(** * Advanced tree search: the search-space engine of the decoder

    A shallow embedding of [src/Search/AdvancedTreeSearch/SearchSpace.cc]:
    the hypothesis arena with its recombination array, HMM state expansion,
    look-ahead application in sparse mode, state pruning, word-end detection
    and recombination, sentence-end selection and the back-off instances.

    Scores are IEEE binary32 numbers ([f32] in the source) and are modelled
    by [spec_float] with precision 24 and maximal exponent 128; indices,
    state ids and trace ids are [u32] in the source and are modelled by
    [nat] (no container of the decoder reaches 2^32 entries).  An access
    outside a vector is undefined behaviour in the source; the model returns
    [None] there. *)

From Stdlib Require Import ZArith Bool List Lia.
From Stdlib Require Import Floats.SpecFloat.
From stdpp Require Import base option list gmap.

(** ** Scores: binary32 arithmetic and comparisons *)

Module F32.

Definition prec : Z := 24.
Definition emax : Z := 128.

Definition add (x y : spec_float) : spec_float := SFadd prec emax x y.
Definition sub (x y : spec_float) : spec_float := SFsub prec emax x y.
Definition mul (x y : spec_float) : spec_float := SFmul prec emax x y.

(** [x < y], [x > y], [x >= y], [x <= y], [x == y] of the source. *)
Definition ltb (x y : spec_float) : bool := SFltb x y.
Definition gtb (x y : spec_float) : bool := SFltb y x.
Definition geb (x y : spec_float) : bool := SFleb y x.
Definition leb (x y : spec_float) : bool := SFleb x y.
Definition eqb (x y : spec_float) : bool := SFeqb x y.

(** The largest finite binary32 number, [Core::Type<f32>::max] and
    [F32_MAX] in the source: the "impossible score" sentinel. *)
Definition max : spec_float := Eval vm_compute in SFmax_float prec emax.

(** The binary32 number of an integer (exact for the small constants used
    below). *)
Definition of_Z (z : Z) : spec_float := binary_normalize prec emax z 0 false.

Definition zero : spec_float := S754_zero false.

Definition is_nan (x : spec_float) : bool :=
  match x with S754_nan => true | _ => false end.

(** A number is a proper score when it is not a NaN: the comparisons of
    the source are a total preorder on proper scores. *)
Definition proper (x : spec_float) : Prop := is_nan x = false.

(** The order of [SFcompare] is the lexicographic order of this key. *)
Definition key (x : spec_float) : Z * (Z * Z) :=
  match x with
  | S754_nan => (0, (0, 0))
  | S754_zero _ => (0, (0, 0))
  | S754_infinity true => (-2, (0, 0))
  | S754_infinity false => (2, (0, 0))
  | S754_finite true m e => (-1, (- e, Z.neg m))
  | S754_finite false m e => (1, (e, Z.pos m))
  end%Z.

Definition lex (a b : Z * (Z * Z)) : comparison :=
  match (a.1 ?= b.1)%Z with
  | Eq => match (a.2.1 ?= b.2.1)%Z with
          | Eq => (a.2.2 ?= b.2.2)%Z
          | c => c
          end
  | c => c
  end.

Definition lexle (a b : Z * (Z * Z)) : Prop := lex a b <> Gt.

(** [le x y] is [x <= y] of the source read as a proposition; likewise
    [lt] for [<] and [eqv] for [==]. *)
Definition le (x y : spec_float) : Prop := leb x y = true.
Definition lt (x y : spec_float) : Prop := ltb x y = true.
Definition eqv (x y : spec_float) : Prop := eqb x y = true.

End F32.

Abbreviation Score := spec_float.

Module F32Facts.
Import F32.

Lemma compare_key x y :
  proper x -> proper y -> SFcompare x y = Some (lex (key x) (key y)).
Proof.
  unfold proper.
  destruct x as [sx|sx| |sx mx ex], y as [sy|sy| |sy my ey];
    try discriminate; intros _ _;
    try destruct sx; try destruct sy; try reflexivity.
  cbn [SFcompare]. unfold lex, key; cbn [fst snd].
  change (-1 ?= -1)%Z with Eq. cbv iota.
  rewrite Z.compare_opp, (Z.compare_antisym ex ey).
  destruct (ex ?= ey)%Z; reflexivity.
Qed.

Lemma lex_refl a : lex a a = Eq.
Proof. unfold lex. now rewrite !Z.compare_refl. Qed.

Lemma lex_antisym a b : lex b a = CompOpp (lex a b).
Proof.
  unfold lex.
  rewrite (Z.compare_antisym a.1 b.1), (Z.compare_antisym a.2.1 b.2.1),
    (Z.compare_antisym a.2.2 b.2.2).
  destruct (a.1 ?= b.1)%Z, (a.2.1 ?= b.2.1)%Z; reflexivity.
Qed.

Lemma lexle_spec a b :
  lexle a b <->
  (a.1 < b.1 \/ (a.1 = b.1 /\ (a.2.1 < b.2.1 \/ (a.2.1 = b.2.1 /\ a.2.2 <= b.2.2))))%Z.
Proof.
  unfold lexle, lex.
  destruct (Z.compare_spec a.1 b.1), (Z.compare_spec a.2.1 b.2.1),
    (Z.compare_spec a.2.2 b.2.2); split; intros; try congruence; try lia.
Qed.

Lemma lexle_trans a b c : lexle a b -> lexle b c -> lexle a c.
Proof. rewrite !lexle_spec. lia. Qed.

Lemma lexle_total a b : lexle a b \/ lexle b a.
Proof. rewrite !lexle_spec. lia. Qed.

Lemma le_lexle x y : proper x -> proper y -> le x y <-> lexle (key x) (key y).
Proof.
  intros Hx Hy. unfold le, leb, SFleb, lexle.
  rewrite (compare_key x y Hx Hy).
  destruct (lex (key x) (key y)); split; congruence.
Qed.

Lemma le_refl x : proper x -> le x x.
Proof. intros H. apply le_lexle; auto. unfold lexle. now rewrite lex_refl. Qed.

Lemma le_trans x y z :
  proper x -> proper y -> proper z -> le x y -> le y z -> le x z.
Proof.
  intros Hx Hy Hz. rewrite !le_lexle by assumption. apply lexle_trans.
Qed.

Lemma le_total x y : proper x -> proper y -> le x y \/ le y x.
Proof. intros Hx Hy. rewrite !le_lexle by assumption. apply lexle_total. Qed.

(** On proper scores [x >= y] fails exactly when [x < y] holds. *)
Lemma geb_ltb x y : proper x -> proper y -> geb x y = negb (ltb x y).
Proof.
  intros Hx Hy. unfold geb, ltb, SFleb, SFltb.
  rewrite (compare_key x y Hx Hy), (compare_key y x Hy Hx),
    (lex_antisym (key x) (key y)).
  destruct (lex (key x) (key y)); reflexivity.
Qed.

Lemma gtb_leb x y : proper x -> proper y -> gtb x y = negb (leb x y).
Proof.
  intros Hx Hy. unfold gtb, leb, SFleb, SFltb.
  rewrite (compare_key x y Hx Hy), (compare_key y x Hy Hx),
    (lex_antisym (key x) (key y)).
  destruct (lex (key x) (key y)); reflexivity.
Qed.

Lemma eqb_le x y : proper x -> proper y -> eqv x y <-> le x y /\ le y x.
Proof.
  intros Hx Hy. unfold eqv, le, eqb, leb, SFeqb, SFleb.
  rewrite (compare_key x y Hx Hy), (compare_key y x Hy Hx).
  rewrite (lex_antisym (key x) (key y)).
  destruct (lex (key x) (key y)); cbn; (split; [intros ?|intros [? ?]]);
    try split; congruence.
Qed.

Lemma lt_le x y : lt x y -> le x y.
Proof.
  unfold lt, le, ltb, leb, SFltb, SFleb. now destruct (SFcompare x y) as [[]|].
Qed.

Lemma lt_not_le x y : proper x -> proper y -> lt x y <-> ~ le y x.
Proof.
  intros Hx Hy. unfold lt, le. change (leb y x) with (geb x y).
  rewrite (geb_ltb x y Hx Hy). destruct (ltb x y); cbn; intuition congruence.
Qed.

(** A comparison with a NaN is false, whichever way round. *)
Lemma geb_nan_l y : geb S754_nan y = false.
Proof. unfold geb, SFleb. now destruct y. Qed.

Lemma geb_nan_r x : geb x S754_nan = false.
Proof. unfold geb, SFleb. now destruct x. Qed.
End F32Facts.

Lemma score_not_lt_le x y : F32.proper x -> F32.proper y -> F32.ltb x y = false -> F32.le y x.
Proof.
  intros Hx Hy Hlt. destruct (F32.leb y x) eqn:E; [exact E|].
  assert (F32.lt x y) as H by (apply F32Facts.lt_not_le; auto; unfold F32.le; congruence).
  unfold F32.lt in H. congruence.
Qed.

Lemma score_lt_le_trans x y z :
  F32.proper x -> F32.proper y -> F32.proper z ->
  F32.lt x y -> F32.le y z -> F32.lt x z.
Proof.
  intros Hx Hy Hz Hxy Hyz. apply F32Facts.lt_not_le; auto. intros Hzx.
  apply (F32Facts.lt_not_le x y Hx Hy) in Hxy. apply Hxy.
  now apply (F32Facts.le_trans y z x).
Qed.

(** Two proper scores are in one of the three relations. *)
Lemma score_trichotomy x y :
  F32.proper x -> F32.proper y -> F32.lt x y \/ F32.lt y x \/ F32.eqv y x.
Proof.
  intros Hx Hy. destruct (F32.ltb x y) eqn:E1; [now left|].
  destruct (F32.ltb y x) eqn:E2; [right; now left|].
  right; right. apply F32Facts.eqb_le; auto.
  split; now apply score_not_lt_le.
Qed.


(** ** The hypothesis arena *)

Abbreviation StateId := nat.
Abbreviation TraceId := nat.
Abbreviation StateHypothesisIndex := nat.

(** [Search::StateHypothesis]: the network state, the trace, the accumulated
    score and the prospect (the path-trace diagnostics are left out). *)
Record StateHypothesis := mkStateHypothesis {
  state : StateId;
  trace : TraceId;
  score : Score;
  prospect : Score
}.

Definition set_score (s : Score) (h : StateHypothesis) : StateHypothesis :=
  {| state := state h; trace := trace h; score := s; prospect := prospect h |}.
Definition set_state (q : StateId) (h : StateHypothesis) : StateHypothesis :=
  {| state := q; trace := trace h; score := score h; prospect := prospect h |}.
Definition set_trace (t : TraceId) (h : StateHypothesis) : StateHypothesis :=
  {| state := state h; trace := t; score := score h; prospect := prospect h |}.
Definition set_prospect (p : Score) (h : StateHypothesis) : StateHypothesis :=
  {| state := state h; trace := trace h; score := score h; prospect := p |}.

(** The members of [SearchSpace] that expansion writes: the hypotheses of the
    next frame, the recombination array (one slot per network state, holding
    a position in [newStateHypotheses]) and the start of the running
    instance's slice. *)
Record Arena := mkArena {
  newStateHypotheses : list StateHypothesis;
  stateHypothesisRecombinationArray : list StateHypothesisIndex;
  currentTreeFirstNewStateHypothesis : StateHypothesisIndex
}.

(** Modelled from the spec: [addNewStateHypothesis] is declared in
    SearchSpace.hh, which is not part of the sources; the arena grows by
    appending ("append-only growth during expansion of one frame"). *)
Definition addNewStateHypothesis (hyp : StateHypothesis) (a : Arena) : Arena :=
  {| newStateHypotheses := newStateHypotheses a ++ [hyp];
     stateHypothesisRecombinationArray := stateHypothesisRecombinationArray a;
     currentTreeFirstNewStateHypothesis := currentTreeFirstNewStateHypothesis a |}.

Definition set_recombination (q : StateId) (i : StateHypothesisIndex) (a : Arena) : Arena :=
  {| newStateHypotheses := newStateHypotheses a;
     stateHypothesisRecombinationArray := <[q := i]> (stateHypothesisRecombinationArray a);
     currentTreeFirstNewStateHypothesis := currentTreeFirstNewStateHypothesis a |}.

Definition set_hypothesis (i : StateHypothesisIndex) (h : StateHypothesis) (a : Arena) : Arena :=
  {| newStateHypotheses := <[i := h]> (newStateHypotheses a);
     stateHypothesisRecombinationArray := stateHypothesisRecombinationArray a;
     currentTreeFirstNewStateHypothesis := currentTreeFirstNewStateHypothesis a |}.

(** The test "present in current tree" of the three [activateOrUpdate]
    functions: the slot of state [q] points into the running slice and the
    hypothesis there is in state [q].  It yields that hypothesis and its
    position. *)
Definition present (q : StateId) (recombination : StateHypothesisIndex) (a : Arena)
  : option StateHypothesis :=
  if (recombination <? currentTreeFirstNewStateHypothesis a)
     || (length (newStateHypotheses a) <=? recombination)
  then None
  else match newStateHypotheses a !! recombination with
       | Some sh => if state sh =? q then Some sh else None
       | None => None
       end.

(** The update of an existing hypothesis, shared by the three functions:
    [if (sh.score >= score) { sh.score = score; sh.trace = hyp.trace; }]. *)
Definition updateExisting (recombination : StateHypothesisIndex) (sh : StateHypothesis)
    (tr : TraceId) (sc : Score) (a : Arena) : Arena :=
  if F32.geb (score sh) sc
  then set_hypothesis recombination (set_trace tr (set_score sc sh)) a
  else a.

(** [SearchSpace::activateOrUpdateStateHypothesisLoop]. *)
Definition activateOrUpdateStateHypothesisLoop (hyp : StateHypothesis) (sc : Score)
    (a : Arena) : option Arena :=
  recombination ← stateHypothesisRecombinationArray a !! state hyp;
  match present (state hyp) recombination a with
  | None =>
      Some (addNewStateHypothesis (set_score sc hyp)
              (set_recombination (state hyp) (length (newStateHypotheses a)) a))
  | Some sh => Some (updateExisting recombination sh (trace hyp) sc a)
  end.

(** [SearchSpace::activateOrUpdateStateHypothesisTransition]. *)
Definition activateOrUpdateStateHypothesisTransition (hyp : StateHypothesis) (sc : Score)
    (successorState : StateId) (a : Arena) : option Arena :=
  recombination ← stateHypothesisRecombinationArray a !! successorState;
  match present successorState recombination a with
  | None =>
      Some (addNewStateHypothesis (set_state successorState (set_score sc hyp))
              (set_recombination successorState (length (newStateHypotheses a)) a))
  | Some sh => Some (updateExisting recombination sh (trace hyp) sc a)
  end.

(** [SearchSpace::activateOrUpdateStateHypothesisDirectly]. *)
Definition activateOrUpdateStateHypothesisDirectly (hyp : StateHypothesis)
    (a : Arena) : option Arena :=
  recombination ← stateHypothesisRecombinationArray a !! state hyp;
  match present (state hyp) recombination a with
  | None =>
      Some (addNewStateHypothesis hyp
              (set_recombination (state hyp) (length (newStateHypotheses a)) a))
  | Some sh => Some (updateExisting recombination sh (trace hyp) (score hyp) a)
  end.

(** One call of the two functions expansion uses. *)
Inductive Update :=
| Loop (hyp : StateHypothesis) (sc : Score)
| Transition (hyp : StateHypothesis) (sc : Score) (successorState : StateId).

Definition target (u : Update) : StateId :=
  match u with Loop hyp _ => state hyp | Transition _ _ q => q end.
Definition incoming_score (u : Update) : Score :=
  match u with Loop _ sc => sc | Transition _ sc _ => sc end.
Definition incoming_trace (u : Update) : TraceId :=
  match u with Loop hyp _ => trace hyp | Transition hyp _ _ => trace hyp end.

Definition apply_update (u : Update) (a : Arena) : option Arena :=
  match u with
  | Loop hyp sc => activateOrUpdateStateHypothesisLoop hyp sc a
  | Transition hyp sc q => activateOrUpdateStateHypothesisTransition hyp sc q a
  end.

Fixpoint apply_updates (us : list Update) (a : Arena) : option Arena :=
  match us with
  | [] => Some a
  | u :: us' => a' ← apply_update u a; apply_updates us' a'
  end.

(** What the arena holds for state [q] in the running slice: the score and
    the trace of the hypothesis its recombination slot points to. *)
Definition stored (q : StateId) (a : Arena) : option (Score * TraceId) :=
  recombination ← stateHypothesisRecombinationArray a !! q;
  sh ← present q recombination a;
  Some (score sh, trace sh).

(** The positions of the running slice that hold a hypothesis in state [q]. *)
Definition positions_of (q : StateId) (a : Arena) : list nat :=
  filter (fun i => currentTreeFirstNewStateHypothesis a <= i /\
                   (state <$> newStateHypotheses a !! i) = Some q)
         (seq 0 (length (newStateHypotheses a))).

(** Recombination of one incoming (score, trace) with what is stored. *)
Definition recombine (old : option (Score * TraceId)) (sc : Score) (tr : TraceId)
  : Score * TraceId :=
  match old with
  | None => (sc, tr)
  | Some (s, t) => if F32.geb s sc then (sc, tr) else (s, t)
  end.

(** The survivor among the updates that target state [q], in call order. *)
Fixpoint survivor (q : StateId) (us : list Update) (old : option (Score * TraceId))
  : option (Score * TraceId) :=
  match us with
  | [] => old
  | u :: us' =>
      if target u =? q
      then survivor q us' (Some (recombine old (incoming_score u) (incoming_trace u)))
      else survivor q us' old
  end.

(** Every hypothesis of the running slice is the one the slot of its state
    points to. *)
Definition slice_ok (a : Arena) : Prop :=
  currentTreeFirstNewStateHypothesis a <= length (newStateHypotheses a) /\
  forall i h, currentTreeFirstNewStateHypothesis a <= i ->
    newStateHypotheses a !! i = Some h ->
    stateHypothesisRecombinationArray a !! state h = Some i.

(** ** Recombination in the arena *)

Section Recombination.

Implicit Types (a : Arena) (q : StateId) (hyp sh : StateHypothesis) (u : Update).

Lemma present_Some q r a sh :
  present q r a = Some sh <->
  currentTreeFirstNewStateHypothesis a <= r /\
  newStateHypotheses a !! r = Some sh /\ state sh = q.
Proof.
  unfold present.
  destruct (Nat.ltb_spec r (currentTreeFirstNewStateHypothesis a)); cbn.
  { split; [discriminate | lia]. }
  destruct (Nat.leb_spec (length (newStateHypotheses a)) r); cbn.
  { split; [discriminate|]. intros (_ & Hl & _).
    apply lookup_lt_Some in Hl. lia. }
  destruct (newStateHypotheses a !! r) as [sh'|] eqn:E.
  - destruct (Nat.eqb_spec (state sh') q); split.
    + intros [= ->]. auto.
    + now intros (_ & [= ->] & _).
    + discriminate.
    + intros (_ & [= ->] & ?). contradiction.
  - split; [discriminate|]. now intros (_ & ? & _).
Qed.

Lemma present_None q r a :
  present q r a = None <->
  forall sh, currentTreeFirstNewStateHypothesis a <= r ->
    newStateHypotheses a !! r = Some sh -> state sh <> q.
Proof.
  split.
  - intros HN sh H1 H2 H3.
    assert (present q r a = Some sh) by (apply present_Some; auto). congruence.
  - intros H. destruct (present q r a) as [sh|] eqn:E; [|reflexivity].
    apply present_Some in E as (H1 & H2 & H3). now destruct (H sh H1 H2).
Qed.

Lemma loop_as_transition hyp sc a :
  activateOrUpdateStateHypothesisLoop hyp sc a =
  activateOrUpdateStateHypothesisTransition hyp sc (state hyp) a.
Proof.
  unfold activateOrUpdateStateHypothesisLoop, activateOrUpdateStateHypothesisTransition.
  now destruct hyp.
Qed.

Lemma apply_update_transition u a :
  exists hyp, trace hyp = incoming_trace u /\
    apply_update u a =
    activateOrUpdateStateHypothesisTransition hyp (incoming_score u) (target u) a.
Proof.
  destruct u as [hyp sc|hyp sc q]; exists hyp; cbn; split; auto using loop_as_transition.
Qed.

Lemma updateExisting_first r sh tr sc a :
  currentTreeFirstNewStateHypothesis (updateExisting r sh tr sc a) =
  currentTreeFirstNewStateHypothesis a.
Proof. unfold updateExisting. now destruct (F32.geb _ _). Qed.

Lemma updateExisting_array r sh tr sc a :
  stateHypothesisRecombinationArray (updateExisting r sh tr sc a) =
  stateHypothesisRecombinationArray a.
Proof. unfold updateExisting. now destruct (F32.geb _ _). Qed.

Lemma updateExisting_length r sh tr sc a :
  length (newStateHypotheses (updateExisting r sh tr sc a)) =
  length (newStateHypotheses a).
Proof.
  unfold updateExisting. destruct (F32.geb _ _); cbn; [apply length_insert|easy].
Qed.

(** An update in place keeps the state of every hypothesis. *)
Lemma updateExisting_lookup r sh tr sc a i :
  newStateHypotheses a !! r = Some sh ->
  newStateHypotheses (updateExisting r sh tr sc a) !! i =
  if decide (i = r)
  then Some (if F32.geb (score sh) sc then set_trace tr (set_score sc sh) else sh)
  else newStateHypotheses a !! i.
Proof.
  intros Hr. unfold updateExisting.
  destruct (F32.geb (score sh) sc); cbn.
  - destruct (decide (i = r)) as [->|Hn].
    + apply list_lookup_insert_eq. now apply lookup_lt_Some in Hr.
    + now apply list_lookup_insert_ne.
  - destruct (decide (i = r)) as [->|Hn]; auto.
Qed.

Lemma transition_succeeds hyp sc q a :
  q < length (stateHypothesisRecombinationArray a) ->
  is_Some (activateOrUpdateStateHypothesisTransition hyp sc q a).
Proof.
  intros Hq. unfold activateOrUpdateStateHypothesisTransition.
  destruct (lookup_lt_is_Some_2 _ _ Hq) as [r ->]. cbn.
  destruct (present q r a); eauto.
Qed.

Lemma transition_shape hyp sc q a a' :
  activateOrUpdateStateHypothesisTransition hyp sc q a = Some a' ->
  currentTreeFirstNewStateHypothesis a' = currentTreeFirstNewStateHypothesis a /\
  length (stateHypothesisRecombinationArray a') =
    length (stateHypothesisRecombinationArray a) /\
  length (newStateHypotheses a) <= length (newStateHypotheses a').
Proof.
  unfold activateOrUpdateStateHypothesisTransition.
  destruct (stateHypothesisRecombinationArray a !! q) as [r|]; [cbn|discriminate].
  destruct (present q r a) as [sh|]; intros [= <-].
  - rewrite updateExisting_first, updateExisting_array, updateExisting_length. auto.
  - cbn. rewrite length_insert, length_app. cbn. lia.
Qed.

Lemma transition_slice_ok hyp sc q a a' :
  slice_ok a ->
  activateOrUpdateStateHypothesisTransition hyp sc q a = Some a' ->
  slice_ok a'.
Proof.
  intros [Hf Hok] Ht. split.
  { apply transition_shape in Ht as (-> & _ & ?). lia. }
  revert Ht. unfold activateOrUpdateStateHypothesisTransition.
  destruct (stateHypothesisRecombinationArray a !! q) as [r|] eqn:Er; [cbn|discriminate].
  destruct (present q r a) as [sh|] eqn:Ep; intros [= <-].
  - apply present_Some in Ep as (H1 & H2 & H3).
    intros i h Hi. rewrite updateExisting_first in Hi.
    rewrite updateExisting_array, (updateExisting_lookup _ _ _ _ _ _ H2).
    destruct (decide (i = r)) as [->|Hn].
    + intros [= <-]. destruct (F32.geb _ _); cbn; rewrite H3; exact Er.
    + now apply Hok.
  - intros i h Hi. cbn in *.
    destruct (decide (i < length (newStateHypotheses a))) as [Hlt|Hge].
    + rewrite lookup_app_l by assumption. intros Hl.
      destruct (decide (state h = q)) as [Heq|Hne].
      * exfalso. pose proof (Hok i h Hi Hl) as Hs. rewrite Heq, Er in Hs.
        injection Hs as ->.
        eapply present_None in Ep; eauto.
      * rewrite list_lookup_insert_ne by congruence. now apply Hok.
    + intros Hl. pose proof (lookup_lt_Some _ _ _ Hl) as Hb.
      rewrite length_app in Hb. cbn in Hb.
      assert (i = length (newStateHypotheses a)) as -> by lia.
      rewrite lookup_app_r, Nat.sub_diag in Hl by lia. injection Hl as <-. cbn.
      apply list_lookup_insert_eq. now apply lookup_lt_Some in Er.
Qed.

Lemma stored_Some q a s t :
  stored q a = Some (s, t) <->
  exists r sh, stateHypothesisRecombinationArray a !! q = Some r /\
    currentTreeFirstNewStateHypothesis a <= r /\
    newStateHypotheses a !! r = Some sh /\ state sh = q /\
    score sh = s /\ trace sh = t.
Proof.
  unfold stored. split.
  - destruct (stateHypothesisRecombinationArray a !! q) as [r|]; [cbn|discriminate].
    destruct (present q r a) as [sh|] eqn:Ep; [cbn|discriminate].
    intros [= <- <-]. apply present_Some in Ep as (? & ? & ?). eauto 10.
  - intros (r & sh & -> & H1 & H2 & H3 & <- & <-). cbn.
    assert (present q r a = Some sh) as -> by (apply present_Some; auto).
    reflexivity.
Qed.

(** Any hypothesis of the running slice is the stored one of its state:
    a state has at most one hypothesis in the slice. *)
Lemma slice_ok_stored a i h :
  slice_ok a ->
  currentTreeFirstNewStateHypothesis a <= i ->
  newStateHypotheses a !! i = Some h ->
  stored (state h) a = Some (score h, trace h).
Proof.
  intros [_ Hok] Hi Hl. apply stored_Some. exists i, h. eauto 10.
Qed.

Lemma slice_ok_unique a i j hi hj :
  slice_ok a ->
  currentTreeFirstNewStateHypothesis a <= i ->
  currentTreeFirstNewStateHypothesis a <= j ->
  newStateHypotheses a !! i = Some hi ->
  newStateHypotheses a !! j = Some hj ->
  state hi = state hj -> i = j.
Proof.
  intros [_ Hok] Hi Hj Hli Hlj Heq.
  pose proof (Hok i hi Hi Hli) as H1. pose proof (Hok j hj Hj Hlj) as H2.
  rewrite Heq in H1. congruence.
Qed.

Lemma transition_stored hyp sc q a a' p :
  slice_ok a ->
  activateOrUpdateStateHypothesisTransition hyp sc q a = Some a' ->
  stored p a' =
  if decide (p = q) then Some (recombine (stored q a) sc (trace hyp)) else stored p a.
Proof.
  intros [Hf Hok]. unfold activateOrUpdateStateHypothesisTransition.
  destruct (stateHypothesisRecombinationArray a !! q) as [r|] eqn:Er; [cbn|discriminate].
  destruct (present q r a) as [sh|] eqn:Ep; intros [= <-].
  - pose proof Ep as Ep'. apply present_Some in Ep' as (H1 & H2 & H3).
    destruct (decide (p = q)) as [->|Hne].
    + unfold stored at 2. rewrite Er. cbn. rewrite Ep. cbn.
      destruct (F32.geb (score sh) sc) eqn:Eg.
      * apply stored_Some. exists r, (set_trace (trace hyp) (set_score sc sh)).
        rewrite updateExisting_array, updateExisting_first,
          (updateExisting_lookup _ _ _ _ _ _ H2), Eg.
        destruct (decide (r = r)); [|contradiction]. cbn. auto 10.
      * apply stored_Some. exists r, sh.
        rewrite updateExisting_array, updateExisting_first,
          (updateExisting_lookup _ _ _ _ _ _ H2), Eg.
        destruct (decide (r = r)); [|contradiction]. auto 10.
    + unfold stored. rewrite updateExisting_array.
      destruct (stateHypothesisRecombinationArray a !! p) as [rp|] eqn:Erp; [cbn|reflexivity].
      assert (present p rp (updateExisting r sh (trace hyp) sc a) = present p rp a) as ->;
        [|reflexivity].
      apply option_eq. intros x. rewrite !present_Some, updateExisting_first,
        (updateExisting_lookup _ _ _ _ _ _ H2).
      destruct (decide (rp = r)) as [->|Hn]; [|reflexivity].
      split.
      * intros (_ & [= <-] & Hs). exfalso. apply Hne. rewrite <- Hs, <- H3.
        now destruct (F32.geb _ _).
      * intros (_ & Hl & Hs). exfalso. apply Hne. congruence.
  - assert (Hq : q < length (stateHypothesisRecombinationArray a))
      by now apply lookup_lt_Some in Er.
    destruct (decide (p = q)) as [->|Hne].
    + assert (stored q a = None) as ->.
      { unfold stored. rewrite Er. cbn. now rewrite Ep. }
      cbn. apply stored_Some.
      exists (length (newStateHypotheses a)), (set_state q (set_score sc hyp)). cbn.
      rewrite list_lookup_insert_eq by assumption.
      rewrite lookup_app_r, Nat.sub_diag by lia. auto 10.
    + unfold stored. cbn. rewrite list_lookup_insert_ne by congruence.
      destruct (stateHypothesisRecombinationArray a !! p) as [rp|] eqn:Erp; [cbn|reflexivity].
      match goal with |- ?x ≫= _ = ?y ≫= _ => assert (x = y) as ->; [|reflexivity] end.
      apply option_eq. intros x. rewrite !present_Some. cbn.
      split; intros (Hr & Hl & Hs); (split; [assumption|split; [|assumption]]).
      * apply lookup_app_Some in Hl as [Hl|[Hge Hl]]; [assumption|].
        apply list_lookup_singleton_Some in Hl as [_ <-]. cbn in Hs. congruence.
      * now apply lookup_app_l_Some.
Qed.

Lemma apply_update_shape u a a' :
  apply_update u a = Some a' ->
  currentTreeFirstNewStateHypothesis a' = currentTreeFirstNewStateHypothesis a /\
  length (stateHypothesisRecombinationArray a') =
    length (stateHypothesisRecombinationArray a) /\
  length (newStateHypotheses a) <= length (newStateHypotheses a').
Proof.
  destruct (apply_update_transition u a) as (hyp & _ & ->). apply transition_shape.
Qed.

Lemma apply_update_stored u a a' p :
  slice_ok a -> apply_update u a = Some a' ->
  slice_ok a' /\
  stored p a' =
  if decide (p = target u)
  then Some (recombine (stored p a) (incoming_score u) (incoming_trace u))
  else stored p a.
Proof.
  destruct (apply_update_transition u a) as (hyp & <- & ->). intros Hok Ht. split.
  - eapply transition_slice_ok; eauto.
  - rewrite (transition_stored _ _ _ _ _ p Hok Ht).
    now destruct (decide (p = target u)) as [->|].
Qed.

(** Running a sequence of expansion calls leaves, for every state, the
    survivor of the calls that target it. *)
Lemma apply_updates_survivor us : forall a,
  slice_ok a ->
  Forall (fun u => target u < length (stateHypothesisRecombinationArray a)) us ->
  exists a', apply_updates us a = Some a' /\ slice_ok a' /\
    currentTreeFirstNewStateHypothesis a' = currentTreeFirstNewStateHypothesis a /\
    forall q, stored q a' = survivor q us (stored q a).
Proof.
  induction us as [|u us IH]; intros a Hok Hin.
  - exists a. cbn. auto.
  - apply Forall_cons in Hin as [Hu Hin]. cbn.
    destruct (apply_update_transition u a) as (hyp & Htr & Heq).
    destruct (transition_succeeds hyp (incoming_score u) (target u) a Hu) as [a1 Ha1].
    rewrite <- Heq in Ha1. rewrite Ha1. cbn.
    pose proof (apply_update_shape _ _ _ Ha1) as (Hf & Hlen & _).
    destruct (IH a1) as (a' & Hrun & Hok' & Hf' & Hst).
    + now apply (apply_update_stored u a a1 0 Hok Ha1).
    + now rewrite Hlen.
    + exists a'. split; [assumption|]. split; [assumption|].
      split; [congruence|].
      intros q. rewrite Hst.
      destruct (apply_update_stored u a a1 q Hok Ha1) as [_ ->].
      destruct (Nat.eqb_spec (target u) q) as [<-|Hne].
      * destruct (decide (target u = target u)); [reflexivity|contradiction].
      * destruct (decide (q = target u)); [congruence|reflexivity].
Qed.

Lemma survivor_app q us1 us2 old :
  survivor q (us1 ++ us2) old = survivor q us2 (survivor q us1 old).
Proof.
  revert old. induction us1 as [|u us1 IH]; intros old; cbn; [reflexivity|].
  destruct (target u =? q); apply IH.
Qed.

(** The calls before the winner leave a score that is not below the
    winner's. *)
Lemma survivor_bounded q sc us : forall old,
  F32.proper sc ->
  Forall (fun v => F32.proper (incoming_score v)) us ->
  Forall (fun v => target v = q -> F32.le sc (incoming_score v)) us ->
  (forall s t, old = Some (s, t) -> F32.proper s /\ F32.le sc s) ->
  forall s t, survivor q us old = Some (s, t) -> F32.proper s /\ F32.le sc s.
Proof.
  induction us as [|v us IH]; intros old Hsc Hp Hle Hold; cbn; [exact Hold|].
  apply Forall_cons in Hp as [Hpv Hp]. apply Forall_cons in Hle as [Hlv Hle].
  destruct (Nat.eqb_spec (target v) q) as [Heq|Hne]; [|now apply IH].
  apply IH; auto. intros s t. unfold recombine.
  destruct old as [[s0 t0]|].
  - destruct (F32.geb s0 (incoming_score v)); intros [= <- <-]; eauto.
  - intros [= <- <-]. auto.
Qed.

(** The calls after the winner, all with a strictly greater score, leave it
    in place. *)
Lemma survivor_stays q sc tr us :
  F32.proper sc ->
  Forall (fun v => F32.proper (incoming_score v)) us ->
  Forall (fun v => target v = q -> F32.lt sc (incoming_score v)) us ->
  survivor q us (Some (sc, tr)) = Some (sc, tr).
Proof.
  intros Hsc. induction us as [|v us IH]; intros Hp Hlt; cbn; [reflexivity|].
  apply Forall_cons in Hp as [Hpv Hp]. apply Forall_cons in Hlt as [Hlv Hlt].
  destruct (Nat.eqb_spec (target v) q) as [Heq|Hne]; [|now apply IH].
  specialize (Hlv Heq). apply F32Facts.lt_not_le in Hlv; auto.
  unfold F32.geb. unfold F32.le, F32.leb in Hlv.
  destruct (SFleb (incoming_score v) sc); [now destruct Hlv|]. now apply IH.
Qed.

Lemma survivor_last_minimum q us1 u us2 :
  target u = q ->
  Forall (fun v => F32.proper (incoming_score v)) (us1 ++ u :: us2) ->
  Forall (fun v => target v = q -> F32.le (incoming_score u) (incoming_score v)) us1 ->
  Forall (fun v => target v = q -> F32.lt (incoming_score u) (incoming_score v)) us2 ->
  survivor q (us1 ++ u :: us2) None = Some (incoming_score u, incoming_trace u).
Proof.
  intros Hq Hp Hle Hlt.
  apply Forall_app in Hp as [Hp1 Hp]. apply Forall_cons in Hp as [Hpu Hp2].
  rewrite survivor_app. cbn. rewrite Hq, Nat.eqb_refl.
  assert (recombine (survivor q us1 None) (incoming_score u) (incoming_trace u)
          = (incoming_score u, incoming_trace u)) as ->.
  { unfold recombine. destruct (survivor q us1 None) as [[s t]|] eqn:E; [|reflexivity].
    destruct (survivor_bounded q (incoming_score u) us1 None Hpu Hp1 Hle
                ltac:(discriminate) s t E) as [_ Hs].
    unfold F32.geb. unfold F32.le, F32.leb in Hs. now rewrite Hs. }
  now apply survivor_stays.
Qed.

(** The survivor is never invented: without a call for [q] the state stays
    empty. *)
Lemma survivor_untargeted q us old :
  Forall (fun v => target v <> q) us -> survivor q us old = old.
Proof.
  induction 1 as [|v us Hv _ IH]; cbn; [reflexivity|].
  now destruct (Nat.eqb_spec (target v) q).
Qed.
End Recombination.

(** A running slice as [expandHmm] opens it: empty, and starting at the end
    of [newStateHypotheses]. *)
Definition fresh_slice (a : Arena) : Prop :=
  currentTreeFirstNewStateHypothesis a = length (newStateHypotheses a).

(** The example arena of the recombination examples: three network states,
    nothing expanded yet, stale slots. *)
Definition arena0 : Arena := mkArena [] [0; 0; 0] 0.

Definition hypA : StateHypothesis := mkStateHypothesis 1 7 F32.zero F32.zero.
Definition hypB : StateHypothesis := mkStateHypothesis 1 8 F32.zero F32.zero.

Lemma fresh_slice_ok a : fresh_slice a -> slice_ok a.
Proof.
  unfold fresh_slice. intros Hf. split; [lia|].
  intros i h Hi Hl. apply lookup_lt_Some in Hl. lia.
Qed.

(** C1, as stated, fails: two hypotheses reach state 2 with the same score
    3.0, the first with trace 7 and the second with trace 8; the arena then
    holds one hypothesis for state 2 and its trace is 8, the trace of the
    second one, not the trace of the first-inserted one. *)
Lemma recombination_tie_keeps_second :
  exists a',
    apply_updates [Transition hypA (F32.of_Z 3) 2; Transition hypB (F32.of_Z 3) 2] arena0
      = Some a' /\
    F32.eqv (F32.of_Z 3) (F32.of_Z 3) /\
    stored 2 a' = Some (F32.of_Z 3, 8) /\
    stored 2 a' <> Some (F32.of_Z 3, trace hypA).
Proof.
  eexists. split; [vm_compute; reflexivity|].
  split; [reflexivity|]. split; [reflexivity|]. vm_compute. discriminate.
Qed.

(** C1 (amended): within the expansion of one instance in one frame, started
    on a fresh slice, the calls of [activateOrUpdateStateHypothesisLoop] and
    [activateOrUpdateStateHypothesisTransition] leave exactly one hypothesis
    per targeted state; it carries the score and the trace of the call [u]
    whose score is lowest, and among calls of equal lowest score that of the
    last one: every earlier call for the state has a score at least as high,
    every later one a strictly higher score.  So the stored trace is
    overwritten exactly when the incoming score is lower than or equal to
    the stored one, and on exact ties the last-inserted trace is kept. *)
Theorem recombination_keeps_last_minimum (a : Arena) (us1 us2 : list Update) (u : Update) :
  fresh_slice a ->
  Forall (fun v => target v < length (stateHypothesisRecombinationArray a))
         (us1 ++ u :: us2) ->
  Forall (fun v => F32.proper (incoming_score v)) (us1 ++ u :: us2) ->
  Forall (fun v => target v = target u ->
                   F32.le (incoming_score u) (incoming_score v)) us1 ->
  Forall (fun v => target v = target u ->
                   F32.lt (incoming_score u) (incoming_score v)) us2 ->
  exists a',
    apply_updates (us1 ++ u :: us2) a = Some a' /\
    stored (target u) a' = Some (incoming_score u, incoming_trace u) /\
    forall i h,
      currentTreeFirstNewStateHypothesis a' <= i ->
      newStateHypotheses a' !! i = Some h ->
      state h = target u ->
      stateHypothesisRecombinationArray a' !! target u = Some i /\
      score h = incoming_score u /\ trace h = incoming_trace u.
Proof.
  intros Hfresh Hin Hp Hle Hlt.
  destruct (apply_updates_survivor _ a (fresh_slice_ok a Hfresh) Hin)
    as (a' & Hrun & Hok & Hf & Hst).
  assert (Hnone : stored (target u) a = None).
  { destruct (stored (target u) a) as [[s t]|] eqn:E; [|reflexivity].
    apply stored_Some in E as (r & sh & _ & H1 & H2 & _).
    apply lookup_lt_Some in H2. unfold fresh_slice in Hfresh. lia. }
  assert (Hs : stored (target u) a' = Some (incoming_score u, incoming_trace u)).
  { rewrite Hst, Hnone. now apply survivor_last_minimum. }
  exists a'. split; [assumption|]. split; [assumption|].
  intros i h Hi Hl Hq.
  pose proof (slice_ok_stored a' i h Hok Hi Hl) as Hh. rewrite Hq, Hs in Hh.
  injection Hh as <- <-. repeat split.
  rewrite <- Hq. now apply Hok.
Qed.

Lemma recombination_keeps_last_minimum_witness :
  exists a',
    apply_updates ([Transition hypA (F32.of_Z 3) 2] ++
                   Transition hypB (F32.of_Z 3) 2 :: [Transition hypA (F32.of_Z 5) 2]) arena0
      = Some a' /\
    stored 2 a' = Some (F32.of_Z 3, 8) /\
    forall i h,
      currentTreeFirstNewStateHypothesis a' <= i ->
      newStateHypotheses a' !! i = Some h ->
      state h = 2 ->
      stateHypothesisRecombinationArray a' !! 2 = Some i /\
      score h = F32.of_Z 3 /\ trace h = 8.
Proof.
  apply (recombination_keeps_last_minimum arena0
           [Transition hypA (F32.of_Z 3) 2] [Transition hypA (F32.of_Z 5) 2]
           (Transition hypB (F32.of_Z 3) 2)).
  - reflexivity.
  - repeat constructor.
  - repeat constructor.
  - repeat constructor.
  - repeat constructor.
Defined.


(** ** Traces and word-end hypotheses *)

(** [Lm::History]: a handle of the language model; [None] is the invalid
    (default-constructed) history. *)
Abbreviation History := (option nat).
Abbreviation PronunciationId := nat.
Abbreviation TimeframeIndex := nat.
(** [Core::Ref<Trace>]: a position in the store of trace objects, or the
    null reference. *)
Abbreviation TraceRef := (option nat).

(** Modelled from the spec: [SearchAlgorithm::ScoreVector] is declared in
    Search.hh, which is not part of the sources; it is the "score vector
    (acoustic, LM components)", and where the source compares or assigns a
    score vector as a [Score] it is its total, the sum of the two. *)
Record ScoreVector := mkScoreVector {
  acoustic : Score;
  lm : Score
}.

Definition total (v : ScoreVector) : Score := F32.add (acoustic v) (lm v).

(** [Search::Trace]: predecessor, sibling (the alternative hypotheses of a
    lattice), pronunciation, time, score and the transit description (the
    root state written by [describeRootState]). *)
Record Trace := mkTrace {
  predecessor : TraceRef;
  sibling : TraceRef;
  tr_pronunciation : option PronunciationId;
  tr_time : TimeframeIndex;
  tr_score : ScoreVector;
  tr_transit : option StateId
}.

Abbreviation TraceStore := (list Trace).

Definition deref (store : TraceStore) (r : TraceRef) : option Trace :=
  i ← r; store !! i.

Definition set_sibling (r : TraceRef) (s : TraceRef) (store : TraceStore)
  : option TraceStore :=
  i ← r; t ← store !! i;
  Some (<[i := mkTrace (predecessor t) s (tr_pronunciation t) (tr_time t)
                       (tr_score t) (tr_transit t)]> store).

(** [new Trace(...)]: the object is appended to the store. *)
Definition new_trace (t : Trace) (store : TraceStore) : TraceStore * TraceRef :=
  (store ++ [t], Some (length store)).

(** [const Bliss::LemmaPronunciation*]: the pronunciation pointed to, by
    its id, or the null pointer. *)
Abbreviation PronunciationPtr := (option PronunciationId).

(** [Search::WordEndHypothesis]; [weh_pronunciation] is a pointer and is
    null for a word end without pronunciation. *)
Record WordEndHypothesis := mkWordEndHypothesis {
  weh_history : History;
  weh_lookaheadHistory : History;
  weh_transitState : StateId;
  weh_pronunciation : PronunciationPtr;
  weh_endExit : nat;
  weh_score : ScoreVector;
  weh_trace : TraceRef
}.

(** The assignments of the winning branch of [recombineTwoHypotheses]:
    history, pronunciation, end exit, score and trace of [a] over [b]. *)
Definition overwrite (a b : WordEndHypothesis) : WordEndHypothesis :=
  {| weh_history := weh_history a;
     weh_lookaheadHistory := weh_lookaheadHistory b;
     weh_transitState := weh_transitState b;
     weh_pronunciation := weh_pronunciation a;
     weh_endExit := weh_endExit a;
     weh_score := weh_score a;
     weh_trace := weh_trace a |}.

(** The test of [recombineTwoHypotheses]: the incoming [a] beats the stored
    [b].  On equal scores the test reads [b.pronunciation->id()] and then
    [a.pronunciation->id()]; with a null pointer there the behaviour of the
    source is undefined and the result is [None]. *)
Definition incoming_better (a b : WordEndHypothesis) : option bool :=
  if F32.gtb (total (weh_score b)) (total (weh_score a)) then Some true
  else if F32.eqb (total (weh_score b)) (total (weh_score a)) then
    idb ← weh_pronunciation b;
    ida ← weh_pronunciation a;
    Some (ida <? idb)
  else Some false.

(** [verify(c)]: the run stops when [c] is false. *)
Definition verify (c : bool) : option unit := if c then Some tt else None.

(** A condition the source relies on without checking it (iterators inside
    their vector): where it fails the behaviour of the source is undefined
    and the model stops. *)
Definition defined (c : bool) : option unit := if c then Some tt else None.

(** [SearchSpace::recombineTwoHypotheses]; [a] is the incoming hypothesis and
    [b] the stored one.  The result is the store of traces and the new value
    of [b]; it is [None] when a verify fails or a null trace or a null
    pronunciation is dereferenced. *)
Definition recombineTwoHypotheses (a b : WordEndHypothesis) (shallCreateLattice : bool)
    (store : TraceStore) : option (TraceStore * WordEndHypothesis) :=
  better ← incoming_better a b;
  if (better : bool) then
    store' ← (if shallCreateLattice then
                ta ← deref store (weh_trace a);
                _ ← verify (bool_decide (sibling ta = None));
                set_sibling (weh_trace a) (weh_trace b) store
              else Some store);
    Some (store', overwrite a b)
  else
    store' ← (if shallCreateLattice then
                ta ← deref store (weh_trace a);
                _ ← verify (bool_decide (sibling ta = None));
                tb ← deref store (weh_trace b);
                store1 ← set_sibling (weh_trace a) (sibling tb) store;
                set_sibling (weh_trace b) (weh_trace a) store1
              else Some store);
    Some (store', b).

(** [RecognitionContext::latticeMode]. *)
Inductive LatticeMode := LatticeNo | LatticeYes | LatticeAsRequested.

Definition lattice_setting (mode : LatticeMode) (shallCreateLattice : bool) : bool :=
  match mode with
  | LatticeNo => false
  | LatticeYes => true
  | LatticeAsRequested => shallCreateLattice
  end.

(** Modelled from the spec: [WordEndHypothesis::Hash] and [Equality] are
    declared in SearchSpace.hh, which is not part of the sources; word ends
    are "keyed by (history, transit-state)". *)
Definition exactKey (w : WordEndHypothesis) : History * StateId :=
  (weh_history w, weh_transitState w).

Section WordEndRecombination.

(** The key of a recombination map: [exactKey], or the mesh key. *)
Context {K : Type} `{Countable K}.
Variable key : WordEndHypothesis -> K.

(** The state of the loop of [recombineWordEnds]: the traces, the vector
    [wordEndHypotheses] (compacted in place), the position [out] and the
    map from keys to positions before [out]. *)
Record RecombinationState := mkRecombinationState {
  rs_traces : TraceStore;
  rs_wordEndHypotheses : list WordEndHypothesis;
  rs_out : nat;
  rs_map : gmap K nat
}.

(** One round of the loop, for the position [in_]. *)
Definition recombine_step (shallCreateLattice : bool) (st : RecombinationState)
    (in_ : nat) : option RecombinationState :=
  a ← rs_wordEndHypotheses st !! in_;
  match rs_map st !! key a with
  | Some i =>
      b ← rs_wordEndHypotheses st !! i;
      r ← recombineTwoHypotheses a b shallCreateLattice (rs_traces st);
      Some (mkRecombinationState r.1 (<[i := r.2]> (rs_wordEndHypotheses st))
              (rs_out st) (rs_map st))
  | None =>
      Some (mkRecombinationState (rs_traces st)
              (<[rs_out st := a]> (rs_wordEndHypotheses st))
              (S (rs_out st)) (<[key a := rs_out st]> (rs_map st)))
  end.

Fixpoint recombine_loop (shallCreateLattice : bool) (ins : list nat)
    (st : RecombinationState) : option RecombinationState :=
  match ins with
  | [] => Some st
  | in_ :: ins' =>
      st' ← recombine_step shallCreateLattice st in_;
      recombine_loop shallCreateLattice ins' st'
  end.

(** The loop over the whole vector followed by
    [wordEndHypotheses.erase(out, end)]. *)
Definition recombine_with (shallCreateLattice : bool) (store : TraceStore)
    (wehs : list WordEndHypothesis) : option (TraceStore * list WordEndHypothesis) :=
  st ← recombine_loop shallCreateLattice (seq 0 (length wehs))
         (mkRecombinationState store wehs 0 ∅);
  Some (rs_traces st, take (rs_out st) (rs_wordEndHypotheses st)).

End WordEndRecombination.

(** [SearchSpace::recombineWordEnds]: mesh decoding with a lattice uses the
    mesh key, every other setting the exact key.

    Modelled from the spec: [WordEndHypothesis::MeshHash] and [MeshEquality]
    are not part of the sources; in mesh-lattice mode word ends are "keyed
    instead by (transit-state, bounded phonetic suffix)", which [meshKey]
    computes. *)
Definition recombineWordEnds {M : Type} `{Countable M} (meshKey : WordEndHypothesis -> M)
    (decodeMesh_ : bool) (latticeMode : LatticeMode) (shallCreateLattice : bool)
    (store : TraceStore) (wordEndHypotheses : list WordEndHypothesis)
  : option (TraceStore * list WordEndHypothesis) :=
  let lattice := lattice_setting latticeMode shallCreateLattice in
  if decodeMesh_ && lattice
  then recombine_with meshKey lattice store wordEndHypotheses
  else recombine_with exactKey lattice store wordEndHypotheses.

(** ** Word-end recombination of an already recombined list *)

Section RecombinationIdempotence.

Context {K : Type} `{Countable K}.
Variable key : WordEndHypothesis -> K.

(** The map knows only positions before [out], under the right keys. *)
Definition map_ok (wehs : list WordEndHypothesis) (k : nat) (m : gmap K nat) : Prop :=
  forall x i, m !! x = Some i -> i < k /\ key <$> (wehs !! i) = Some x.

Lemma recombine_step_fresh lattice store wehs k m a :
  NoDup (key <$> wehs) ->
  map_ok wehs k m ->
  wehs !! k = Some a ->
  recombine_step key lattice (mkRecombinationState store wehs k m) k =
    Some (mkRecombinationState store wehs (S k) (<[key a := k]> m)) /\
  map_ok wehs (S k) (<[key a := k]> m).
Proof.
  intros Hnd Hm Ha. unfold recombine_step. cbn. rewrite Ha. cbn.
  destruct (m !! key a) as [i|] eqn:Ei.
  - exfalso. destruct (Hm _ _ Ei) as [Hlt Hk].
    assert ((key <$> wehs) !! i = Some (key a)) as H1 by now rewrite list_lookup_fmap.
    assert ((key <$> wehs) !! k = Some (key a)) as H2
      by now rewrite list_lookup_fmap, Ha.
    pose proof (NoDup_lookup _ _ _ _ Hnd H1 H2). lia.
  - rewrite list_insert_id by assumption. split; [reflexivity|].
    intros x i. rewrite lookup_insert. destruct (decide (key a = x)) as [<-|Hne].
    + intros [= <-]. split; [lia|]. now rewrite Ha.
    + intros Hx. destruct (Hm _ _ Hx). split; [lia|assumption].
Qed.

Lemma recombine_loop_fresh lattice store wehs n : forall k m,
  NoDup (key <$> wehs) ->
  map_ok wehs k m ->
  k + n = length wehs ->
  exists m', recombine_loop key lattice (seq k n) (mkRecombinationState store wehs k m)
             = Some (mkRecombinationState store wehs (k + n) m').
Proof.
  induction n as [|n IH]; intros k m Hnd Hm Hlen; cbn.
  - exists m. now rewrite Nat.add_0_r.
  - destruct (lookup_lt_is_Some_2 wehs k ltac:(lia)) as [a Ha].
    destruct (recombine_step_fresh lattice store wehs k m a Hnd Hm Ha) as [-> Hm'].
    cbn. destruct (IH (S k) _ Hnd Hm' ltac:(lia)) as [m' ->].
    exists m'. do 2 f_equal. lia.
Qed.

Lemma recombine_with_fresh lattice store wehs :
  NoDup (key <$> wehs) ->
  recombine_with key lattice store wehs = Some (store, wehs).
Proof.
  intros Hnd. unfold recombine_with.
  destruct (recombine_loop_fresh lattice store wehs (length wehs) 0 ∅ Hnd) as [m' ->].
  - intros x i. rewrite lookup_empty. discriminate.
  - reflexivity.
  - cbn. now rewrite firstn_all.
Qed.

End RecombinationIdempotence.

(** The key [recombineWordEnds] works with under a given configuration. *)
Definition no_duplicate_keys {M : Type} (meshKey : WordEndHypothesis -> M)
    (decodeMesh_ : bool) (latticeMode : LatticeMode) (shallCreateLattice : bool)
    (wehs : list WordEndHypothesis) : Prop :=
  if decodeMesh_ && lattice_setting latticeMode shallCreateLattice
  then NoDup (meshKey <$> wehs)
  else NoDup (exactKey <$> wehs).

(** C9: [recombineWordEnds], applied to a list of word-end hypotheses in
    which no two have the same (history, transit state) key, or the same
    mesh key in mesh mode, returns the same list, in the same order, and
    leaves every trace as it was. *)
Theorem recombineWordEnds_recombined_unchanged {M : Type} `{Countable M}
    (meshKey : WordEndHypothesis -> M) (decodeMesh_ : bool) (latticeMode : LatticeMode)
    (shallCreateLattice : bool) (store : TraceStore) (wehs : list WordEndHypothesis) :
  no_duplicate_keys meshKey decodeMesh_ latticeMode shallCreateLattice wehs ->
  recombineWordEnds meshKey decodeMesh_ latticeMode shallCreateLattice store wehs
  = Some (store, wehs).
Proof.
  unfold no_duplicate_keys, recombineWordEnds.
  destruct (decodeMesh_ && lattice_setting latticeMode shallCreateLattice);
    apply recombine_with_fresh.
Qed.

(** Three word ends with pairwise different keys, and their traces. *)
Definition wehX : WordEndHypothesis :=
  mkWordEndHypothesis (Some 1) (Some 1) 1 (Some 4) 0 (mkScoreVector (F32.of_Z 5) F32.zero)
    (Some 0).
Definition wehY : WordEndHypothesis :=
  mkWordEndHypothesis (Some 1) (Some 1) 2 (Some 5) 1 (mkScoreVector (F32.of_Z 3) F32.zero)
    (Some 1).
Definition wehZ : WordEndHypothesis :=
  mkWordEndHypothesis (Some 2) (Some 2) 1 (Some 2) 2 (mkScoreVector (F32.of_Z 3) F32.zero)
    (Some 2).
Definition plainTrace : Trace :=
  mkTrace None None None 0 (mkScoreVector F32.zero F32.zero) None.
Definition traces3 : TraceStore := [plainTrace; plainTrace; plainTrace].

Lemma recombineWordEnds_recombined_unchanged_witness :
  recombineWordEnds weh_endExit false LatticeAsRequested true traces3 [wehX; wehY; wehZ]
  = Some (traces3, [wehX; wehY; wehZ]).
Proof.
  apply (recombineWordEnds_recombined_unchanged weh_endExit false LatticeAsRequested
           true traces3 [wehX; wehY; wehZ]).
  unfold no_duplicate_keys. cbn [andb].
  apply (bool_decide_unpack _). vm_compute. reflexivity.
Defined.

(** ** Ties in word-end recombination *)

Lemma eqv_proper x y : F32.eqv x y -> F32.proper x /\ F32.proper y.
Proof.
  unfold F32.eqv, F32.eqb, SFeqb, F32.proper.
  destruct x, y; cbn; try discriminate; auto.
Qed.

Lemma eqv_not_gtb x y : F32.eqv x y -> F32.gtb x y = false.
Proof.
  intros He. destruct (eqv_proper x y He) as [Hx Hy].
  apply F32Facts.eqb_le in He as [Hxy _]; auto.
  rewrite F32Facts.gtb_leb by assumption. unfold F32.le in Hxy. now rewrite Hxy.
Qed.

(** Two word ends with the same exact key and the same total score 3.0;
    the stored one has pronunciation 5, the incoming one pronunciation 2. *)
Definition wehStored : WordEndHypothesis :=
  mkWordEndHypothesis (Some 1) (Some 1) 1 (Some 5) 0 (mkScoreVector (F32.of_Z 3) F32.zero)
    (Some 0).
Definition wehIncoming : WordEndHypothesis :=
  mkWordEndHypothesis (Some 1) (Some 1) 1 (Some 2) 1 (mkScoreVector (F32.of_Z 3) F32.zero)
    (Some 1).

(** C10, as stated, fails: the stored (first-inserted) hypothesis and the
    incoming one have the same key and exactly equal scores, and the
    incoming one survives, with its trace and pronunciation, because its
    pronunciation id is the smaller one. *)
Lemma recombineTwoHypotheses_tie_incoming_survives :
  exactKey wehStored = exactKey wehIncoming /\
  F32.eqv (total (weh_score wehStored)) (total (weh_score wehIncoming)) /\
  recombineTwoHypotheses wehIncoming wehStored false traces3
    = Some (traces3, overwrite wehIncoming wehStored) /\
  weh_trace (overwrite wehIncoming wehStored) = weh_trace wehIncoming /\
  weh_trace (overwrite wehIncoming wehStored) <> weh_trace wehStored /\
  recombineWordEnds weh_endExit false LatticeNo false traces3 [wehStored; wehIncoming]
    = Some (traces3, [overwrite wehIncoming wehStored]).
Proof.
  repeat split; try reflexivity. vm_compute. discriminate.
Qed.

Lemma set_sibling_is_Some store r s t :
  deref store r = Some t -> is_Some (set_sibling r s store).
Proof.
  unfold deref, set_sibling. destruct r as [i|]; [cbn|discriminate].
  intros ->. cbn. eauto.
Qed.

(** Writing a sibling keeps every trace object in place. *)
Lemma deref_set_sibling store store' r s r' t :
  set_sibling r s store = Some store' ->
  deref store r' = Some t -> is_Some (deref store' r').
Proof.
  unfold deref, set_sibling. destruct r as [i|]; [cbn|discriminate].
  destruct (store !! i) as [ti|]; [cbn|discriminate]. intros [= <-].
  destruct r' as [j|]; [cbn|discriminate]. intros Hj.
  apply lookup_lt_is_Some. rewrite length_insert. now apply lookup_lt_Some in Hj.
Qed.

(** Writing a sibling leaves the trace with that sibling. *)
Lemma deref_set_sibling_eq store store' r s :
  set_sibling r s store = Some store' ->
  exists t, deref store' r = Some t /\ sibling t = s.
Proof.
  unfold deref, set_sibling. destruct r as [i|]; [cbn|discriminate].
  destruct (store !! i) as [ti|] eqn:Hi; [cbn|discriminate]. intros [= <-].
  eexists. split; [apply list_lookup_insert_eq; now apply lookup_lt_Some in Hi|].
  reflexivity.
Qed.

(** The outcome of the test of [recombineTwoHypotheses] by the order of
    the two total scores. *)
Lemma incoming_better_lower a b :
  F32.proper (total (weh_score a)) -> F32.proper (total (weh_score b)) ->
  F32.lt (total (weh_score a)) (total (weh_score b)) ->
  incoming_better a b = Some true.
Proof.
  intros _ _ Hlt. unfold incoming_better.
  change (F32.gtb (total (weh_score b)) (total (weh_score a)))
    with (F32.ltb (total (weh_score a)) (total (weh_score b))).
  unfold F32.lt in Hlt. now rewrite Hlt.
Qed.

Lemma incoming_better_higher a b :
  F32.proper (total (weh_score a)) -> F32.proper (total (weh_score b)) ->
  F32.lt (total (weh_score b)) (total (weh_score a)) ->
  incoming_better a b = Some false.
Proof.
  intros Ha Hb Hlt. unfold incoming_better.
  pose proof (proj1 (F32Facts.lt_not_le _ _ Hb Ha) Hlt) as Hnle.
  change (F32.gtb (total (weh_score b)) (total (weh_score a)))
    with (F32.ltb (total (weh_score a)) (total (weh_score b))).
  destruct (F32.ltb (total (weh_score a)) (total (weh_score b))) eqn:E.
  - exfalso. apply Hnle. now apply F32Facts.lt_le.
  - destruct (F32.eqb (total (weh_score b)) (total (weh_score a))) eqn:He; [|reflexivity].
    exfalso. apply Hnle. now apply (F32Facts.eqb_le _ _ Hb Ha) in He as [_ ?].
Qed.

Lemma incoming_better_tie a b :
  F32.eqv (total (weh_score b)) (total (weh_score a)) ->
  incoming_better a b =
    (idb ← weh_pronunciation b; ida ← weh_pronunciation a; Some (ida <? idb)).
Proof.
  intros He. unfold incoming_better. rewrite (eqv_not_gtb _ _ He).
  unfold F32.eqv in He. now rewrite He.
Qed.

(** The call of [recombineTwoHypotheses] for the incoming [a] and the
    stored [b] leaves [r] as the stored hypothesis, the trace [winner] as
    its trace and, with a lattice, the trace [loser] as the sibling of
    [winner]: without a lattice the traces are untouched; with a lattice,
    for traces that exist and an incoming trace without sibling, the
    stored hypothesis is the same. *)
Definition settles (a b : WordEndHypothesis) (store : TraceStore)
    (r : WordEndHypothesis) (winner loser : TraceRef) : Prop :=
  weh_trace r = winner /\
  recombineTwoHypotheses a b false store = Some (store, r) /\
  forall ta tb,
    deref store (weh_trace a) = Some ta -> sibling ta = None ->
    deref store (weh_trace b) = Some tb ->
    exists store' t,
      recombineTwoHypotheses a b true store = Some (store', r) /\
      deref store' winner = Some t /\ sibling t = loser.

Lemma settles_incoming a b store :
  incoming_better a b = Some true ->
  settles a b store (overwrite a b) (weh_trace a) (weh_trace b).
Proof.
  intros Hb. unfold settles, recombineTwoHypotheses. rewrite Hb. cbn [mbind option_bind].
  split; [reflexivity|]. split; [reflexivity|].
  intros ta tb Ha Hs _. rewrite Ha. cbn. rewrite Hs. cbn.
  destruct (set_sibling_is_Some store (weh_trace a) (weh_trace b) ta Ha) as [s1 E1].
  rewrite E1. cbn. destruct (deref_set_sibling_eq _ _ _ _ E1) as (t & Ht & Hst). eauto.
Qed.

Lemma settles_stored a b store :
  incoming_better a b = Some false ->
  settles a b store b (weh_trace b) (weh_trace a).
Proof.
  intros Hb. unfold settles, recombineTwoHypotheses. rewrite Hb. cbn [mbind option_bind].
  split; [reflexivity|]. split; [reflexivity|].
  intros ta tb Ha Hs Htb. rewrite Ha. cbn. rewrite Hs. cbn. rewrite Htb. cbn.
  destruct (set_sibling_is_Some store (weh_trace a) (sibling tb) ta Ha) as [s1 E1].
  rewrite E1. cbn.
  destruct (deref_set_sibling store s1 (weh_trace a) (sibling tb) (weh_trace b) tb E1 Htb)
    as [tb' Hb'].
  destruct (set_sibling_is_Some s1 (weh_trace b) (weh_trace a) tb' Hb') as [s2 E2].
  rewrite E2. cbn. destruct (deref_set_sibling_eq _ _ _ _ E2) as (t & Ht & Hst). eauto.
Qed.

(** C10 (amended): in [recombineTwoHypotheses], for total scores that are
    numbers, the lower total score wins: an incoming hypothesis with the
    lower total replaces history, pronunciation, exit, score and trace of
    the stored one, and a stored hypothesis with the lower total stays as
    it is.  When the two totals are exactly equal the hypothesis with the
    smaller pronunciation id wins, so the stored (first-inserted) one
    survives only when its pronunciation id is not greater than the
    incoming one's; with a null pronunciation on either side the tie
    dereferences a null pointer and the call has no result.  The trace of
    the winner is the trace of the stored hypothesis afterwards and, with a
    lattice, the trace of the loser is its sibling.  One of the three
    orders always holds, and the outcome depends on the scores and the
    pronunciation ids only. *)
Theorem recombineTwoHypotheses_lower_score_then_pronunciation
    (a b : WordEndHypothesis) (store : TraceStore) :
  F32.proper (total (weh_score a)) -> F32.proper (total (weh_score b)) ->
  (F32.lt (total (weh_score a)) (total (weh_score b)) ->
   settles a b store (overwrite a b) (weh_trace a) (weh_trace b)) /\
  (F32.lt (total (weh_score b)) (total (weh_score a)) ->
   settles a b store b (weh_trace b) (weh_trace a)) /\
  (F32.eqv (total (weh_score b)) (total (weh_score a)) ->
   (forall ida idb,
      weh_pronunciation a = Some ida -> weh_pronunciation b = Some idb ->
      if ida <? idb
      then settles a b store (overwrite a b) (weh_trace a) (weh_trace b)
      else settles a b store b (weh_trace b) (weh_trace a)) /\
   (weh_pronunciation a = None \/ weh_pronunciation b = None ->
    forall shallCreateLattice,
      recombineTwoHypotheses a b shallCreateLattice store = None)) /\
  (F32.lt (total (weh_score a)) (total (weh_score b)) \/
   F32.lt (total (weh_score b)) (total (weh_score a)) \/
   F32.eqv (total (weh_score b)) (total (weh_score a))).
Proof.
  intros Ha Hb. split; [|split; [|split]].
  - intros Hlt. apply settles_incoming. now apply incoming_better_lower.
  - intros Hlt. apply settles_stored. now apply incoming_better_higher.
  - intros He. pose proof (incoming_better_tie a b He) as Htie. split.
    + intros ida idb Hia Hib. rewrite Hia, Hib in Htie. cbn [mbind option_bind] in Htie.
      destruct (ida <? idb); [now apply settles_incoming|now apply settles_stored].
    + intros Hnull lattice. unfold recombineTwoHypotheses. rewrite Htie.
      destruct Hnull as [-> | ->]; [now destruct (weh_pronunciation b)|reflexivity].
  - now apply score_trichotomy.
Qed.

Lemma recombineTwoHypotheses_lower_score_then_pronunciation_witness :
  settles wehIncoming wehStored traces3 (overwrite wehIncoming wehStored)
    (weh_trace wehIncoming) (weh_trace wehStored) /\
  settles wehStored wehIncoming traces3 wehIncoming
    (weh_trace wehIncoming) (weh_trace wehStored) /\
  settles wehY wehX traces3 (overwrite wehY wehX) (weh_trace wehY) (weh_trace wehX).
Proof.
  split; [|split].
  - destruct (recombineTwoHypotheses_lower_score_then_pronunciation
                wehIncoming wehStored traces3 eq_refl eq_refl) as (_ & _ & Htie & _).
    destruct (Htie eq_refl) as [Hid _]. exact (Hid 2 5 eq_refl eq_refl).
  - destruct (recombineTwoHypotheses_lower_score_then_pronunciation
                wehStored wehIncoming traces3 eq_refl eq_refl) as (_ & _ & Htie & _).
    destruct (Htie eq_refl) as [Hid _]. exact (Hid 5 2 eq_refl eq_refl).
  - destruct (recombineTwoHypotheses_lower_score_then_pronunciation
                wehY wehX traces3 eq_refl eq_refl) as (Hlow & _).
    exact (Hlow eq_refl).
Defined.

(** A tie between word ends without pronunciation: the call has no
    result, with and without a lattice. *)
Example recombineTwoHypotheses_tie_null_pronunciation :
  let a := mkWordEndHypothesis (Some 1) (Some 1) 1 None 1
             (mkScoreVector (F32.of_Z 3) F32.zero) (Some 1) in
  let b := mkWordEndHypothesis (Some 1) (Some 1) 1 None 0
             (mkScoreVector (F32.of_Z 3) F32.zero) (Some 0) in
  recombineTwoHypotheses a b false traces3 = None /\
  recombineTwoHypotheses a b true traces3 = None /\
  recombineWordEnds weh_endExit false LatticeNo false traces3 [b; a] = None.
Proof. repeat split. Qed.


(** ** Instances and the search space *)

(** [Instance*]: a position in the store of instance objects, or null. *)
Abbreviation InstancePtr := (option nat).

(** Modelled from the spec: [Search::InstanceKey] is declared in
    Instance.hh, which is not part of the sources; an instance is keyed by
    "one LM context (history + optional predecessor-word key)", and a
    time-keyed variant exists. *)
Record InstanceKey := mkInstanceKey {
  key_history : History;
  key_predecessorWord : option PronunciationId;
  key_time : option TimeframeIndex
}.

Definition isTimeKey (k : InstanceKey) : bool := bool_decide (key_time k <> None).

#[global] Instance InstanceKey_eq_dec : EqDecision InstanceKey.
Proof. solve_decision. Defined.

#[global] Instance InstanceKey_countable : Countable InstanceKey.
Proof.
  refine (inj_countable' (fun k => (key_history k, key_predecessorWord k, key_time k))
            (fun t => mkInstanceKey t.1.1 t.1.2 t.2) _).
  now intros [].
Defined.

(** [LanguageModelLookahead::ContextLookahead], the look-ahead table of one
    context, by the three members the search space calls. *)
Record ContextLookahead := mkContextLookahead {
  isSparse : bool;
  scoreForLookAheadIdNormal : nat -> Score;
  getScoreForLookAheadHashSparse : nat -> option Score
}.

(** [Search::Instance]: the slice [states] of the state hypotheses that
    belong to the instance, the entry hypotheses, the hypotheses to be
    transferred into it, the back-off links and the look-ahead. *)
Record Instance := mkInstance {
  key : InstanceKey;
  states_begin : StateHypothesisIndex;
  states_end : StateHypothesisIndex;
  rootStateHypotheses : list StateHypothesis;
  transfer : list StateHypothesisIndex;
  backOffInstance : InstancePtr;
  backOffParent : InstancePtr;
  backOffScore : Score;
  totalBackOffOffset : Score;
  lookAheadHistory : History;
  lookahead : option ContextLookahead;
  inactive : nat
}.

Definition states_empty (i : Instance) : bool := states_begin i =? states_end i.
(** [instance.lookahead.get()] is not null. *)
Definition has_lookahead (i : Instance) : bool := bool_decide (is_Some (lookahead i)).
Definition states_size (i : Instance) : nat := states_end i - states_begin i.

Definition set_states (b e : StateHypothesisIndex) (i : Instance) : Instance :=
  mkInstance (key i) b e (rootStateHypotheses i) (transfer i) (backOffInstance i)
    (backOffParent i) (backOffScore i) (totalBackOffOffset i) (lookAheadHistory i)
    (lookahead i) (inactive i).
Definition set_rootStateHypotheses (r : list StateHypothesis) (i : Instance) : Instance :=
  mkInstance (key i) (states_begin i) (states_end i) r (transfer i) (backOffInstance i)
    (backOffParent i) (backOffScore i) (totalBackOffOffset i) (lookAheadHistory i)
    (lookahead i) (inactive i).
Definition set_transfer (t : list StateHypothesisIndex) (i : Instance) : Instance :=
  mkInstance (key i) (states_begin i) (states_end i) (rootStateHypotheses i) t
    (backOffInstance i) (backOffParent i) (backOffScore i) (totalBackOffOffset i)
    (lookAheadHistory i) (lookahead i) (inactive i).
Definition set_backOffInstance (p : InstancePtr) (i : Instance) : Instance :=
  mkInstance (key i) (states_begin i) (states_end i) (rootStateHypotheses i) (transfer i)
    p (backOffParent i) (backOffScore i) (totalBackOffOffset i) (lookAheadHistory i)
    (lookahead i) (inactive i).
Definition set_backOffParent (p : InstancePtr) (i : Instance) : Instance :=
  mkInstance (key i) (states_begin i) (states_end i) (rootStateHypotheses i) (transfer i)
    (backOffInstance i) p (backOffScore i) (totalBackOffOffset i) (lookAheadHistory i)
    (lookahead i) (inactive i).
Definition set_backOffScore (s : Score) (i : Instance) : Instance :=
  mkInstance (key i) (states_begin i) (states_end i) (rootStateHypotheses i) (transfer i)
    (backOffInstance i) (backOffParent i) s (totalBackOffOffset i) (lookAheadHistory i)
    (lookahead i) (inactive i).
Definition set_totalBackOffOffset (s : Score) (i : Instance) : Instance :=
  mkInstance (key i) (states_begin i) (states_end i) (rootStateHypotheses i) (transfer i)
    (backOffInstance i) (backOffParent i) (backOffScore i) s (lookAheadHistory i)
    (lookahead i) (inactive i).
Definition set_lookAheadHistory (h : History) (i : Instance) : Instance :=
  mkInstance (key i) (states_begin i) (states_end i) (rootStateHypotheses i) (transfer i)
    (backOffInstance i) (backOffParent i) (backOffScore i) (totalBackOffOffset i) h
    (lookahead i) (inactive i).
Definition set_lookahead (l : option ContextLookahead) (i : Instance) : Instance :=
  mkInstance (key i) (states_begin i) (states_end i) (rootStateHypotheses i) (transfer i)
    (backOffInstance i) (backOffParent i) (backOffScore i) (totalBackOffOffset i)
    (lookAheadHistory i) l (inactive i).
Definition set_inactive (n : nat) (i : Instance) : Instance :=
  mkInstance (key i) (states_begin i) (states_end i) (rootStateHypotheses i) (transfer i)
    (backOffInstance i) (backOffParent i) (backOffScore i) (totalBackOffOffset i)
    (lookAheadHistory i) (lookahead i) n.

(** Modelled from the spec: the constructor [Instance(key, backOffParent)]
    is defined in Instance.cc, which is not part of the sources; a new
    instance has no states, no entries and no links but the one to its
    parent ("linked via backOffParent/backOffInstance": the parent's
    [backOffInstance] is set to the new object, as the verify after the
    call in [getBackOffInstance] requires). *)
Definition newInstance (k : InstanceKey) (parent : InstancePtr) : Instance :=
  mkInstance k 0 0 [] [] None parent F32.zero F32.zero None None 0.

(** The members of [SearchSpace] the functions below read and write; the
    three members of the arena are kept together.  [instances] is the store
    of instance objects ([None]: deleted). *)
Record SearchSpace := mkSearchSpace {
  stateHypotheses : list StateHypothesis;
  arena : Arena;
  instances : list (option Instance);
  activeInstances : list nat;
  activeInstanceMap : gmap InstanceKey nat;
  bestProspect_ : Score;
  bestScore_ : Score
}.

Definition set_stateHypotheses (l : list StateHypothesis) (ss : SearchSpace) : SearchSpace :=
  mkSearchSpace l (arena ss) (instances ss) (activeInstances ss) (activeInstanceMap ss)
    (bestProspect_ ss) (bestScore_ ss).
Definition set_arena (a : Arena) (ss : SearchSpace) : SearchSpace :=
  mkSearchSpace (stateHypotheses ss) a (instances ss) (activeInstances ss)
    (activeInstanceMap ss) (bestProspect_ ss) (bestScore_ ss).
Definition set_instances (l : list (option Instance)) (ss : SearchSpace) : SearchSpace :=
  mkSearchSpace (stateHypotheses ss) (arena ss) l (activeInstances ss)
    (activeInstanceMap ss) (bestProspect_ ss) (bestScore_ ss).
Definition set_activeInstances (l : list nat) (ss : SearchSpace) : SearchSpace :=
  mkSearchSpace (stateHypotheses ss) (arena ss) (instances ss) l
    (activeInstanceMap ss) (bestProspect_ ss) (bestScore_ ss).
Definition set_activeInstanceMap (m : gmap InstanceKey nat) (ss : SearchSpace)
  : SearchSpace :=
  mkSearchSpace (stateHypotheses ss) (arena ss) (instances ss) (activeInstances ss) m
    (bestProspect_ ss) (bestScore_ ss).
Definition set_best (p s : Score) (ss : SearchSpace) : SearchSpace :=
  mkSearchSpace (stateHypotheses ss) (arena ss) (instances ss) (activeInstances ss)
    (activeInstanceMap ss) p s.

(** [*p] for an instance pointer. *)
Definition instance_at (ss : SearchSpace) (p : nat) : option Instance :=
  mjoin (instances ss !! p).

Definition update_instance (p : nat) (f : Instance -> Instance) (ss : SearchSpace)
  : SearchSpace :=
  set_instances (alter (fmap f) p (instances ss)) ss.

(** ** Back-off instances *)

(** The creation of the back-off instance of [p] in [getBackOffInstance]:
    the new object is linked to its parent and appended to
    [activeInstances], the parent gets its back-off score and the new
    instance its reduced look-ahead history. *)
Definition create_backOff (p : nat) (k : InstanceKey) (reduced : History)
    (backOffScore_ : Score) (ss : SearchSpace) : SearchSpace :=
  let child := length (instances ss) in
  let ss0 := set_instances (instances ss ++ [Some (newInstance k (Some p))]) ss in
  let ss1 := update_instance p (set_backOffInstance (Some child)) ss0 in
  let ss2 := set_activeInstances (activeInstances ss1 ++ [child]) ss1 in
  let ss3 := update_instance p (set_backOffScore backOffScore_) ss2 in
  update_instance child (set_lookAheadHistory reduced) ss3.

Section BackOff.

(** The back-off language model [Lm::BackingOffLm], by the members the
    search space calls ([historyLenght] is the spelling of the source). *)
Variable historyLenght : History -> nat.
Variable reducedHistory : History -> nat -> History.
Variable getBackOffScores : History -> Score.

(** [lmLookahead_] is not null. *)
Variable lmLookahead_ : bool.

(** [SearchSpace::getBackOffInstance]. *)
Definition getBackOffInstance (p : nat) (ss : SearchSpace)
  : option (SearchSpace * InstancePtr) :=
  instance ← instance_at ss p;
  if bool_decide (backOffInstance instance <> None) || negb lmLookahead_
  then Some (ss, backOffInstance instance)
  else
    let useHistory := lookAheadHistory instance in
    let length_ := historyLenght useHistory in
    if length_ =? 0 then Some (ss, None)
    else
      let reduced := reducedHistory useHistory (length_ - 1) in
      _ ← verify (historyLenght reduced =? length_ - 1);
      _ ← verify (bool_decide (reduced <> None));
      Some (create_backOff p (key instance) reduced (getBackOffScores useHistory) ss,
            Some (length (instances ss))).

(** Following the back-off links by repeated calls, at most [fuel] times;
    the result is the number of hops and the last instance. *)
Fixpoint backOffChain (fuel : nat) (p : nat) (ss : SearchSpace)
  : option (SearchSpace * nat * nat) :=
  match fuel with
  | 0 => Some (ss, 0, p)
  | S fuel' =>
      r ← getBackOffInstance p ss;
      match r.2 with
      | None => Some (r.1, 0, p)
      | Some c =>
          r' ← backOffChain fuel' c r.1;
          Some (r'.1.1, S r'.1.2, r'.2)
      end
  end.

End BackOff.

(** A language model for the examples: the history [Some n] has length
    [n], and reducing a history to length [k] gives [Some k]. *)
Definition exampleLength (h : History) : nat := default 0 h.
Definition exampleReduced (h : History) (k : nat) : History := Some k.
Definition exampleBackOffScore (h : History) : Score := F32.of_Z 1.

Definition exampleKey : InstanceKey := mkInstanceKey (Some 2) None None.

(** One instance whose look-ahead history has length 2, without links. *)
Definition oneInstance : SearchSpace :=
  mkSearchSpace [] (mkArena [] [0; 0; 0] 0)
    [Some (set_lookAheadHistory (Some 2) (newInstance exampleKey None))] [0]
    {[exampleKey := 0]} F32.max F32.max.

(** What the source verifies of the language model: reducing a history of
    positive length by one gives a valid history of that length. *)
Definition lm_reduces (historyLenght : History -> nat)
    (reducedHistory : History -> nat -> History) : Prop :=
  forall h, historyLenght h <> 0 ->
    historyLenght (reducedHistory h (historyLenght h - 1)) = historyLenght h - 1 /\
    reducedHistory h (historyLenght h - 1) <> None.

Section BackOffFacts.

Variable historyLenght : History -> nat.
Variable reducedHistory : History -> nat -> History.
Variable getBackOffScores : History -> Score.

Lemma instance_at_update p f ss q :
  instance_at (update_instance p f ss) q =
  if decide (p = q) then f <$> instance_at ss q else instance_at ss q.
Proof.
  unfold instance_at, update_instance. cbn.
  destruct (decide (p = q)) as [->|Hne].
  - rewrite list_lookup_alter_eq. now destruct (instances ss !! q) as [[?|]|].
  - now rewrite list_lookup_alter_ne.
Qed.

Lemma instance_at_lt ss p inst :
  instance_at ss p = Some inst -> p < length (instances ss).
Proof.
  unfold instance_at. destruct (instances ss !! p) eqn:E; [|discriminate].
  intros _. now apply lookup_lt_Some in E.
Qed.

Lemma instance_at_set_active l ss q :
  instance_at (set_activeInstances l ss) q = instance_at ss q.
Proof. reflexivity. Qed.

Lemma instance_at_append inst ss q :
  instance_at (set_instances (instances ss ++ [Some inst]) ss) q =
  if decide (q = length (instances ss)) then Some inst else instance_at ss q.
Proof.
  unfold instance_at. cbn. destruct (decide (q = length (instances ss))) as [->|Hne].
  - now rewrite lookup_app_r, Nat.sub_diag by lia.
  - destruct (decide (q < length (instances ss))).
    + now rewrite lookup_app_l.
    + rewrite !lookup_ge_None_2; auto; try lia. rewrite length_app. cbn. lia.
Qed.

Lemma length_update_instance p f ss :
  length (instances (update_instance p f ss)) = length (instances ss).
Proof. unfold update_instance. cbn. apply length_alter. Qed.

Lemma create_backOff_shape p k reduced bs ss inst :
  instance_at ss p = Some inst ->
  let ss' := create_backOff p k reduced bs ss in
  activeInstances ss' = activeInstances ss ++ [length (instances ss)] /\
  stateHypotheses ss' = stateHypotheses ss /\ arena ss' = arena ss /\
  length (instances ss') = S (length (instances ss)) /\
  forall q, instance_at ss' q =
    if decide (q = length (instances ss))
    then Some (set_lookAheadHistory reduced (newInstance k (Some p)))
    else if decide (q = p)
    then Some (set_backOffScore bs (set_backOffInstance (Some (length (instances ss))) inst))
    else instance_at ss q.
Proof.
  intros Hp. pose proof (instance_at_lt _ _ _ Hp) as Hlt. unfold create_backOff.
  split; [reflexivity|]. split; [reflexivity|]. split; [reflexivity|].
  split.
  { repeat first [ rewrite length_update_instance
                 | progress cbn [instances set_activeInstances set_instances] ].
    rewrite length_app. cbn. lia. }
  intros q. rewrite !instance_at_update, instance_at_set_active, instance_at_update,
    instance_at_append.
  destruct (decide (q = length (instances ss))) as [->|Hq].
  - destruct (decide (length (instances ss) = length (instances ss))); [|contradiction].
    destruct (decide (p = length (instances ss))); [lia|]. reflexivity.
  - destruct (decide (length (instances ss) = q)); [congruence|].
    destruct (decide (p = q)) as [->|Hpq].
    + destruct (decide (q = q)); [|contradiction]. rewrite Hp. reflexivity.
    + destruct (decide (q = p)); [congruence|]. reflexivity.
Qed.

(** The instances after a call that creates a back-off instance for [p]. *)
Lemma getBackOffInstance_creates p ss inst :
  instance_at ss p = Some inst ->
  backOffInstance inst = None ->
  historyLenght (lookAheadHistory inst) <> 0 ->
  lm_reduces historyLenght reducedHistory ->
  exists ss',
    getBackOffInstance historyLenght reducedHistory getBackOffScores true p ss
      = Some (ss', Some (length (instances ss))) /\
    activeInstances ss' = activeInstances ss ++ [length (instances ss)] /\
    stateHypotheses ss' = stateHypotheses ss /\ arena ss' = arena ss /\
    length (instances ss') = S (length (instances ss)) /\
    forall q, instance_at ss' q =
      if decide (q = length (instances ss))
      then Some (set_lookAheadHistory
                   (reducedHistory (lookAheadHistory inst)
                      (historyLenght (lookAheadHistory inst) - 1))
                   (newInstance (key inst) (Some p)))
      else if decide (q = p)
      then Some (set_backOffScore (getBackOffScores (lookAheadHistory inst))
                   (set_backOffInstance (Some (length (instances ss))) inst))
      else instance_at ss q.
Proof.
  intros Hp Hb Hlen Hlm. unfold getBackOffInstance. rewrite Hp. cbn [mbind option_bind].
  rewrite Hb. rewrite bool_decide_eq_false_2 by (intros Hn; now apply Hn).
  cbn [orb negb].
  destruct (Nat.eqb_spec (historyLenght (lookAheadHistory inst)) 0); [contradiction|].
  destruct (Hlm _ Hlen) as [Hr Hv]. rewrite Hr, Nat.eqb_refl.
  rewrite bool_decide_eq_true_2 by assumption. cbn [verify mbind option_bind].
  eexists. split; [reflexivity|]. exact (create_backOff_shape p _ _ _ ss inst Hp).
Qed.

End BackOffFacts.

Section BackOffChain.

Variable historyLenght : History -> nat.
Variable reducedHistory : History -> nat -> History.
Variable getBackOffScores : History -> Score.
Hypothesis lm_ok : lm_reduces historyLenght reducedHistory.

(** An instance that has a link, or a call with the look-ahead disabled:
    the link is returned as it is and nothing changes. *)
Lemma getBackOffInstance_returns_link lmLookahead_ p ss inst :
  instance_at ss p = Some inst ->
  backOffInstance inst <> None \/ lmLookahead_ = false ->
  getBackOffInstance historyLenght reducedHistory getBackOffScores lmLookahead_ p ss
  = Some (ss, backOffInstance inst).
Proof.
  intros Hp Hor. unfold getBackOffInstance. rewrite Hp. cbn [mbind option_bind].
  destruct Hor as [Hb| ->].
  - now rewrite bool_decide_eq_true_2 by assumption.
  - cbn [negb]. now rewrite orb_true_r.
Qed.

(** An instance without a link, with the look-ahead enabled: null for the
    empty history, and otherwise a new instance whose history is one
    shorter and which has no link itself. *)
Lemma getBackOffInstance_fresh p ss inst :
  instance_at ss p = Some inst -> backOffInstance inst = None ->
  exists ss' r,
    getBackOffInstance historyLenght reducedHistory getBackOffScores true p ss
      = Some (ss', r) /\
    (historyLenght (lookAheadHistory inst) = 0 -> r = None /\ ss' = ss) /\
    (historyLenght (lookAheadHistory inst) <> 0 ->
     exists c child, r = Some c /\ instance_at ss' c = Some child /\
       historyLenght (lookAheadHistory child) + 1 = historyLenght (lookAheadHistory inst) /\
       backOffInstance child = None).
Proof.
  intros Hp Hb.
  destruct (Nat.eq_dec (historyLenght (lookAheadHistory inst)) 0) as [Hz|Hnz].
  - exists ss, None. unfold getBackOffInstance. rewrite Hp. cbn [mbind option_bind].
    rewrite Hb. rewrite bool_decide_eq_false_2 by (intros Hn; now apply Hn).
    cbn [orb negb]. rewrite Hz. cbn. split; [reflexivity|]. split; [auto|].
    intros Hn. contradiction.
  - destruct (getBackOffInstance_creates historyLenght reducedHistory getBackOffScores
                p ss inst Hp Hb Hnz lm_ok) as (ss' & Hrun & _ & _ & _ & _ & Hat).
    exists ss', (Some (length (instances ss))). split; [exact Hrun|].
    split; [intros Hz; contradiction|]. intros _.
    eexists _, _. split; [reflexivity|]. split.
    { rewrite Hat. now destruct (decide (length (instances ss) = length (instances ss))). }
    cbn. destruct (lm_ok _ Hnz) as [Hr _]. rewrite Hr. split; [lia|reflexivity].
Qed.

(** Following the links from an instance without a link: each hop creates
    an instance whose history is one shorter, and the empty history is
    reached after as many hops as the history is long. *)
Lemma backOffChain_fresh n : forall fuel p ss inst,
  instance_at ss p = Some inst -> backOffInstance inst = None ->
  historyLenght (lookAheadHistory inst) = n -> n <= fuel ->
  exists ss' last linst,
    backOffChain historyLenght reducedHistory getBackOffScores true fuel p ss
      = Some (ss', n, last) /\
    instance_at ss' last = Some linst /\ historyLenght (lookAheadHistory linst) = 0.
Proof.
  induction n as [|n IH]; intros fuel p ss inst Hp Hb Hn Hfuel.
  - destruct fuel as [|fuel]; cbn [backOffChain].
    { exists ss, p, inst. auto. }
    destruct (getBackOffInstance_fresh p ss inst Hp Hb) as (ss' & r & Hrun & Hz & _).
    destruct (Hz Hn) as [-> ->]. rewrite Hrun. cbn. exists ss, p, inst. auto.
  - destruct fuel as [|fuel]; [lia|]. cbn [backOffChain].
    destruct (getBackOffInstance_fresh p ss inst Hp Hb) as (ss' & r & Hrun & _ & Hnz).
    destruct (Hnz ltac:(lia)) as (c & child & -> & Hc & Hlen & Hbc).
    rewrite Hrun. cbn [mbind option_bind fst snd].
    destruct (IH fuel c ss' child Hc Hbc ltac:(lia) ltac:(lia))
      as (ss2 & last & linst & Hchain & Hlast & Hz).
    rewrite Hchain. cbn. exists ss2, last, linst. auto.
Qed.

End BackOffChain.

(** C5, as stated, fails: with the LM look-ahead switched off
    ([lmLookahead_] null) [getBackOffInstance] returns the existing link of
    the instance, here null, although the look-ahead history of the
    instance has length 2. *)
Lemma getBackOffInstance_without_lookahead :
  (lookAheadHistory <$> instance_at oneInstance 0) = Some (Some 2) /\
  exampleLength (Some 2) = 2 /\
  getBackOffInstance exampleLength exampleReduced exampleBackOffScore false 0 oneInstance
    = Some (oneInstance, None).
Proof. repeat split. Qed.

(** An existing link is returned without a look at the histories: a parent
    whose look-ahead history was re-assigned to the empty history (as
    [startNewTrees] does for an instance it finds by its key) still gets
    its back-off instance, and one whose history has length 3 gets an
    instance of history length 1. *)
Example getBackOffInstance_link_unchecked :
  let linked (h : nat) :=
    mkSearchSpace [] (mkArena [] [0; 0; 0] 0)
      [Some (set_backOffInstance (Some 1)
               (set_lookAheadHistory (Some h) (newInstance exampleKey None)));
       Some (set_lookAheadHistory (Some 1) (newInstance exampleKey (Some 0)))]
      [0; 1] {[exampleKey := 0]} F32.max F32.max in
  getBackOffInstance exampleLength exampleReduced exampleBackOffScore true 0 (linked 0)
    = Some (linked 0, Some 1) /\
  getBackOffInstance exampleLength exampleReduced exampleBackOffScore true 0 (linked 3)
    = Some (linked 3, Some 1) /\
  (exampleLength <$> (lookAheadHistory <$> instance_at (linked 3) 1)) = Some 1.
Proof. repeat split. Qed.

(** C5 (amended): [getBackOffInstance] returns the existing back-off link
    of the instance whenever it has one, whatever the histories, and the
    existing link, null if there is none, when the LM look-ahead is
    disabled; in both cases nothing changes.  With the look-ahead enabled
    and no existing link it returns a null pointer when the look-ahead
    history of the instance has length 0, and otherwise a new back-off
    instance, itself without a link, whose look-ahead history is exactly
    one shorter than the parent's.  Consequently, with the look-ahead
    enabled, following the links from an instance without a link whose
    history is no longer than [maxHistory] reaches an instance of history
    length 0 in at most [maxHistory] hops.  (The language model is assumed
    to reduce histories as the function verifies.) *)
Theorem getBackOffInstance_chain_terminates
    (historyLenght : History -> nat) (reducedHistory : History -> nat -> History)
    (getBackOffScores : History -> Score) (maxHistory p : nat)
    (ss : SearchSpace) (inst : Instance) :
  lm_reduces historyLenght reducedHistory ->
  instance_at ss p = Some inst ->
  historyLenght (lookAheadHistory inst) <= maxHistory ->
  (forall lmLookahead_,
     backOffInstance inst <> None \/ lmLookahead_ = false ->
     getBackOffInstance historyLenght reducedHistory getBackOffScores lmLookahead_ p ss
     = Some (ss, backOffInstance inst)) /\
  (backOffInstance inst = None ->
   (exists ss' r,
      getBackOffInstance historyLenght reducedHistory getBackOffScores true p ss
        = Some (ss', r) /\
      (historyLenght (lookAheadHistory inst) = 0 -> r = None /\ ss' = ss) /\
      (historyLenght (lookAheadHistory inst) <> 0 ->
       exists c child, r = Some c /\ instance_at ss' c = Some child /\
         historyLenght (lookAheadHistory child) + 1
           = historyLenght (lookAheadHistory inst) /\
         backOffInstance child = None)) /\
   (exists ss' hops last linst,
      backOffChain historyLenght reducedHistory getBackOffScores true maxHistory p ss
        = Some (ss', hops, last) /\
      hops <= maxHistory /\
      instance_at ss' last = Some linst /\
      historyLenght (lookAheadHistory linst) = 0)).
Proof.
  intros Hlm Hp Hmax. split.
  - intros l Hor. now apply getBackOffInstance_returns_link.
  - intros Hb. split.
    + now apply getBackOffInstance_fresh.
    + destruct (backOffChain_fresh historyLenght reducedHistory getBackOffScores Hlm
                  _ maxHistory p ss inst Hp Hb eq_refl Hmax)
        as (ss' & last & linst & Hrun & Hlast & Hz).
      exists ss', (historyLenght (lookAheadHistory inst)), last, linst. auto.
Qed.

Lemma example_lm_reduces : lm_reduces exampleLength exampleReduced.
Proof. intros h _. split; [reflexivity|discriminate]. Qed.

Lemma getBackOffInstance_chain_terminates_witness :
  (forall lmLookahead_,
     backOffInstance (set_lookAheadHistory (Some 2) (newInstance exampleKey None)) <> None
     \/ lmLookahead_ = false ->
     getBackOffInstance exampleLength exampleReduced exampleBackOffScore lmLookahead_ 0
       oneInstance
     = Some (oneInstance, None)) /\
  (exists ss' hops last linst,
     backOffChain exampleLength exampleReduced exampleBackOffScore true 3 0 oneInstance
       = Some (ss', hops, last) /\
     hops <= 3 /\
     instance_at ss' last = Some linst /\
     exampleLength (lookAheadHistory linst) = 0).
Proof.
  destruct (getBackOffInstance_chain_terminates exampleLength exampleReduced
              exampleBackOffScore 3 0 oneInstance
              (set_lookAheadHistory (Some 2) (newInstance exampleKey None)))
    as [Hlink Hfresh].
  - exact example_lm_reduces.
  - reflexivity.
  - cbn. lia.
  - split; [exact Hlink|]. destruct (Hfresh eq_refl) as [_ Hchain]. exact Hchain.
Defined.


(** ** Look-ahead application *)

Definition get_new (ss : SearchSpace) (i : StateHypothesisIndex) : option StateHypothesis :=
  newStateHypotheses (arena ss) !! i.

Definition put_new (i : StateHypothesisIndex) (h : StateHypothesis) (ss : SearchSpace)
  : SearchSpace :=
  set_arena (set_hypothesis i h (arena ss)) ss.

(** Modelled from the spec: [RecordMinimum] is defined in Pruning.hh, which
    is not part of the sources; its [prepare] "computes/caches an auxiliary
    score": it records the lowest prospect and the lowest score seen in
    [bestProspect_] and [bestScore_]. *)
Definition recordMinimum (h : StateHypothesis) (ss : SearchSpace) : SearchSpace :=
  set_best (if F32.ltb (prospect h) (bestProspect_ ss) then prospect h else bestProspect_ ss)
           (if F32.ltb (score h) (bestScore_ ss) then score h else bestScore_ ss)
           ss.

(** The settings and tables of the look-ahead that [SearchSpace] holds. *)
Record LookaheadSettings := mkLookaheadSettings {
  lmLookahead_ : bool;
  sparseLookahead_ : bool;
  earlyBackoff_ : bool;
  sparseLookaheadSlowPropagation_ : bool;
  acousticLookAheadEnabled : bool;
  unigramLookaheadBackoffFactor_ : Score;
  lookaheadLmScale : Score;
  currentLookaheadInstanceStateThreshold_ : nat;
  fullLookaheadAfterId_ : option nat;
  unigramHistory_ : History;
  unigramLookAhead_ : ContextLookahead;
  lookAheadIds_ : StateId -> nat * nat;
  lookAheadIdAndHash_ : StateId -> nat * nat
}.

Section Lookahead.

Variable historyLenght : History -> nat.
Variable reducedHistory : History -> nat -> History.
Variable getBackOffScores : History -> Score.
(** [BackingOffLm::getAccumulatedBackOffScore]. *)
Variable getAccumulatedBackOffScore : History -> nat -> Score.
(** [LanguageModelLookahead::tryToGetLookahead], and [getLookahead]
    followed by [fill]. *)
Variable tryToGetLookahead : History -> option ContextLookahead.
Variable getLookahead : History -> ContextLookahead.
(** The acoustic look-ahead functor and [getLookaheadId]. *)
Variable acousticLookAhead : nat -> StateId -> Score.
Variable getLookaheadId : StateId -> nat.
(** [Instance::backOffChainStates], declared in Instance.hh. *)
Variable backOffChainStates : SearchSpace -> nat -> nat.

Variable cfg : LookaheadSettings.

(** [SearchSpace::activateLmLookahead]. *)
Definition activateLmLookahead (p : nat) (compute : bool) (ss : SearchSpace)
  : option SearchSpace :=
  instance ← instance_at ss p;
  if has_lookahead instance then Some ss
  else if isTimeKey (key instance)
  then Some (update_instance p (set_lookahead (Some (unigramLookAhead_ cfg))) ss)
  else
    ss1 ← match backOffParent instance with
          | Some q =>
              parent ← instance_at ss q;
              Some (update_instance p
                      (set_totalBackOffOffset
                         (F32.add (totalBackOffOffset parent) (backOffScore parent))) ss)
          | None => Some ss
          end;
    if compute then
      if bool_decide (lookAheadHistory instance <> None)
         || bool_decide (key_history (key instance) <> None)
      then
        let h := if bool_decide (lookAheadHistory instance <> None)
                 then lookAheadHistory instance else key_history (key instance) in
        if bool_decide (h = unigramHistory_ cfg)
        then Some (update_instance p (set_lookahead (Some (unigramLookAhead_ cfg))) ss1)
        else Some (update_instance p (set_lookahead (Some (getLookahead h))) ss1)
      else Some ss1
    else
      if bool_decide (lookAheadHistory instance = unigramHistory_ cfg)
      then Some (update_instance p (set_lookahead (Some (unigramLookAhead_ cfg))) ss1)
      else Some (update_instance p
                   (set_lookahead
                      (tryToGetLookahead
                         (if bool_decide (lookAheadHistory instance <> None)
                          then lookAheadHistory instance
                          else key_history (key instance)))) ss1).

(** The loops of [applyLookaheadInInstanceInternal] run over the positions
    [sh, sh + n) of [newStateHypotheses]; each body rewrites the hypothesis
    at its position. *)
Fixpoint for_hypotheses (body : StateHypothesisIndex -> StateHypothesis -> SearchSpace ->
                                option SearchSpace)
    (sh n : nat) (ss : SearchSpace) : option SearchSpace :=
  match n with
  | 0 => Some ss
  | S n' => h ← get_new ss sh; ss' ← body sh h ss; for_hypotheses body (S sh) n' ss'
  end.

(** Without LM look-ahead: the acoustic look-ahead only. *)
Definition acoustic_body (i : StateHypothesisIndex) (h : StateHypothesis) (ss : SearchSpace)
  : option SearchSpace :=
  if acousticLookAheadEnabled cfg then
    let h' := set_prospect
                (F32.add (score h) (acousticLookAhead (getLookaheadId (state h)) (state h)))
                h in
    Some (recordMinimum h' (put_new i h' ss))
  else Some (recordMinimum h ss).

(** The reduced unigram look-ahead with the depth check; the loop leaves at
    the first hypothesis deep enough to activate the full look-ahead, and
    the result carries the position [sh] reached. *)
Fixpoint unigram_loop (p : nat) (useBackOffOffset : bool) (backOffOffset : Score)
    (full : nat) (sh n : nat) (ss : SearchSpace) : option (SearchSpace * nat) :=
  match n with
  | 0 => Some (ss, sh)
  | S n' =>
      h ← get_new ss sh;
      let ids := lookAheadIds_ cfg (state h) in
      if (ids.1 <=? full)
         && (negb (sparseLookaheadSlowPropagation_ cfg)
             || negb (F32.eqb (prospect h) F32.max))
      then
        instance ← instance_at ss p;
        _ ← verify (negb (isTimeKey (key instance)));
        ss' ← activateLmLookahead p true ss;
        Some (ss', sh)
      else
        let h' := set_prospect
                    (F32.add
                       (F32.add
                          (F32.add (score h)
                             (scoreForLookAheadIdNormal (unigramLookAhead_ cfg) ids.1))
                          (acousticLookAhead ids.2 (state h)))
                       (if useBackOffOffset then backOffOffset else F32.zero))
                    h in
        unigram_loop p useBackOffOffset backOffOffset full (S sh) n'
          (recordMinimum h' (put_new sh h' ss))
  end.

(** The sparse LM look-ahead (the loop after "Sparse LM lookahead"): a
    failed hash look-up sends the hypothesis to the back-off instance. *)
Definition sparse_body (p : nat) (la : ContextLookahead) (offset : Score)
    (i : StateHypothesisIndex) (h : StateHypothesis) (ss : SearchSpace)
  : option SearchSpace :=
  let ids := lookAheadIdAndHash_ cfg (state h) in
  match getScoreForLookAheadHashSparse la ids.1 with
  | None =>
      let h1 := set_prospect F32.max h in
      if earlyBackoff_ cfg
      then Some (put_new i (set_score F32.max h1) ss)
      else
        let ss1 := put_new i (set_score (F32.add (score h) offset) h1) ss in
        instance ← instance_at ss1 p;
        b ← backOffInstance instance;
        backOff ← instance_at ss1 b;
        Some (update_instance b (set_transfer (transfer backOff ++ [i])) ss1)
  | Some lmScore =>
      let h' := set_prospect
                  (F32.add (F32.add (score h) lmScore)
                     (acousticLookAhead ids.2 (state h)))
                  h in
      Some (recordMinimum h' (put_new i h' ss))
  end.

(** The standard, non-sparse LM look-ahead. *)
Definition standard_body (la : ContextLookahead) (useBackOffOffset : bool)
    (backOffOffset : Score) (i : StateHypothesisIndex) (h : StateHypothesis)
    (ss : SearchSpace) : option SearchSpace :=
  let ids := lookAheadIds_ cfg (state h) in
  let h' := set_prospect
              (F32.add
                 (F32.add
                    (F32.add (score h) (scoreForLookAheadIdNormal la ids.1))
                    (acousticLookAhead ids.2 (state h)))
                 (if useBackOffOffset then backOffOffset else F32.zero))
              h in
  Some (recordMinimum h' (put_new i h' ss)).

(** [SearchSpace::applyLookaheadInInstanceInternal]. *)
Definition applyLookaheadInInstanceInternal (sparseLookAhead useBackOffOffset : bool)
    (p : nat) (ss : SearchSpace) : option SearchSpace :=
  instance ← instance_at ss p;
  _ ← verify (states_empty instance
              || (states_end instance <=? length (newStateHypotheses (arena ss))));
  if states_empty instance then Some ss
  else
    let sh_begin := states_begin instance in
    let sh_end := states_end instance in
    if negb (lmLookahead_ cfg)
    then for_hypotheses acoustic_body sh_begin (sh_end - sh_begin) ss
    else
      ss1 ← activateLmLookahead p false ss;
      instance1 ← instance_at ss1 p;
      r ← (if negb (has_lookahead instance1) then
             let backOffOffset :=
               if useBackOffOffset
               then F32.mul
                      (F32.mul (getAccumulatedBackOffScore (lookAheadHistory instance1) 1)
                         (unigramLookaheadBackoffFactor_ cfg))
                      (lookaheadLmScale cfg)
               else F32.zero in
             let combinedTreeStateCount :=
               if sparseLookAhead then backOffChainStates ss1 p
               else states_size instance1 in
             if currentLookaheadInstanceStateThreshold_ cfg <=? combinedTreeStateCount
             then
               match fullLookaheadAfterId_ cfg with
               | Some full =>
                   r ← unigram_loop p useBackOffOffset backOffOffset full
                         sh_begin (sh_end - sh_begin) ss1;
                   Some (r.1, r.2, backOffOffset)
               | None =>
                   ss2 ← activateLmLookahead p true ss1;
                   Some (ss2, sh_begin, backOffOffset)
               end
             else Some (ss1, sh_begin, backOffOffset)
           else Some (ss1, sh_begin, F32.zero));
      let '(ss2, sh, backOffOffset0) := r in
      instance2 ← instance_at ss2 p;
      let la := default (unigramLookAhead_ cfg) (lookahead instance2) in
      let backOffOffset :=
        if has_lookahead instance2 then F32.zero else backOffOffset0 in
      if isSparse la then
        ss3 ← (if bool_decide (backOffInstance instance2 = None) && negb (sh =? sh_end)
               then
                 r ← getBackOffInstance historyLenght reducedHistory getBackOffScores
                       (lmLookahead_ cfg) p ss2;
                 _ ← verify (bool_decide (r.2 <> None));
                 Some (update_instance p (set_backOffInstance r.2) r.1)
               else Some ss2);
        instance3 ← instance_at ss3 p;
        for_hypotheses (sparse_body p la (backOffScore instance3)) sh (sh_end - sh) ss3
      else
        for_hypotheses (standard_body la useBackOffOffset backOffOffset) sh (sh_end - sh) ss2.

(** [SearchSpace::applyLookaheadInInstance] with
    [applyLookaheadInInstanceWithAcoustic]: the choice of the template
    arguments. *)
Definition applyLookaheadInInstance (p : nat) (ss : SearchSpace) : option SearchSpace :=
  applyLookaheadInInstanceInternal (sparseLookahead_ cfg)
    (negb (F32.eqb (unigramLookaheadBackoffFactor_ cfg) F32.zero)) p ss.

End Lookahead.

(** ** The sparse look-ahead loop *)

Section SparseLookahead.

Variable acousticLookAhead : nat -> StateId -> Score.
Variable cfg : LookaheadSettings.
Variable la : ContextLookahead.
Variable offset : Score.
Variable p : nat.

(** The hash look-up of the hypothesis [h] fails. *)
Definition lookup_fails (h : StateHypothesis) : bool :=
  bool_decide (getScoreForLookAheadHashSparse la (lookAheadIdAndHash_ cfg (state h)).1 = None).

(** The positions among [sh, sh + n) whose hypothesis fails the look-up. *)
Definition failing (ss : SearchSpace) (sh n : nat) : list StateHypothesisIndex :=
  filter (fun i => (lookup_fails <$> get_new ss i) = Some true) (seq sh n).

(** The hypothesis the loop leaves at the position of [h]. *)
Definition sparse_result (h : StateHypothesis) : StateHypothesis :=
  match getScoreForLookAheadHashSparse la (lookAheadIdAndHash_ cfg (state h)).1 with
  | None =>
      set_score (if earlyBackoff_ cfg then F32.max else F32.add (score h) offset)
        (set_prospect F32.max h)
  | Some lmScore =>
      set_prospect
        (F32.add (F32.add (score h) lmScore)
           (acousticLookAhead (lookAheadIdAndHash_ cfg (state h)).2 (state h))) h
  end.

Lemma get_new_put_new i h ss j :
  i < length (newStateHypotheses (arena ss)) ->
  get_new (put_new i h ss) j = if decide (j = i) then Some h else get_new ss j.
Proof.
  intros Hi. unfold get_new, put_new. cbn.
  destruct (decide (j = i)) as [->|Hne].
  - now apply list_lookup_insert_eq.
  - apply list_lookup_insert_ne. congruence.
Qed.

Lemma length_put_new i h ss :
  length (newStateHypotheses (arena (put_new i h ss))) =
  length (newStateHypotheses (arena ss)).
Proof. unfold put_new. cbn. apply length_insert. Qed.

(** One round of the sparse loop. *)
Lemma sparse_body_spec i h ss inst b bo :
  get_new ss i = Some h ->
  instance_at ss p = Some inst -> backOffInstance inst = Some b ->
  instance_at ss b = Some bo ->
  exists ss',
    sparse_body acousticLookAhead cfg p la offset i h ss = Some ss' /\
    length (newStateHypotheses (arena ss')) = length (newStateHypotheses (arena ss)) /\
    (forall j, get_new ss' j = if decide (j = i) then Some (sparse_result h) else get_new ss j) /\
    (backOffInstance <$> instance_at ss' p) = Some (Some b) /\
    (transfer <$> instance_at ss' b) =
      Some (transfer bo ++ if lookup_fails h && negb (earlyBackoff_ cfg) then [i] else []).
Proof.
  intros Hh Hp Hb Hbo.
  assert (Hi : i < length (newStateHypotheses (arena ss)))
    by (now apply lookup_lt_Some in Hh).
  unfold sparse_body, sparse_result, lookup_fails.
  destruct (getScoreForLookAheadHashSparse la (lookAheadIdAndHash_ cfg (state h)).1)
    as [lmScore|] eqn:E.
  - rewrite bool_decide_eq_false_2 by discriminate. cbn [andb].
    eexists. split; [reflexivity|]. split; [apply length_put_new|].
    split; [intros j; now apply get_new_put_new|].
    change (instance_at (recordMinimum ?x (put_new ?i ?y ss)) ?q) with (instance_at ss q).
    rewrite Hp, Hbo, app_nil_r. cbn. now rewrite Hb.
  - rewrite bool_decide_eq_true_2 by reflexivity. cbn [andb].
    destruct (earlyBackoff_ cfg); cbn [negb].
    + eexists. split; [reflexivity|]. split; [apply length_put_new|].
      split; [intros j; now apply get_new_put_new|].
      change (instance_at (put_new ?i ?y ss) ?q) with (instance_at ss q).
      rewrite Hp, Hbo, app_nil_r. cbn. now rewrite Hb.
    + change (instance_at (put_new ?i ?y ss) ?q) with (instance_at ss q).
      rewrite Hp. cbn [mbind option_bind]. rewrite Hb. cbn [mbind option_bind].
      rewrite Hbo. cbn [mbind option_bind].
      eexists. split; [reflexivity|]. split; [apply length_put_new|].
      split; [intros j; apply (get_new_put_new i _ ss j Hi)|].
      rewrite !instance_at_update.
      change (instance_at (put_new ?i ?y ss) ?q) with (instance_at ss q).
      rewrite Hp, Hbo. destruct (decide (b = b)); [|contradiction].
      destruct (decide (b = p)); cbn; now rewrite ?Hb.
Qed.

Lemma failing_cons ss sh n h :
  get_new ss sh = Some h ->
  failing ss sh (S n) = (if lookup_fails h then [sh] else []) ++ failing ss (S sh) n.
Proof.
  intros Hh. unfold failing. cbn [seq]. rewrite filter_cons.
  destruct (decide ((lookup_fails <$> get_new ss sh) = Some true)) as [Ht|Hf].
  - rewrite Hh in Ht. cbn in Ht. injection Ht as ->. reflexivity.
  - rewrite Hh in Hf. cbn in Hf. destruct (lookup_fails h); [congruence|reflexivity].
Qed.

Lemma failing_ext ss ss' sh n :
  (forall j, sh <= j -> get_new ss' j = get_new ss j) ->
  failing ss' sh n = failing ss sh n.
Proof.
  revert sh. unfold failing.
  induction n as [|n IH]; intros sh Hext; [reflexivity|].
  cbn [seq]. rewrite !filter_cons, (Hext sh) by lia.
  rewrite (IH (S sh)) by (intros j Hj; apply Hext; lia). reflexivity.
Qed.

Lemma sparse_loop_spec n : forall sh ss inst b bo,
  sh + n <= length (newStateHypotheses (arena ss)) ->
  instance_at ss p = Some inst -> backOffInstance inst = Some b ->
  instance_at ss b = Some bo ->
  exists ss',
    for_hypotheses (sparse_body acousticLookAhead cfg p la offset) sh n ss = Some ss' /\
    length (newStateHypotheses (arena ss')) = length (newStateHypotheses (arena ss)) /\
    (forall j, get_new ss' j =
       if decide (sh <= j < sh + n) then sparse_result <$> get_new ss j else get_new ss j) /\
    (transfer <$> instance_at ss' b) =
      Some (transfer bo ++ if earlyBackoff_ cfg then [] else failing ss sh n).
Proof.
  induction n as [|n IH]; intros sh ss inst b bo Hlen Hp Hb Hbo.
  - exists ss. cbn. split; [reflexivity|]. split; [reflexivity|]. split.
    + intros j. destruct (decide (sh <= j < sh + 0)); [lia|reflexivity].
    + rewrite Hbo. cbn. destruct (earlyBackoff_ cfg); now rewrite app_nil_r.
  - destruct (lookup_lt_is_Some_2 (newStateHypotheses (arena ss)) sh ltac:(lia)) as [h Hh].
    destruct (sparse_body_spec sh h ss inst b bo Hh Hp Hb Hbo)
      as (ss1 & Hrun1 & Hlen1 & Hget1 & Hp1 & Hb1).
    destruct (instance_at ss1 p) as [inst1|] eqn:Ep1; [|discriminate].
    destruct (instance_at ss1 b) as [bo1|] eqn:Eb1; [|discriminate].
    cbn in Hp1, Hb1. injection Hp1 as Hp1. injection Hb1 as Hb1.
    destruct (IH (S sh) ss1 inst1 b bo1 ltac:(lia) Ep1 Hp1 Eb1)
      as (ss' & Hrun & Hlen' & Hget & Htr).
    fold (get_new ss sh) in Hh.
    exists ss'. cbn [for_hypotheses]. rewrite Hh. cbn [mbind option_bind].
    rewrite Hrun1. cbn [mbind option_bind]. split; [exact Hrun|].
    split; [congruence|]. split.
    + intros j. rewrite Hget, Hget1.
      destruct (decide (S sh <= j < S sh + n)), (decide (j = sh)),
        (decide (sh <= j < sh + S n)); try lia; try reflexivity.
      subst j. now rewrite Hh.
    + rewrite Htr, Hb1. f_equal.
      rewrite (failing_cons ss sh n h Hh).
      rewrite (failing_ext ss ss1 (S sh) n).
      2:{ intros j Hj. rewrite Hget1. destruct (decide (j = sh)); [lia|reflexivity]. }
      destruct (earlyBackoff_ cfg), (lookup_fails h); cbn;
        rewrite ?app_nil_r, <- ?app_assoc; reflexivity.
Qed.

End SparseLookahead.

(** A sparse table that knows the hash 1 only, and the settings of a search
    space with sparse LM look-ahead. *)
Definition sparseTable : ContextLookahead :=
  mkContextLookahead true (fun _ => F32.zero)
    (fun hash => if hash =? 1 then Some (F32.of_Z 2) else None).

Definition sparseSettings (early : bool) : LookaheadSettings :=
  mkLookaheadSettings true true early false false F32.zero (F32.of_Z 1) 0 None (Some 0)
    sparseTable (fun q => (q, q)) (fun q => (q, q)).

(** The sparse loop changes transfer lists only: every instance keeps its
    back-off link and its cached back-off score. *)
Definition links_kept (ss ss' : SearchSpace) : Prop :=
  forall q inst, instance_at ss q = Some inst ->
    exists inst', instance_at ss' q = Some inst' /\
      backOffInstance inst' = backOffInstance inst /\
      backOffScore inst' = backOffScore inst.

Section SparseLinks.

Variable acousticLookAhead : nat -> StateId -> Score.
Variable cfg : LookaheadSettings.
Variable la : ContextLookahead.
Variable offset : Score.
Variable p : nat.

Lemma sparse_body_links i h ss ss' :
  sparse_body acousticLookAhead cfg p la offset i h ss = Some ss' -> links_kept ss ss'.
Proof.
  unfold sparse_body.
  destruct (getScoreForLookAheadHashSparse la (lookAheadIdAndHash_ cfg (state h)).1).
  { intros [= <-] q inst Hq. exists inst. auto. }
  destruct (earlyBackoff_ cfg).
  { intros [= <-] q inst Hq. exists inst. auto. }
  set (ss1 := put_new i _ ss).
  destruct (instance_at ss1 p) as [instance|]; [cbn [mbind option_bind]|discriminate].
  destruct (backOffInstance instance) as [b|]; [cbn [mbind option_bind]|discriminate].
  destruct (instance_at ss1 b) as [backOff|] eqn:Hb; [cbn [mbind option_bind]|discriminate].
  intros [= <-] q inst Hq. rewrite instance_at_update.
  change (instance_at ss1 q) with (instance_at ss q). rewrite Hq.
  destruct (decide (b = q)); cbn; eauto.
Qed.

Lemma sparse_loop_links n : forall sh ss ss',
  for_hypotheses (sparse_body acousticLookAhead cfg p la offset) sh n ss = Some ss' ->
  links_kept ss ss'.
Proof.
  induction n as [|n IH]; intros sh ss ss'; cbn [for_hypotheses].
  - intros [= <-] q inst Hq. eauto.
  - destruct (get_new ss sh) as [h|]; [cbn [mbind option_bind]|discriminate].
    destruct (sparse_body _ _ _ _ _ _ _ _) as [ss1|] eqn:Hbody;
      [cbn [mbind option_bind]|discriminate].
    intros Hrest q inst Hq.
    destruct (sparse_body_links _ _ _ _ Hbody q inst Hq) as (i1 & Hq1 & Hb1 & Hs1).
    destruct (IH _ _ _ Hrest q i1 Hq1) as (i2 & Hq2 & Hb2 & Hs2).
    exists i2. split; [exact Hq2|]. split; congruence.
Qed.

End SparseLinks.

(** The transfer list of the instance [b]; a pointer without an instance
    has none. *)
Definition transfer_of (ss : SearchSpace) (b : nat) : list StateHypothesisIndex :=
  default [] (transfer <$> instance_at ss b).

(** From [ss] to [ss1] nothing changes but look-ahead tables and total
    back-off offsets of instances. *)
Definition tables_only (ss ss1 : SearchSpace) : Prop :=
  arena ss1 = arena ss /\ length (instances ss1) = length (instances ss) /\
  forall q i, instance_at ss q = Some i ->
    exists i', instance_at ss1 q = Some i' /\
      states_begin i' = states_begin i /\ states_end i' = states_end i /\
      backOffInstance i' = backOffInstance i /\ backOffScore i' = backOffScore i /\
      transfer i' = transfer i /\ lookAheadHistory i' = lookAheadHistory i.

Section TablesOnly.

Lemma tables_only_refl ss : tables_only ss ss.
Proof. split; [reflexivity|]. split; [reflexivity|]. intros q i Hq. exists i. auto 10. Qed.

Lemma tables_only_trans ss1 ss2 ss3 :
  tables_only ss1 ss2 -> tables_only ss2 ss3 -> tables_only ss1 ss3.
Proof.
  intros (A1 & L1 & H1) (A2 & L2 & H2). split; [congruence|]. split; [congruence|].
  intros q i Hq. destruct (H1 _ _ Hq) as (i2 & Hq2 & ? & ? & ? & ? & ? & ?).
  destruct (H2 _ _ Hq2) as (i3 & Hq3 & ? & ? & ? & ? & ? & ?).
  exists i3. split; [assumption|]. repeat split; congruence.
Qed.

Lemma tables_only_update p f ss :
  (forall i, states_begin (f i) = states_begin i /\ states_end (f i) = states_end i /\
             backOffInstance (f i) = backOffInstance i /\
             backOffScore (f i) = backOffScore i /\ transfer (f i) = transfer i /\
             lookAheadHistory (f i) = lookAheadHistory i) ->
  tables_only ss (update_instance p f ss).
Proof.
  intros Hf. split; [reflexivity|]. split; [apply length_update_instance|].
  intros q i Hq. rewrite instance_at_update, Hq.
  destruct (decide (p = q)); cbn; eexists; split; try reflexivity; auto 10.
Qed.

Variable tryToGetLookahead : History -> option ContextLookahead.
Variable getLookahead : History -> ContextLookahead.
Variable cfg : LookaheadSettings.

Lemma activateLmLookahead_tables p compute ss ss1 :
  activateLmLookahead tryToGetLookahead getLookahead cfg p compute ss = Some ss1 ->
  tables_only ss ss1.
Proof.
  unfold activateLmLookahead.
  destruct (instance_at ss p) as [instance|]; [cbn [mbind option_bind]|discriminate].
  destruct (has_lookahead instance); [intros [= <-]; apply tables_only_refl|].
  destruct (isTimeKey (key instance)).
  { intros [= <-]. now apply tables_only_update. }
  set (first := match backOffParent instance with Some _ => _ | None => _ end).
  destruct first as [ss0|] eqn:Hfirst; [cbn [mbind option_bind]|discriminate].
  assert (H0 : tables_only ss ss0).
  { unfold first in Hfirst. destruct (backOffParent instance) as [q|].
    - destruct (instance_at ss q); [cbn in Hfirst|discriminate].
      injection Hfirst as <-. now apply tables_only_update.
    - injection Hfirst as <-. apply tables_only_refl. }
  intros Hrun. apply (tables_only_trans _ ss0); [exact H0|].
  repeat match type of Hrun with
         | (if ?c then _ else _) = Some _ => destruct c
         end;
    injection Hrun as <-; first [now apply tables_only_update | apply tables_only_refl].
Qed.

End TablesOnly.

Section SparseApplication.

Variable historyLenght : History -> nat.
Variable reducedHistory : History -> nat -> History.
Variable getBackOffScores : History -> Score.
Variable getAccumulatedBackOffScore : History -> nat -> Score.
Variable tryToGetLookahead : History -> option ContextLookahead.
Variable getLookahead : History -> ContextLookahead.
Variable acousticLookAhead : nat -> StateId -> Score.
Variable getLookaheadId : StateId -> nat.
Variable backOffChainStates : SearchSpace -> nat -> nat.
Variable cfg : LookaheadSettings.

(** The instance has a back-off instance, or [getBackOffInstance] can
    create one: its look-ahead history is not empty and the language model
    reduces histories as the verifies of [getBackOffInstance] require. *)
Definition backOff_available (ss : SearchSpace) (inst : Instance) : Prop :=
  (exists b bo, backOffInstance inst = Some b /\ instance_at ss b = Some bo) \/
  (backOffInstance inst = None /\ historyLenght (lookAheadHistory inst) <> 0 /\
   lm_reduces historyLenght reducedHistory).

(** The look-ahead table the instance [p] has once
    [activateLmLookahead(instance, false)] has run: its own table, or the
    one that call obtains without computing it. *)
Definition active_table (ss : SearchSpace) (p : nat) : option ContextLookahead :=
  ss1 ← activateLmLookahead tryToGetLookahead getLookahead cfg p false ss;
  instance ← instance_at ss1 p;
  lookahead instance.

(** The state in which [applyLookaheadInInstanceInternal] enters its sparse
    loop, for an instance with an active sparse look-ahead table. *)
Lemma sparse_loop_entry sparseLookAhead useBackOffOffset p ss inst la :
  lmLookahead_ cfg = true ->
  instance_at ss p = Some inst ->
  active_table ss p = Some la -> isSparse la = true ->
  states_begin inst < states_end inst <= length (newStateHypotheses (arena ss)) ->
  backOff_available ss inst ->
  exists ss3 inst3 b bo,
    applyLookaheadInInstanceInternal historyLenght reducedHistory getBackOffScores
      getAccumulatedBackOffScore tryToGetLookahead getLookahead acousticLookAhead
      getLookaheadId backOffChainStates cfg sparseLookAhead useBackOffOffset p ss
    = for_hypotheses (sparse_body acousticLookAhead cfg p la (backOffScore inst3))
        (states_begin inst) (states_end inst - states_begin inst) ss3 /\
    arena ss3 = arena ss /\
    instance_at ss3 p = Some inst3 /\ backOffInstance inst3 = Some b /\
    instance_at ss3 b = Some bo /\ transfer bo = transfer_of ss b.
Proof.
  intros Hlm Hp Htable Hsparse Hrange Hback.
  unfold active_table in Htable.
  destruct (activateLmLookahead tryToGetLookahead getLookahead cfg p false ss)
    as [ss1|] eqn:Hact; [cbn [mbind option_bind] in Htable|discriminate].
  destruct (activateLmLookahead_tables _ _ _ _ _ _ _ Hact) as (Har1 & Hlen1 & Hkept).
  destruct (Hkept _ _ Hp) as (inst1 & Hp1 & Hb1 & He1 & Hbo1 & Hbs1 & Htr1 & Hlh1).
  rewrite Hp1 in Htable. cbn [mbind option_bind] in Htable.
  assert (Hhas : has_lookahead inst1 = true).
  { unfold has_lookahead. rewrite Htable. apply bool_decide_eq_true_2. eauto. }
  assert (Hne : states_empty inst = false).
  { unfold states_empty. apply Nat.eqb_neq. lia. }
  unfold applyLookaheadInInstanceInternal. rewrite Hp. cbn [mbind option_bind].
  rewrite Hne. cbn [orb].
  replace (states_end inst <=? length (newStateHypotheses (arena ss))) with true
    by (symmetry; apply Nat.leb_le; lia).
  cbn [verify mbind option_bind]. rewrite Hlm. cbn [negb].
  rewrite Hact. cbn [mbind option_bind]. rewrite Hp1. cbn [mbind option_bind].
  rewrite Hhas. cbn [negb mbind option_bind]. rewrite Hp1. cbn [mbind option_bind].
  rewrite Htable. cbn [default from_option id]. rewrite Hsparse.
  replace (states_begin inst =? states_end inst) with false
    by (symmetry; apply Nat.eqb_neq; lia).
  cbn [negb]. rewrite Hbo1.
  destruct Hback as [(b & bo & Hb & Hbo)|(Hb & Hlen & Hred)].
  - rewrite Hb. rewrite bool_decide_eq_false_2 by discriminate. cbn [andb].
    cbn [mbind option_bind]. rewrite Hp1. cbn [mbind option_bind].
    destruct (Hkept _ _ Hbo) as (bo1 & Hbo1' & _ & _ & _ & _ & Htrb & _).
    exists ss1, inst1, b, bo1. repeat split; auto; [congruence|].
    unfold transfer_of. now rewrite Hbo.
  - rewrite Hb. rewrite bool_decide_eq_true_2 by reflexivity. cbn [andb].
    assert (Hb1' : backOffInstance inst1 = None) by congruence.
    assert (Hlen' : historyLenght (lookAheadHistory inst1) <> 0) by congruence.
    destruct (getBackOffInstance_creates historyLenght reducedHistory getBackOffScores
                p ss1 inst1 Hp1 Hb1' Hlen' Hred) as (ss2 & Hrun & _ & _ & Har & Hlen2 & Hat).
    rewrite Hrun. cbn [mbind option_bind fst snd].
    rewrite bool_decide_eq_true_2 by discriminate. cbn [verify mbind option_bind].
    pose proof (instance_at_lt _ _ _ Hp1) as Hlt.
    set (c := length (instances ss1)) in *.
    assert (Hp3 : instance_at (update_instance p (set_backOffInstance (Some c)) ss2) p
                  = Some (set_backOffInstance (Some c)
                            (set_backOffScore (getBackOffScores (lookAheadHistory inst1))
                               (set_backOffInstance (Some c) inst1)))).
    { rewrite instance_at_update. destruct (decide (p = p)); [|contradiction].
      rewrite Hat. destruct (decide (p = c)); [lia|].
      now destruct (decide (p = p)). }
    rewrite Hp3. cbn [mbind option_bind].
    eexists _, _, c, _. split; [reflexivity|]. split; [cbn; congruence|].
    split; [exact Hp3|]. split; [reflexivity|]. split.
    + rewrite instance_at_update. destruct (decide (p = c)); [lia|].
      rewrite Hat. now destruct (decide (c = c)).
    + unfold transfer_of.
      assert (instance_at ss c = None) as ->; [|reflexivity].
      unfold instance_at. rewrite lookup_ge_None_2; [reflexivity|]. unfold c. lia.
Qed.

End SparseApplication.


(** An instance with an active sparse table and two new hypotheses, in the
    states 1 and 2; the table knows the hash 1 only.  In [sparseLinked] the
    instance has its back-off instance, in [sparseUnlinked] it has none and
    [getBackOffInstance] creates it; in [sparseWithoutTable] the instance
    has no table yet and [activateLmLookahead] obtains it. *)
Definition sparseInstance (backOff : InstancePtr) : Instance :=
  set_lookahead (Some sparseTable)
    (set_backOffScore (F32.of_Z 4)
       (set_backOffInstance backOff
          (set_states 0 2 (set_lookAheadHistory (Some 2) (newInstance exampleKey None))))).

Definition sparseLinked : SearchSpace :=
  mkSearchSpace []
    (mkArena [mkStateHypothesis 1 7 (F32.of_Z 3) F32.zero;
              mkStateHypothesis 2 8 (F32.of_Z 5) F32.zero] [0; 0; 1] 0)
    [Some (sparseInstance (Some 1));
     Some (set_lookAheadHistory (Some 1) (newInstance exampleKey (Some 0)))]
    [0; 1] {[exampleKey := 0]} F32.max F32.max.

Definition sparseUnlinked : SearchSpace :=
  mkSearchSpace []
    (mkArena [mkStateHypothesis 1 7 (F32.of_Z 3) F32.zero;
              mkStateHypothesis 2 8 (F32.of_Z 5) F32.zero] [0; 0; 1] 0)
    [Some (sparseInstance None)] [0] {[exampleKey := 0]} F32.max F32.max.

Definition sparseWithoutTable : SearchSpace :=
  mkSearchSpace []
    (mkArena [mkStateHypothesis 1 7 (F32.of_Z 3) F32.zero;
              mkStateHypothesis 2 8 (F32.of_Z 5) F32.zero] [0; 0; 1] 0)
    [Some (set_lookahead None (sparseInstance (Some 1)));
     Some (set_lookAheadHistory (Some 1) (newInstance exampleKey (Some 0)))]
    [0; 1] {[exampleKey := 0]} F32.max F32.max.

Abbreviation exampleApplyLookahead :=
  (applyLookaheadInInstanceInternal exampleLength exampleReduced exampleBackOffScore
     (fun _ _ => F32.zero) (fun _ => None) (fun _ => sparseTable) (fun _ _ => F32.zero)
     (fun q => q) (fun _ _ => 0)).



(** ** HMM state expansion *)

(** [Am::StateTransitionModel]: the scores of the loop, forward, skip and
    exit transitions. *)
Record StateTransitionModel := mkStateTransitionModel {
  tdp_loop : Score;
  tdp_forward : Score;
  tdp_skip : Score;
  tdp_exit : Score
}.

(** The compiled network, [network_.structure] of class [HMMStateNetwork]
    (not part of the sources), by the members expansion calls:
    [state_successors q] is [state(q).successors], a successor batch id
    ([u32]); [transitionModel q] is [transitionModel(state(q).stateDesc)];
    [batchSuccessorsSimple] and [batchSuccessorsSimpleIgnoreLabels] give a
    pair of [int], with first component -1 when the successors are not one
    contiguous range; [batchSuccessors] and [successors] stand for the
    successor iterators and give the states they run through. *)
Record HMMStateNetwork := mkHMMStateNetwork {
  state_successors : StateId -> Z;
  transitionModel : StateId -> StateTransitionModel;
  acousticModel : StateId -> nat;
  batchSuccessorsSimple : bool -> Z -> Z * Z;
  batchSuccessorsSimpleIgnoreLabels : Z -> Z * Z;
  batchSuccessors : Z -> list StateId;
  successors : StateId -> list StateId;
  SingleSuccessorBatchMask : Z
}.

(** The states [first, first + 1, ...] below [second]: the loops
    [for (s = first; s < second; ++s)]. *)
Definition state_range (first second : Z) : list StateId :=
  Z.to_nat <$> seqZ first (second - first).

(** The loops [for (s = first; s != second; ++s)] of the slow expansion run
    through the same states when [first <= second]; otherwise they do not
    stop before the counter wraps around, which is not modelled. *)
Definition state_range_ne (first second : Z) : option (list StateId) :=
  if (first <=? second)%Z then Some (state_range first second) else None.

Section Expansion.

Variable net : HMMStateNetwork.
(** The table of second-order successors, two [u32] entries per state. *)
Variable secondOrderEdgeSuccessorBatches_ : list Z.

Definition transitions_to (hyp : StateHypothesis) (sc : Score) (qs : list StateId)
  : list Update :=
  (fun q => Transition hyp sc q) <$> qs.

(** The second-order expansion of one successor in [expandStateSlow]. *)
Definition slowSkipSuccessors (fast : bool) (hyp : StateHypothesis) (skipScore : Score)
    (successor : StateId) : option (list Update) :=
  if fast then
    let skipSuccessors := batchSuccessorsSimple net true (state_successors net successor) in
    if negb (skipSuccessors.1 =? -1)%Z then
      r ← state_range_ne skipSuccessors.1 skipSuccessors.2;
      Some (transitions_to hyp skipScore r)
    else Some (transitions_to hyp skipScore (successors net successor))
  else Some (transitions_to hyp skipScore (successors net successor)).

(** The body of the loops over the successors in [expandStateSlow]. *)
Fixpoint slowSuccessors (fast expandForward doSkip : bool) (hyp : StateHypothesis)
    (forwardScore skipScore : Score) (succs : list StateId) : option (list Update) :=
  match succs with
  | [] => Some []
  | successor :: rest =>
      skips ← (if doSkip then slowSkipSuccessors fast hyp skipScore successor
               else Some []);
      more ← slowSuccessors fast expandForward doSkip hyp forwardScore skipScore rest;
      Some ((if expandForward then [Transition hyp forwardScore successor] else [])
            ++ skips ++ more)
  end.

(** [SearchSpace::expandStateSlow<expandForward, expandSkip>]: the calls of
    [activateOrUpdateStateHypothesisTransition] it makes, in order (which
    calls are made does not depend on the arena). *)
Definition expandStateSlow (expandForward expandSkip : bool) (hyp : StateHypothesis)
  : option (list Update) :=
  let tdp := transitionModel net (state hyp) in
  let skipScore := F32.add (score hyp) (tdp_skip tdp) in
  let doSkip := expandSkip && F32.ltb skipScore F32.max in
  secondStart ← secondOrderEdgeSuccessorBatches_ !! (state hyp * 2);
  secondEnd ← secondOrderEdgeSuccessorBatches_ !! (state hyp * 2 + 1);
  let direct := doSkip && negb (secondStart =? 0)%Z in
  let skips := if direct
               then transitions_to hyp skipScore (state_range secondStart secondEnd)
               else [] in
  let doSkip := if direct then false else doSkip in
  let forwardScore := F32.add (score hyp) (tdp_forward tdp) in
  rest ← (if F32.ltb forwardScore F32.max then
            let successors_ :=
              batchSuccessorsSimple net true (state_successors net (state hyp)) in
            if negb (successors_.1 =? -1)%Z then
              r ← state_range_ne successors_.1 successors_.2;
              slowSuccessors true expandForward (expandSkip && doSkip) hyp
                forwardScore skipScore r
            else
              slowSuccessors false expandForward (expandSkip && doSkip) hyp
                forwardScore skipScore
                (batchSuccessors net (state_successors net (state hyp)))
          else Some []);
  Some (skips ++ rest).

(** [SearchSpace::expandState<allowSkip>]: the calls it makes, in order. *)
Definition expandState (allowSkip : bool) (hyp : StateHypothesis) : option (list Update) :=
  let successors_ := state_successors net (state hyp) in
  let tdp := transitionModel net (state hyp) in
  let loopScore := F32.add (score hyp) (tdp_loop tdp) in
  let loop := if F32.ltb loopScore F32.max then [Loop hyp loopScore] else [] in
  let forwardScore := F32.add (score hyp) (tdp_forward tdp) in
  let skip_part :=
    if allowSkip then
      secondStart ← secondOrderEdgeSuccessorBatches_ !! (state hyp * 2);
      secondEnd ← secondOrderEdgeSuccessorBatches_ !! (state hyp * 2 + 1);
      if negb (secondStart =? secondEnd)%Z then
        let skipScore := F32.add (score hyp) (tdp_skip tdp) in
        if F32.ltb skipScore F32.max
        then Some (transitions_to hyp skipScore (state_range secondStart secondEnd))
        else Some []
      else if (secondStart =? 0)%Z then expandStateSlow false true hyp
      else Some []
    else Some [] in
  if (Z.land successors_ (SingleSuccessorBatchMask net) =? SingleSuccessorBatchMask net)%Z
  then
    let forwardSuccessor :=
      Z.to_nat (Z.land successors_ (Z.lnot (SingleSuccessorBatchMask net))) in
    let forward := if F32.ltb forwardScore F32.max
                   then [Transition hyp forwardScore forwardSuccessor] else [] in
    skips ← skip_part;
    Some (loop ++ forward ++ skips)
  else
    let range := batchSuccessorsSimpleIgnoreLabels net successors_ in
    if (range.1 =? -1)%Z then
      slow ← expandStateSlow true allowSkip hyp;
      Some (loop ++ slow)
    else
      let forward := if F32.ltb forwardScore F32.max
                     then transitions_to hyp forwardScore (state_range range.1 range.2)
                     else [] in
      skips ← skip_part;
      Some (loop ++ forward ++ skips).

End Expansion.

(** *** The fast and the slow expansion *)

(** The list of successors the slow expansion runs through for the batch
    [b]: the range of [batchSuccessorsSimple<true>], or else the iterator. *)
Definition enumerated (net : HMMStateNetwork) (b : Z) (l : list StateId) : Prop :=
  if negb ((batchSuccessorsSimple net true b).1 =? -1)%Z
  then state_range_ne (batchSuccessorsSimple net true b).1 (batchSuccessorsSimple net true b).2
       = Some l
  else batchSuccessors net b = l.

(** The successor encodings of the network agree at the state [q]: a batch
    id with the single-successor mask stands for the one state under the
    mask, and a range given by [batchSuccessorsSimpleIgnoreLabels] is the
    range the slow expansion runs through. *)
Definition encodings_agree (net : HMMStateNetwork) (q : StateId) : Prop :=
  let b := state_successors net q in
  (Z.land b (SingleSuccessorBatchMask net) = SingleSuccessorBatchMask net ->
   enumerated net b [Z.to_nat (Z.land b (Z.lnot (SingleSuccessorBatchMask net)))]) /\
  (Z.land b (SingleSuccessorBatchMask net) <> SingleSuccessorBatchMask net ->
   (batchSuccessorsSimpleIgnoreLabels net b).1 <> (-1)%Z ->
   enumerated net b (state_range (batchSuccessorsSimpleIgnoreLabels net b).1
                                 (batchSuccessorsSimpleIgnoreLabels net b).2)).

(** The second-order table has two entries per state, and an entry that
    starts at 0 is the pair (0, 0), "cannot hold the successors": state 0
    is the invalid state and no successor. *)
Definition second_order_ok (table : list Z) (q : StateId) : Prop :=
  exists secondStart secondEnd : Z,
    table !! (q * 2) = Some secondStart /\ table !! (q * 2 + 1) = Some secondEnd /\
    (secondStart = 0%Z -> secondEnd = 0%Z).

(** The loop transition of [expandState]. *)
Definition loop_update (net : HMMStateNetwork) (hyp : StateHypothesis) : list Update :=
  let loopScore := F32.add (score hyp) (tdp_loop (transitionModel net (state hyp))) in
  if F32.ltb loopScore F32.max then [Loop hyp loopScore] else [].

(** The calls of [expandState] on its two batched paths, where the state
    has the successors [l]: the loop call, the forward calls to [l], and
    the skip part. *)
Definition batched_calls (net : HMMStateNetwork) (table : list Z) (allowSkip : bool)
    (hyp : StateHypothesis) (l : list StateId) : option (list Update) :=
  let tdp := transitionModel net (state hyp) in
  let forwardScore := F32.add (score hyp) (tdp_forward tdp) in
  let forward := if F32.ltb forwardScore F32.max
                 then transitions_to hyp forwardScore l else [] in
  skips ← (if allowSkip then
             secondStart ← table !! (state hyp * 2);
             secondEnd ← table !! (state hyp * 2 + 1);
             if negb (secondStart =? secondEnd)%Z then
               let skipScore := F32.add (score hyp) (tdp_skip tdp) in
               if F32.ltb skipScore F32.max
               then Some (transitions_to hyp skipScore (state_range secondStart secondEnd))
               else Some []
             else if (secondStart =? 0)%Z then expandStateSlow net table false true hyp
             else Some []
           else Some []);
  Some (loop_update net hyp ++ forward ++ skips).

Section FastAndSlow.

Variable net : HMMStateNetwork.
Variable table : list Z.

Lemma state_range_empty q : state_range q q = [].
Proof. unfold state_range. now rewrite Z.sub_diag. Qed.

(** With the skips switched off the slow loop makes the forward calls. *)
Lemma slowSuccessors_forward_only fast hyp fs sks succs :
  slowSuccessors net fast true false hyp fs sks succs = Some (transitions_to hyp fs succs).
Proof.
  induction succs as [|q succs IH]; cbn; [reflexivity|]. now rewrite IH.
Qed.

(** The slow loop with forward calls makes the calls of the slow loop
    without them, and the forward calls. *)
Lemma slowSuccessors_split fast doSkip hyp fs sks succs :
  match slowSuccessors net fast true doSkip hyp fs sks succs,
        slowSuccessors net fast false doSkip hyp fs sks succs with
  | Some l, Some l' => l ≡ₚ transitions_to hyp fs succs ++ l'
  | None, None => True
  | _, _ => False
  end.
Proof.
  induction succs as [|q succs IH]; cbn; [reflexivity|].
  destruct (if doSkip then slowSkipSuccessors net fast hyp sks q else Some [])
    as [skips|]; cbn; [|exact I].
  destruct (slowSuccessors net fast true doSkip hyp fs sks succs) as [l|],
           (slowSuccessors net fast false doSkip hyp fs sks succs) as [l'|];
    cbn; try contradiction; try exact I.
  rewrite IH. unfold transitions_to. cbn. 
  apply Permutation_skip. rewrite !(assoc app). apply Permutation_app_tail.
  apply Permutation_app_comm.
Qed.


(** The slow expansion, once the table entries and the successors it runs
    through are known. *)
Lemma expandStateSlow_enumerated ef es hyp l secondStart secondEnd :
  table !! (state hyp * 2) = Some secondStart ->
  table !! (state hyp * 2 + 1) = Some secondEnd ->
  enumerated net (state_successors net (state hyp)) l ->
  expandStateSlow net table ef es hyp =
  let tdp := transitionModel net (state hyp) in
  let skipScore := F32.add (score hyp) (tdp_skip tdp) in
  let forwardScore := F32.add (score hyp) (tdp_forward tdp) in
  let doSkip := es && F32.ltb skipScore F32.max in
  let direct := doSkip && negb (secondStart =? 0)%Z in
  rest ← (if F32.ltb forwardScore F32.max
          then slowSuccessors net
                 (negb ((batchSuccessorsSimple net true
                           (state_successors net (state hyp))).1 =? -1)%Z)
                 ef (es && (if direct then false else doSkip)) hyp forwardScore skipScore l
          else Some []);
  Some ((if direct
         then transitions_to hyp skipScore (state_range secondStart secondEnd)
         else []) ++ rest).
Proof.
  intros HS HE Hen. unfold expandStateSlow. rewrite HS, HE. cbn [mbind option_bind].
  unfold enumerated in Hen. cbv zeta.
  destruct (F32.ltb (F32.add (score hyp) (tdp_forward (transitionModel net (state hyp))))
              F32.max); [|reflexivity].
  destruct (negb ((batchSuccessorsSimple net true (state_successors net (state hyp))).1
                  =? -1)%Z).
  - rewrite Hen. reflexivity.
  - rewrite Hen. reflexivity.
Qed.

(** The fast expansion on its two batched paths, with the successors [l]
    of the state: the loop call, the forward calls and the skip part. *)
Lemma fast_matches_slow allowSkip hyp l secondStart secondEnd :
  table !! (state hyp * 2) = Some secondStart ->
  table !! (state hyp * 2 + 1) = Some secondEnd ->
  (secondStart = 0%Z -> secondEnd = 0%Z) ->
  enumerated net (state_successors net (state hyp)) l ->
  match batched_calls net table allowSkip hyp l,
        expandStateSlow net table true allowSkip hyp with
  | Some fs, Some sl => fs ≡ₚ loop_update net hyp ++ sl
  | None, None => True
  | _, _ => False
  end.
Proof.
  intros HS HE Hz Hen. unfold batched_calls. rewrite HS, HE. cbn [mbind option_bind].
  rewrite (expandStateSlow_enumerated true allowSkip hyp l _ _ HS HE Hen).
  rewrite (expandStateSlow_enumerated false true hyp l _ _ HS HE Hen).
  cbv zeta.
  set (fs := F32.add (score hyp) (tdp_forward (transitionModel net (state hyp)))).
  set (sks := F32.add (score hyp) (tdp_skip (transitionModel net (state hyp)))).
  set (fl := negb ((batchSuccessorsSimple net true (state_successors net (state hyp))).1
                   =? -1)%Z).
  destruct allowSkip; cbn [andb].
  - destruct (Z.eqb_spec secondStart secondEnd) as [Heq|Hne]; cbn [negb].
    + subst secondEnd. destruct (Z.eqb_spec secondStart 0) as [Hz0|Hnz]; cbn [negb].
      * rewrite andb_false_r. cbn [app].
        destruct (F32.ltb fs F32.max); cbn [mbind option_bind].
        -- pose proof (slowSuccessors_split fl (F32.ltb sks F32.max) hyp fs sks l) as Hsp.
           destruct (slowSuccessors net fl true (F32.ltb sks F32.max) hyp fs sks l),
                    (slowSuccessors net fl false (F32.ltb sks F32.max) hyp fs sks l);
             cbn; try contradiction; try exact I.
           now rewrite Hsp.
        -- cbn. reflexivity.
      * rewrite andb_true_r, state_range_empty.
        assert ((if F32.ltb sks F32.max then false else F32.ltb sks F32.max) = false)
          as -> by now destruct (F32.ltb sks F32.max).
        assert ((if F32.ltb sks F32.max then transitions_to hyp sks [] else [])
                = []) as -> by now destruct (F32.ltb sks F32.max).
        cbn [mbind option_bind app].
        destruct (F32.ltb fs F32.max); cbn [mbind option_bind].
        -- rewrite slowSuccessors_forward_only. cbn. now rewrite !app_nil_r.
        -- cbn. reflexivity.
    + assert (secondStart <> 0%Z) as Hnz by (intros ->; apply Hne; symmetry; now apply Hz).
      destruct (Z.eqb_spec secondStart 0) as [|_]; [contradiction|]. cbn [negb].
      rewrite andb_true_r.
      destruct (F32.ltb sks F32.max); cbn [mbind option_bind].
      * destruct (F32.ltb fs F32.max); cbn [mbind option_bind].
        -- rewrite slowSuccessors_forward_only. cbn [mbind option_bind].
           apply Permutation_app_head, Permutation_app_comm.
        -- cbn. now rewrite !app_nil_r.
      * destruct (F32.ltb fs F32.max); cbn [mbind option_bind].
        -- rewrite slowSuccessors_forward_only. cbn. now rewrite !app_nil_r.
        -- cbn. reflexivity.
  - cbn [mbind option_bind].
    destruct (F32.ltb fs F32.max); cbn [mbind option_bind].
    + rewrite slowSuccessors_forward_only. cbn. now rewrite !app_nil_r.
    + cbn. reflexivity.
Qed.

End FastAndSlow.

(** The (successor state, score) pairs of the transition calls. *)
Definition successor_updates (us : list Update) : list (StateId * Score) :=
  omap (fun u => match u with
                 | Transition _ sc q => Some (q, sc)
                 | Loop _ _ => None
                 end) us.

Lemma successor_updates_loop net hyp : successor_updates (loop_update net hyp) = [].
Proof. unfold loop_update. now destruct (F32.ltb _ _). Qed.

Lemma successor_updates_Permutation us vs :
  us ≡ₚ vs -> successor_updates us ≡ₚ successor_updates vs.
Proof.
  induction 1 as [|u us vs _ IH|u v us|us vs ws _ IH1 _ IH2]; cbn.
  - reflexivity.
  - destruct u; cbn; [assumption|now apply Permutation_skip].
  - destruct u, v; cbn; try reflexivity. apply Permutation_swap.
  - now rewrite IH1.
Qed.

(** A network of three states in a row, 1 -> 2 -> 3, with state 0 the
    invalid state; single successors are encoded under the mask 2^31, and
    a batch id without the mask has no successors. *)
Definition exampleMask : Z := 2147483648.

Definition exampleModel : StateTransitionModel :=
  mkStateTransitionModel (F32.of_Z 1) (F32.of_Z 2) (F32.of_Z 3) (F32.of_Z 4).

Definition exampleRange (b : Z) : Z * Z :=
  if (Z.land b exampleMask =? exampleMask)%Z
  then (Z.land b (Z.lnot exampleMask), Z.land b (Z.lnot exampleMask) + 1)%Z
  else (0, 0)%Z.

Definition exampleNetwork : HMMStateNetwork :=
  mkHMMStateNetwork
    (fun q => match q with
              | 1 => (exampleMask + 2)%Z
              | 2 => (exampleMask + 3)%Z
              | _ => 0%Z
              end)
    (fun _ => exampleModel) (fun q => q)
    (fun _ => exampleRange) exampleRange (fun _ => [])
    (fun q => match q with 1 => [2] | 2 => [3] | _ => [] end)
    exampleMask.

(** The second-order table of the example: from state 1 the skip reaches
    state 3; the states 2 and 3 have no second-order successors (the pair
    (-1, -1) as [u32]). *)
Definition exampleTable : list Z :=
  [0; 0; 3; 4; 4294967295; 4294967295; 4294967295; 4294967295]%Z.

Lemma exampleNetwork_agrees q : encodings_agree exampleNetwork q.
Proof.
  destruct q as [|[|[|q]]]; split; intros H; vm_compute in H;
    try discriminate; try (now destruct H); reflexivity.
Qed.

Lemma exampleTable_ok q : q < 4 -> second_order_ok exampleTable q.
Proof.
  intros Hq. destruct q as [|[|[|[|q]]]]; try lia;
    (eexists _, _; split; [reflexivity|split; [reflexivity|]]; cbn; lia).
Qed.

(** On a network whose successor encodings agree at the state of the
    hypothesis, and with a second-order table that has the entries of the
    state, the fast expansion [expandState] and the slow expansion
    [expandStateSlow<true, allowSkip>] stop together or not at all, and
    the fast one makes exactly the transition calls of the slow one, each
    as often, besides its own loop call: the (successor state, score)
    updates of the two are the same. *)
Theorem expandState_same_updates_as_slow (net : HMMStateNetwork) (table : list Z)
    (allowSkip : bool) (hyp : StateHypothesis) :
  encodings_agree net (state hyp) ->
  second_order_ok table (state hyp) ->
  match expandState net table allowSkip hyp,
        expandStateSlow net table true allowSkip hyp with
  | Some fast, Some slow =>
      fast ≡ₚ loop_update net hyp ++ slow /\
      successor_updates fast ≡ₚ successor_updates slow
  | None, None => True
  | _, _ => False
  end.
Proof.
  intros [Hsingle Hrange] (secondStart & secondEnd & HS & HE & Hz).
  assert (Hgoal : match expandState net table allowSkip hyp,
                        expandStateSlow net table true allowSkip hyp with
                  | Some fast, Some slow => fast ≡ₚ loop_update net hyp ++ slow
                  | None, None => True
                  | _, _ => False
                  end).
  { unfold expandState.
    fold (loop_update net hyp).
    destruct (Z.eqb_spec (Z.land (state_successors net (state hyp))
                            (SingleSuccessorBatchMask net))
                (SingleSuccessorBatchMask net)) as [Hm|Hm].
    - exact (fast_matches_slow net table allowSkip hyp _ _ _ HS HE Hz (Hsingle Hm)).
    - destruct (Z.eqb_spec (batchSuccessorsSimpleIgnoreLabels net
                              (state_successors net (state hyp))).1 (-1)) as [Hb|Hb].
      + destruct (expandStateSlow net table true allowSkip hyp); cbn; [reflexivity|exact I].
      + exact (fast_matches_slow net table allowSkip hyp _ _ _ HS HE Hz (Hrange Hm Hb)). }
  destruct (expandState net table allowSkip hyp) as [fast|],
           (expandStateSlow net table true allowSkip hyp) as [slow|]; try exact Hgoal.
  split; [exact Hgoal|].
  rewrite (successor_updates_Permutation _ _ Hgoal).
  unfold successor_updates. rewrite omap_app.
  fold (successor_updates (loop_update net hyp)). now rewrite successor_updates_loop.
Qed.

Lemma expandState_same_updates_as_slow_witness :
  match expandState exampleNetwork exampleTable true
          (mkStateHypothesis 1 7 F32.zero F32.zero),
        expandStateSlow exampleNetwork exampleTable true true
          (mkStateHypothesis 1 7 F32.zero F32.zero) with
  | Some fast, Some slow =>
      fast ≡ₚ loop_update exampleNetwork (mkStateHypothesis 1 7 F32.zero F32.zero) ++ slow /\
      successor_updates fast ≡ₚ successor_updates slow
  | None, None => True
  | _, _ => False
  end.
Proof.
  apply (expandState_same_updates_as_slow exampleNetwork exampleTable true
           (mkStateHypothesis 1 7 F32.zero F32.zero)).
  - apply exampleNetwork_agrees.
  - apply exampleTable_ok. cbn. lia.
Defined.

(** The calls of the two expansions in the example: the slow one skips
    first, the fast one last. *)
Example expandState_example :
  expandState exampleNetwork exampleTable true (mkStateHypothesis 1 7 F32.zero F32.zero)
  = Some [Loop (mkStateHypothesis 1 7 F32.zero F32.zero) (F32.of_Z 1);
          Transition (mkStateHypothesis 1 7 F32.zero F32.zero) (F32.of_Z 2) 2;
          Transition (mkStateHypothesis 1 7 F32.zero F32.zero) (F32.of_Z 3) 3]
  /\
  expandStateSlow exampleNetwork exampleTable true true
    (mkStateHypothesis 1 7 F32.zero F32.zero)
  = Some [Transition (mkStateHypothesis 1 7 F32.zero F32.zero) (F32.of_Z 3) 3;
          Transition (mkStateHypothesis 1 7 F32.zero F32.zero) (F32.of_Z 2) 2].
Proof. split; vm_compute; reflexivity. Qed.


(** ** One frame: expansion and pruning *)

Section Frame.

Variable net : HMMStateNetwork.
Variable secondOrderEdgeSuccessorBatches_ : list Z.
Variable allowSkips_ : bool.

Variable historyLenght : History -> nat.
Variable reducedHistory : History -> nat -> History.
Variable getBackOffScores : History -> Score.
Variable getAccumulatedBackOffScore : History -> nat -> Score.
Variable tryToGetLookahead : History -> option ContextLookahead.
Variable getLookahead : History -> ContextLookahead.
Variable acousticLookAhead : nat -> StateId -> Score.
Variable getLookaheadId : StateId -> nat.
Variable backOffChainStates : SearchSpace -> nat -> nat.
Variable cfg : LookaheadSettings.

(** The loops of [expandHmm] that call [expandState<allowSkips_>] for each
    hypothesis of a list. *)
Fixpoint expand_hypotheses (hyps : list StateHypothesis) (a : Arena) : option Arena :=
  match hyps with
  | [] => Some a
  | sh :: rest =>
      us ← expandState net secondOrderEdgeSuccessorBatches_ allowSkips_ sh;
      a' ← apply_updates us a;
      expand_hypotheses rest a'
  end.

(** The loop over [instance.transfer], which calls
    [activateOrUpdateStateHypothesisDirectly] for the hypothesis of
    [newStateHypotheses] at each position of the list. *)
Fixpoint transfer_hypotheses (ts : list StateHypothesisIndex) (a : Arena) : option Arena :=
  match ts with
  | [] => Some a
  | t :: rest =>
      h ← newStateHypotheses a !! t;
      a' ← activateOrUpdateStateHypothesisDirectly h a;
      transfer_hypotheses rest a'
  end.

Definition set_first (n : StateHypothesisIndex) (a : Arena) : Arena :=
  mkArena (newStateHypotheses a) (stateHypothesisRecombinationArray a) n.

(** The early back-off of the entry hypotheses in [expandHmm]: they move,
    with the back-off score added, into the back-off instance. *)
Definition early_backoff (p : nat) (ss : SearchSpace) : option SearchSpace :=
  instance ← instance_at ss p;
  if earlyBackoff_ cfg && negb (bool_decide (rootStateHypotheses instance = [])) then
    ss1 ← (if bool_decide (backOffInstance instance = None)
           then r ← getBackOffInstance historyLenght reducedHistory getBackOffScores
                      (lmLookahead_ cfg) p ss;
                Some r.1
           else Some ss);
    instance1 ← instance_at ss1 p;
    match backOffInstance instance1 with
    | Some b =>
        let scored :=
          (fun h => set_score (F32.add (score h) (backOffScore instance1)) h)
            <$> rootStateHypotheses instance1 in
        backOff ← instance_at ss1 b;
        Some (update_instance b (set_rootStateHypotheses scored)
                (update_instance p
                   (set_rootStateHypotheses (rootStateHypotheses backOff)) ss1))
    | None => Some ss1
    end
  else Some ss.

(** The body of the loop of [expandHmm] for the instance at position
    [treeIdx] of [activeInstances]. *)
Definition expand_instance (treeIdx : nat) (ss : SearchSpace) : option SearchSpace :=
  p ← activeInstances ss !! treeIdx;
  instance ← instance_at ss p;
  let oldStart := states_begin instance in
  let oldEnd := states_end instance in
  let begin_ := length (newStateHypotheses (arena ss)) in
  let ss1 := set_arena (set_first begin_ (arena ss))
               (update_instance p (set_states begin_ oldEnd) ss) in
  a2 ← expand_hypotheses (rootStateHypotheses instance) (arena ss1);
  ss3 ← early_backoff p (set_arena a2 ss1);
  let ss4 := update_instance p (set_rootStateHypotheses []) ss3 in
  _ ← defined ((oldStart <=? oldEnd) && (oldEnd <=? length (stateHypotheses ss4)));
  a5 ← expand_hypotheses
         (take (oldEnd - oldStart) (drop oldStart (stateHypotheses ss4))) (arena ss4);
  instance5 ← instance_at ss4 p;
  a6 ← transfer_hypotheses (transfer instance5) a5;
  let ss6 := update_instance p (set_transfer []) (set_arena a6 ss4) in
  let ss7 := update_instance p
               (set_states begin_ (length (newStateHypotheses (arena ss6)))) ss6 in
  applyLookaheadInInstance historyLenght reducedHistory getBackOffScores
    getAccumulatedBackOffScore tryToGetLookahead getLookahead acousticLookAhead
    getLookaheadId backOffChainStates cfg p ss7.

(** The loop [for (treeIdx = 0; treeIdx < activeInstances.size(); ++treeIdx)];
    instances created on the way are appended to [activeInstances] and
    reached by the same loop.  [fuel] bounds the number of rounds. *)
Fixpoint expand_loop (fuel treeIdx : nat) (ss : SearchSpace) : option SearchSpace :=
  if length (activeInstances ss) <=? treeIdx then Some ss
  else match fuel with
       | 0 => None
       | S fuel' => ss' ← expand_instance treeIdx ss; expand_loop fuel' (S treeIdx) ss'
       end.

(** [SearchSpace::expandHmm] (the final update of the look-ahead threshold
    and the performance counters are left out). *)
Definition expandHmm (fuel : nat) (ss : SearchSpace) : option SearchSpace :=
  ss' ← expand_loop fuel 0 (set_best F32.max F32.max ss);
  Some (set_arena (mkArena [] (stateHypothesisRecombinationArray (arena ss'))
                     (currentTreeFirstNewStateHypothesis (arena ss')))
          (set_stateHypotheses (newStateHypotheses (arena ss')) ss')).

End Frame.

Section Pruning.

(** [Instance::mayDeactivate], declared in Instance.hh, and
    [instanceDeletionLatency_]. *)
Variable mayDeactivate : SearchSpace -> Instance -> bool.
Variable instanceDeletionLatency_ : nat.

(** Modelled from the spec: the destructor of [Instance] is defined in
    Instance.cc, which is not part of the sources; "deletion severs back-off
    links from dependents first to avoid dangling references". *)
Definition delete_instance (p : nat) (ss : SearchSpace) : SearchSpace :=
  match instance_at ss p with
  | Some instance =>
      let ss1 := match backOffParent instance with
                 | Some q => update_instance q (set_backOffInstance None) ss
                 | None => ss
                 end in
      let ss2 := match backOffInstance instance with
                 | Some c => update_instance c (set_backOffParent None) ss1
                 | None => ss1
                 end in
      set_instances (<[p := None]> (instances ss2)) ss2
  | None => ss
  end.

(** [SearchSpace::eventuallyDeactivateTree]: the result tells whether the
    instance was deleted. *)
Definition eventuallyDeactivateTree (p : nat) (increaseInactiveCounter : bool)
    (ss : SearchSpace) : option (SearchSpace * bool) :=
  at_ ← instance_at ss p;
  if negb (mayDeactivate ss at_) then Some (ss, false)
  else if negb (states_empty at_)
  then Some (update_instance p (set_inactive 0) ss, false)
  else if inactive at_ <? instanceDeletionLatency_
  then Some (if increaseInactiveCounter
             then update_instance p (set_inactive (S (inactive at_))) ss
             else ss, false)
  else
    let ss1 := if bool_decide (activeInstanceMap ss !! key at_ = Some p)
               then set_activeInstanceMap (delete (key at_) (activeInstanceMap ss)) ss
               else ss in
    Some (delete_instance p ss1, true).

(** The predicate of the pruning policy, [pruning.prune(hyp)]. *)
Variable prune : StateHypothesis -> bool.

(** The inner loop of [pruneStates]: the hypotheses from [hypIn] up to
    [instHypEnd] that are not pruned move down to [hypOut]. *)
Fixpoint prune_range (n : nat) (hypIn hypOut : nat) (v : list StateHypothesis)
  : option (list StateHypothesis * nat) :=
  match n with
  | 0 => Some (v, hypOut)
  | S n' =>
      h ← v !! hypIn;
      if negb (prune h)
      then prune_range n' (S hypIn) (S hypOut) (<[hypOut := h]> v)
      else prune_range n' (S hypIn) hypOut v
  end.

(** The positions and counters of [pruneStates]. *)
Record PruneState := mkPruneState {
  ps_space : SearchSpace;
  ps_hypIn : nat;
  ps_hypOut : nat;
  ps_instOut : nat
}.

(** One round of the outer loop, for the position [instIn]. *)
Definition prune_instance (st : PruneState) (instIn : nat) : option PruneState :=
  let ss := ps_space st in
  p ← activeInstances ss !! instIn;
  at_ ← instance_at ss p;
  _ ← verify (ps_hypIn st =? states_begin at_);
  r ← prune_range (states_end at_ - ps_hypIn st) (ps_hypIn st) (ps_hypOut st)
        (stateHypotheses ss);
  let ss1 := update_instance p (set_states (ps_hypOut st) r.2)
               (set_stateHypotheses r.1 ss) in
  d ← eventuallyDeactivateTree p true ss1;
  let hypIn' := Nat.max (ps_hypIn st) (states_end at_) in
  if (d.2 : bool) then Some (mkPruneState d.1 hypIn' r.2 (ps_instOut st))
  else Some (mkPruneState
               (set_activeInstances (<[ps_instOut st := p]> (activeInstances d.1)) d.1)
               hypIn' r.2 (S (ps_instOut st))).

Fixpoint prune_loop (instIns : list nat) (st : PruneState) : option PruneState :=
  match instIns with
  | [] => Some st
  | instIn :: rest => st' ← prune_instance st instIn; prune_loop rest st'
  end.

(** [SearchSpace::pruneStates<Pruning>]. *)
Definition pruneStates (ss : SearchSpace) : option SearchSpace :=
  st ← prune_loop (seq 0 (length (activeInstances ss))) (mkPruneState ss 0 0 0);
  let ss' := ps_space st in
  Some (set_activeInstances (take (ps_instOut st) (activeInstances ss'))
          (set_stateHypotheses (take (ps_hypOut st) (stateHypotheses ss')) ss')).

End Pruning.

(** ** The slices of the instances tile the hypotheses *)

(** The instances [l], in order, own the consecutive slices that make up
    the positions from [from] up to [to]. *)
Fixpoint tiles (ss : SearchSpace) (l : list nat) (from to : nat) : Prop :=
  match l with
  | [] => from = to
  | p :: l' =>
      exists inst, instance_at ss p = Some inst /\ states_begin inst = from /\
        from <= states_end inst /\ tiles ss l' (states_end inst) to
  end.

(** The sum of [states.end - states.begin] over the instances [l]. *)
Definition slice_sum (ss : SearchSpace) (l : list nat) : nat :=
  sum_list_with (fun p => default 0 (states_size <$> instance_at ss p)) l.

(** The position [i] lies in the slice of the instance [p]. *)
Definition in_slice (ss : SearchSpace) (i p : nat) : Prop :=
  exists inst, instance_at ss p = Some inst /\ states_begin inst <= i < states_end inst.

(** The active instances are distinct objects. *)
Definition distinct_instances (ss : SearchSpace) : Prop :=
  NoDup (activeInstances ss) /\
  forall p, p ∈ activeInstances ss -> is_Some (instance_at ss p).

(** [ss'] has the instances of [ss], with their slices, except for the
    slice of the instance [x]; its new instances are appended to the store
    and to [activeInstances]. *)
Definition frame_but (x : option nat) (ss ss' : SearchSpace) : Prop :=
  (forall q inst, instance_at ss q = Some inst ->
     exists inst', instance_at ss' q = Some inst' /\
       (Some q <> x -> states_begin inst' = states_begin inst /\
                       states_end inst' = states_end inst)) /\
  length (instances ss) <= length (instances ss') /\
  exists added, activeInstances ss' = activeInstances ss ++ added /\ NoDup added /\
    forall p, p ∈ added -> length (instances ss) <= p /\ is_Some (instance_at ss' p).

Section Tiling.

Implicit Types (ss : SearchSpace) (l : list nat).

Lemma tiles_le ss l : forall a b, tiles ss l a b -> a <= b.
Proof.
  induction l as [|p l IH]; cbn; intros a b.
  - lia.
  - intros (inst & _ & _ & Hle & Ht). apply IH in Ht. lia.
Qed.

Lemma tiles_sum ss l : forall a b, tiles ss l a b -> slice_sum ss l = b - a.
Proof.
  induction l as [|p l IH]; cbn; intros a b.
  - intros ->. unfold slice_sum. cbn. lia.
  - intros (inst & Hp & Hb & Hle & Ht). unfold slice_sum in *. cbn.
    rewrite Hp. cbn. rewrite (IH _ _ Ht). apply tiles_le in Ht.
    unfold states_size. lia.
Qed.

Lemma tiles_app ss l1 l2 a b c :
  tiles ss l1 a b -> tiles ss l2 b c -> tiles ss (l1 ++ l2) a c.
Proof.
  revert a. induction l1 as [|p l1 IH]; cbn; intros a.
  - now intros ->.
  - intros (inst & Hp & Hb & Hle & Ht) H2. exists inst. eauto.
Qed.

(** Every position is in the slice of some instance of the tiling, and of
    one position of the list only. *)
Lemma tiles_cover ss l : forall a b i,
  tiles ss l a b -> a <= i < b ->
  exists k p, l !! k = Some p /\ in_slice ss i p /\
    forall k' p', l !! k' = Some p' -> in_slice ss i p' -> k' = k.
Proof.
  induction l as [|p l IH]; cbn; intros a b i.
  - intros ->. lia.
  - intros (inst & Hp & Hb & Hle & Ht) Hi.
    destruct (decide (i < states_end inst)) as [Hlt|Hge].
    + exists 0, p. split; [reflexivity|]. split.
      { exists inst. split; [assumption|lia]. }
      intros k' p' Hk' (inst' & Hp' & Hin). destruct k' as [|k']; [reflexivity|].
      exfalso. cbn in Hk'.
      assert (Hlater : forall l0 a0 b0 k0 p0 i0 inst0,
                 tiles ss l0 a0 b0 -> l0 !! k0 = Some p0 ->
                 instance_at ss p0 = Some inst0 ->
                 states_begin inst0 <= i0 < states_end inst0 -> a0 <= i0).
      { clear. induction l0 as [|q l0 IH0]; intros a0 b0 k0 p0 i0 inst0; cbn.
        - discriminate.
        - intros (instq & Hq & Hbq & Hleq & Htq) Hk Hp0 Hi0.
          destruct k0 as [|k0]; cbn in Hk.
          + injection Hk as <-. rewrite Hq in Hp0. injection Hp0 as <-. lia.
          + specialize (IH0 _ _ _ _ _ _ Htq Hk Hp0 Hi0). lia. }
      specialize (Hlater _ _ _ _ _ _ _ Ht Hk' Hp' Hin). lia.
    + destruct (IH _ _ i Ht ltac:(lia)) as (k & q & Hk & Hq & Huniq).
      exists (S k), q. split; [exact Hk|]. split; [exact Hq|].
      intros k' p' Hk' Hin'. destruct k' as [|k'].
      * cbn in Hk'. injection Hk' as <-. destruct Hin' as (inst' & Hp' & Hin').
        rewrite Hp in Hp'. injection Hp' as <-. lia.
      * f_equal. now apply (Huniq k' p').
Qed.

Lemma frame_but_refl x ss : frame_but x ss ss.
Proof.
  split; [|split].
  - intros q inst Hq. exists inst. auto.
  - lia.
  - exists []. rewrite app_nil_r. split; [reflexivity|]. split; [constructor|].
    intros p Hp. inversion Hp.
Qed.

Lemma frame_but_trans x ss1 ss2 ss3 :
  frame_but x ss1 ss2 -> frame_but x ss2 ss3 -> frame_but x ss1 ss3.
Proof.
  intros (Hi1 & Hl1 & add1 & Ha1 & Hn1 & Hp1) (Hi2 & Hl2 & add2 & Ha2 & Hn2 & Hp2).
  split; [|split].
  - intros q inst Hq. destruct (Hi1 _ _ Hq) as (inst1 & Hq1 & Hr1).
    destruct (Hi2 _ _ Hq1) as (inst2 & Hq2 & Hr2). exists inst2.
    split; [assumption|]. intros Hne. destruct (Hr1 Hne), (Hr2 Hne). split; congruence.
  - lia.
  - exists (add1 ++ add2). rewrite Ha2, Ha1, app_assoc. split; [reflexivity|]. split.
    + apply NoDup_app. split; [assumption|]. split; [|assumption].
      intros p Hin1 Hin2. destruct (Hp1 _ Hin1) as [_ [i1 Hs1]].
      destruct (Hp2 _ Hin2) as [Hge _].
      apply instance_at_lt in Hs1. lia.
    + intros p Hin. apply elem_of_app in Hin as [Hin|Hin].
      * destruct (Hp1 _ Hin) as [Hge [i1 Hs1]]. split; [assumption|].
        destruct (Hi2 _ _ Hs1) as (i2 & Hs2 & _). eauto.
      * destruct (Hp2 _ Hin) as [Hge Hs]. split; [lia|assumption].
Qed.

End Tiling.

Section Frames.

Implicit Types (ss : SearchSpace) (l : list nat) (x : option nat).

Lemma frame_but_weaken x ss ss' : frame_but None ss ss' -> frame_but x ss ss'.
Proof.
  intros (Hi & Hl & Ha). split; [|split]; [|assumption|assumption].
  intros q inst Hq. destruct (Hi _ _ Hq) as (inst' & Hq' & Hr). exists inst'.
  split; [assumption|]. intros _. now apply Hr.
Qed.

(** A step that leaves the instances and the list of active instances as
    they are. *)
Lemma frame_same x ss ss' :
  instances ss' = instances ss -> activeInstances ss' = activeInstances ss ->
  frame_but x ss ss'.
Proof.
  intros Hi Ha. split; [|split].
  - intros q inst Hq. exists inst. unfold instance_at in *. rewrite Hi. auto.
  - rewrite Hi. lia.
  - exists []. rewrite Ha, app_nil_r. split; [reflexivity|]. split; [constructor|].
    intros p Hp. inversion Hp.
Qed.

(** A write to the members of an instance other than its slice. *)
Lemma frame_update_instance x p f ss :
  (forall i, states_begin (f i) = states_begin i /\ states_end (f i) = states_end i) ->
  frame_but x ss (update_instance p f ss).
Proof.
  intros Hf. split; [|split].
  - intros q inst Hq. rewrite instance_at_update, Hq.
    destruct (decide (p = q)); cbn; eexists; split; try reflexivity; auto.
  - rewrite length_update_instance. lia.
  - exists []. rewrite app_nil_r. split; [reflexivity|]. split; [constructor|].
    intros q Hq. inversion Hq.
Qed.

(** A write to the slice of the instance [p]. *)
Lemma frame_update_own p f ss : frame_but (Some p) ss (update_instance p f ss).
Proof.
  split; [|split].
  - intros q inst Hq. rewrite instance_at_update, Hq.
    destruct (decide (p = q)) as [->|Hne]; cbn; eexists; split; try reflexivity.
    + intros Hn. now destruct Hn.
    + auto.
  - rewrite length_update_instance. lia.
  - exists []. rewrite app_nil_r. split; [reflexivity|]. split; [constructor|].
    intros q Hq. inversion Hq.
Qed.

Lemma frame_distinct x ss ss' :
  distinct_instances ss -> frame_but x ss ss' -> distinct_instances ss'.
Proof.
  intros [Hnd Hval] (Hi & Hl & added & Ha & Hn & Hp). split.
  - rewrite Ha. apply NoDup_app. split; [assumption|]. split; [|assumption].
    intros p Hin1 Hin2. destruct (Hval _ Hin1) as [i Hs]. apply instance_at_lt in Hs.
    destruct (Hp _ Hin2). lia.
  - intros p. rewrite Ha. intros Hin. apply elem_of_app in Hin as [Hin|Hin].
    + destruct (Hval _ Hin) as [i Hs]. destruct (Hi _ _ Hs) as (i' & Hs' & _). eauto.
    + now apply Hp.
Qed.

Lemma tiles_frame x ss ss' l : forall a b,
  frame_but x ss ss' -> (forall q, q ∈ l -> Some q <> x) ->
  tiles ss l a b -> tiles ss' l a b.
Proof.
  induction l as [|p l IH]; cbn; intros a b Hf Hx; [auto|].
  intros (inst & Hp & Hb & Hle & Ht).
  destruct Hf as (Hi & Hrest). destruct (Hi _ _ Hp) as (inst' & Hp' & Hr).
  destruct (Hr (Hx p ltac:(left))) as [Hb' He'].
  exists inst'. split; [assumption|]. split; [congruence|]. split; [lia|].
  rewrite He'. apply IH; auto.
  - split; assumption.
  - intros q Hq. apply Hx. now right.
Qed.

(** The prefix of the active instances stays as it is. *)
Lemma frame_take x ss ss' k :
  frame_but x ss ss' -> k <= length (activeInstances ss) ->
  take k (activeInstances ss') = take k (activeInstances ss).
Proof.
  intros (_ & _ & added & Ha & _) Hk. rewrite Ha. now apply take_app_le.
Qed.

Lemma frame_lookup x ss ss' k p :
  frame_but x ss ss' -> activeInstances ss !! k = Some p ->
  activeInstances ss' !! k = Some p.
Proof.
  intros (_ & _ & added & Ha & _) Hk. rewrite Ha. now apply lookup_app_l_Some.
Qed.

End Frames.

(** Splits on the condition of the first [verify] or [defined] of the goal;
    the failing case is closed. *)
Ltac case_verify :=
  match goal with
  | |- context [verify ?c] =>
      destruct c; cbn [verify mbind option_bind]; [|discriminate]
  | |- context [defined ?c] =>
      destruct c; cbn [defined mbind option_bind]; [|discriminate]
  end.

(** A frame that also keeps the number of new hypotheses: what the
    look-ahead does to the search space. *)
Definition lframe (x : option nat) (ss ss' : SearchSpace) : Prop :=
  frame_but x ss ss' /\
  length (newStateHypotheses (arena ss')) = length (newStateHypotheses (arena ss)) /\
  stateHypotheses ss' = stateHypotheses ss.

Section LookaheadFrames.

Implicit Types (ss : SearchSpace) (x : option nat).

Lemma lframe_refl x ss : lframe x ss ss.
Proof. split; [apply frame_but_refl|split; reflexivity]. Qed.

Lemma lframe_trans x ss1 ss2 ss3 : lframe x ss1 ss2 -> lframe x ss2 ss3 -> lframe x ss1 ss3.
Proof.
  intros (F1 & L1 & S1) (F2 & L2 & S2). split; [eapply frame_but_trans; eauto|].
  split; congruence.
Qed.

Lemma lframe_update_instance x p f ss ss1 :
  (forall i, states_begin (f i) = states_begin i /\ states_end (f i) = states_end i) ->
  lframe x ss ss1 -> lframe x ss (update_instance p f ss1).
Proof.
  intros Hf H1. eapply lframe_trans; [exact H1|].
  split; [now apply frame_update_instance|split; reflexivity].
Qed.

Lemma lframe_put_new x i h ss ss1 : lframe x ss ss1 -> lframe x ss (put_new i h ss1).
Proof.
  intros H1. eapply lframe_trans; [exact H1|].
  split; [now apply frame_same|]. split; [apply length_put_new|reflexivity].
Qed.

Lemma lframe_recordMinimum x h ss ss1 :
  lframe x ss ss1 -> lframe x ss (recordMinimum h ss1).
Proof.
  intros H1. eapply lframe_trans; [exact H1|].
  split; [now apply frame_same|]. split; reflexivity.
Qed.

Lemma create_backOff_lframe x p k reduced bs ss inst :
  instance_at ss p = Some inst -> lframe x ss (create_backOff p k reduced bs ss).
Proof.
  intros Hp.
  destruct (create_backOff_shape p k reduced bs ss inst Hp) as (Ha & Hs & Har & Hl & Hat).
  split; [|split; congruence]. split; [|split].
  - intros q i Hq. pose proof (instance_at_lt _ _ _ Hq) as Hlt. rewrite Hat.
    destruct (decide (q = length (instances ss))); [lia|].
    destruct (decide (q = p)) as [->|].
    + rewrite Hp in Hq. injection Hq as <-. eexists. split; [reflexivity|]. auto.
    + exists i. auto.
  - lia.
  - exists [length (instances ss)]. split; [assumption|]. split.
    + apply NoDup_singleton.
    + intros q Hq. apply list_elem_of_singleton in Hq as ->. split; [lia|].
      rewrite Hat. destruct (decide (length (instances ss) = length (instances ss)));
        [eauto|contradiction].
Qed.

Lemma getBackOffInstance_lframe hl rh bs lmla x p ss ss' r :
  getBackOffInstance hl rh bs lmla p ss = Some (ss', r) -> lframe x ss ss'.
Proof.
  unfold getBackOffInstance.
  destruct (instance_at ss p) as [inst|] eqn:Hp; [cbn [mbind option_bind]|discriminate].
  destruct (bool_decide (backOffInstance inst <> None) || negb lmla).
  { intros [= <- _]. apply lframe_refl. }
  destruct (hl (lookAheadHistory inst) =? 0).
  { intros [= <- _]. apply lframe_refl. }
  repeat case_verify.
  intros [= <- _]. now apply (create_backOff_lframe x p _ _ _ ss inst).
Qed.

Lemma for_hypotheses_lframe x body n : forall sh ss ss',
  (forall i h s s', body i h s = Some s' -> lframe x s s') ->
  for_hypotheses body sh n ss = Some ss' -> lframe x ss ss'.
Proof.
  induction n as [|n IH]; intros sh ss ss' Hbody; cbn.
  - intros [= <-]. apply lframe_refl.
  - destruct (get_new ss sh) as [h|]; [cbn|discriminate].
    destruct (body sh h ss) as [s1|] eqn:E; [cbn|discriminate].
    intros Hrest. eapply lframe_trans; [exact (Hbody _ _ _ _ E)|]. eapply IH; eauto.
Qed.

End LookaheadFrames.

(** Closes goals [lframe x ss (f1 (f2 ... ss))] whose steps write hypotheses,
    minima and instance members other than the slice. *)
Ltac lframe_steps :=
  repeat first
    [ apply lframe_refl
    | apply lframe_recordMinimum
    | apply lframe_put_new
    | apply lframe_update_instance; [intros ?; split; reflexivity|] ].

Section LookaheadFrame.

Variable historyLenght : History -> nat.
Variable reducedHistory : History -> nat -> History.
Variable getBackOffScores : History -> Score.
Variable getAccumulatedBackOffScore : History -> nat -> Score.
Variable tryToGetLookahead : History -> option ContextLookahead.
Variable getLookahead : History -> ContextLookahead.
Variable acousticLookAhead : nat -> StateId -> Score.
Variable getLookaheadId : StateId -> nat.
Variable backOffChainStates : SearchSpace -> nat -> nat.
Variable cfg : LookaheadSettings.

Lemma activateLmLookahead_lframe x p compute ss ss' :
  activateLmLookahead tryToGetLookahead getLookahead cfg p compute ss = Some ss' ->
  lframe x ss ss'.
Proof.
  unfold activateLmLookahead.
  destruct (instance_at ss p) as [inst|]; [cbn [mbind option_bind]|discriminate].
  destruct (has_lookahead inst). { intros [= <-]. apply lframe_refl. }
  destruct (isTimeKey (key inst)). { intros [= <-]. lframe_steps. }
  assert (Hss1 : forall ss1,
    match backOffParent inst with
    | Some q =>
        instance_at ss q ≫= fun parent =>
          Some (update_instance p
                  (set_totalBackOffOffset
                     (F32.add (totalBackOffOffset parent) (backOffScore parent))) ss)
    | None => Some ss
    end = Some ss1 -> lframe x ss ss1).
  { intros ss1. destruct (backOffParent inst) as [q|].
    - destruct (instance_at ss q); [cbn|discriminate]. intros [= <-]. lframe_steps.
    - intros [= <-]. apply lframe_refl. }
  destruct (match backOffParent inst with Some q => _ | None => _ end) as [ss1|];
    [cbn [mbind option_bind]|discriminate].
  specialize (Hss1 ss1 eq_refl).
  destruct compute.
  - destruct (_ || _).
    + destruct (bool_decide _); intros [= <-]; lframe_steps; assumption.
    + intros [= <-]. assumption.
  - destruct (bool_decide _); intros [= <-]; lframe_steps; assumption.
Qed.

Lemma acoustic_body_lframe x i h ss ss' :
  acoustic_body acousticLookAhead getLookaheadId cfg i h ss = Some ss' -> lframe x ss ss'.
Proof.
  unfold acoustic_body. destruct (acousticLookAheadEnabled cfg); intros [= <-]; lframe_steps.
Qed.

Lemma standard_body_lframe x la u o i h ss ss' :
  standard_body acousticLookAhead cfg la u o i h ss = Some ss' -> lframe x ss ss'.
Proof. unfold standard_body. intros [= <-]. lframe_steps. Qed.

Lemma sparse_body_lframe x p la o i h ss ss' :
  sparse_body acousticLookAhead cfg p la o i h ss = Some ss' -> lframe x ss ss'.
Proof.
  unfold sparse_body. destruct (getScoreForLookAheadHashSparse la _).
  - intros [= <-]. lframe_steps.
  - destruct (earlyBackoff_ cfg).
    + intros [= <-]. lframe_steps.
    + destruct (instance_at _ p) as [inst|]; [cbn [mbind option_bind]|discriminate].
      destruct (backOffInstance inst) as [b|]; [cbn [mbind option_bind]|discriminate].
      destruct (instance_at _ b); [cbn [mbind option_bind]|discriminate].
      intros [= <-]. lframe_steps.
Qed.

Lemma unigram_loop_lframe x p u o full n : forall sh ss ss' sh',
  unigram_loop tryToGetLookahead getLookahead acousticLookAhead cfg p u o full sh n ss
    = Some (ss', sh') ->
  lframe x ss ss'.
Proof.
  induction n as [|n IH]; intros sh ss ss' sh'; cbn.
  - intros [= <- _]. apply lframe_refl.
  - destruct (get_new ss sh) as [h|]; [cbn [mbind option_bind]|discriminate].
    destruct (_ && _).
    + destruct (instance_at ss p) as [inst|]; [cbn [mbind option_bind]|discriminate].
      case_verify.
      destruct (activateLmLookahead _ _ _ _ _ _) as [s1|] eqn:E;
        [cbn [mbind option_bind]|discriminate].
      intros [= <- _]. exact (activateLmLookahead_lframe x _ _ _ _ E).
    + intros Hrest. apply IH in Hrest. eapply lframe_trans; [|exact Hrest].
      lframe_steps.
Qed.


Lemma applyLookaheadInInstanceInternal_lframe x sparse useOffset p ss ss' :
  applyLookaheadInInstanceInternal historyLenght reducedHistory getBackOffScores
    getAccumulatedBackOffScore tryToGetLookahead getLookahead acousticLookAhead
    getLookaheadId backOffChainStates cfg sparse useOffset p ss = Some ss' ->
  lframe x ss ss'.
Proof.
  unfold applyLookaheadInInstanceInternal.
  destruct (instance_at ss p) as [inst|]; [cbn [mbind option_bind]|discriminate].
  case_verify.
  destruct (states_empty inst). { intros [= <-]. apply lframe_refl. }
  destruct (negb (lmLookahead_ cfg)).
  { apply for_hypotheses_lframe. intros i h s s'. apply acoustic_body_lframe. }
  destruct (activateLmLookahead _ _ _ _ _ _) as [ss1|] eqn:E1;
    [cbn [mbind option_bind]|discriminate].
  pose proof (activateLmLookahead_lframe x _ _ _ _ E1) as F1.
  destruct (instance_at ss1 p) as [inst1|]; [cbn [mbind option_bind]|discriminate].
  match goal with
  | |- (?r ≫= _) = _ -> _ =>
      assert (Hr : forall s2 sh off, r = Some (s2, sh, off) -> lframe x ss1 s2);
      [|destruct r as [[[ss2 sh] off0]|]; [cbn [mbind option_bind]|discriminate]]
  end.
  { intros s2 sh off. destruct (negb (has_lookahead inst1)).
    - destruct (_ <=? _).
      + destruct (fullLookaheadAfterId_ cfg) as [full|].
        * destruct (unigram_loop _ _ _ _ _ _ _ _ _ _ _) as [[s3 sh3]|] eqn:E3;
            [cbn [mbind option_bind]|discriminate].
          intros [= <- _ _]. exact (unigram_loop_lframe x _ _ _ _ _ _ _ _ _ E3).
        * destruct (activateLmLookahead tryToGetLookahead getLookahead cfg p true ss1)
            as [s3|] eqn:E3; [cbn [mbind option_bind]|discriminate].
          intros [= <- _ _]. exact (activateLmLookahead_lframe x _ _ _ _ E3).
      + intros [= <- _ _]. apply lframe_refl.
    - intros [= <- _ _]. apply lframe_refl. }
  specialize (Hr _ _ _ eq_refl).
  destruct (instance_at ss2 p) as [inst2|]; [cbn [mbind option_bind]|discriminate].
  destruct (isSparse _).
  - match goal with
    | |- (?r ≫= _) = _ -> _ =>
        assert (Hr3 : forall s3, r = Some s3 -> lframe x ss2 s3);
        [|destruct r as [ss3|]; [cbn [mbind option_bind]|discriminate]]
    end.
    { intros s3. destruct (_ && _).
      - destruct (getBackOffInstance _ _ _ _ _ _) as [[s4 r4]|] eqn:E4;
          [cbn [mbind option_bind]|discriminate].
        case_verify. intros [= <-]. apply lframe_update_instance.
        + intros ?; split; reflexivity.
        + exact (getBackOffInstance_lframe _ _ _ _ x _ _ _ _ E4).
      - intros [= <-]. apply lframe_refl. }
    specialize (Hr3 _ eq_refl).
    destruct (instance_at ss3 p) as [inst3|]; [cbn [mbind option_bind]|discriminate].
    intros Hloop. eapply lframe_trans; [exact F1|]. eapply lframe_trans; [exact Hr|].
    eapply lframe_trans; [exact Hr3|].
    eapply for_hypotheses_lframe; [|exact Hloop].
    intros i h s s'. apply sparse_body_lframe.
  - intros Hloop. eapply lframe_trans; [exact F1|]. eapply lframe_trans; [exact Hr|].
    eapply for_hypotheses_lframe; [|exact Hloop].
    intros i h s s'. apply standard_body_lframe.
Qed.

Lemma applyLookaheadInInstance_lframe x p ss ss' :
  applyLookaheadInInstance historyLenght reducedHistory getBackOffScores
    getAccumulatedBackOffScore tryToGetLookahead getLookahead acousticLookAhead
    getLookaheadId backOffChainStates cfg p ss = Some ss' ->
  lframe x ss ss'.
Proof. apply applyLookaheadInInstanceInternal_lframe. Qed.

End LookaheadFrame.

(** ** The invariant of the expansion loop *)

Lemma apply_updates_length us : forall a a',
  apply_updates us a = Some a' ->
  length (newStateHypotheses a) <= length (newStateHypotheses a').
Proof.
  induction us as [|u us IH]; intros a a'; cbn.
  - intros [= <-]. lia.
  - destruct (apply_update u a) as [a1|] eqn:E; [cbn|discriminate].
    intros Hr. apply apply_update_shape in E as (_ & _ & Hl). apply IH in Hr. lia.
Qed.

Lemma directly_length hyp a a' :
  activateOrUpdateStateHypothesisDirectly hyp a = Some a' ->
  length (newStateHypotheses a) <= length (newStateHypotheses a').
Proof.
  unfold activateOrUpdateStateHypothesisDirectly.
  destruct (stateHypothesisRecombinationArray a !! state hyp) as [r|]; [cbn|discriminate].
  destruct (present (state hyp) r a) as [sh|]; intros [= <-].
  - rewrite updateExisting_length. lia.
  - cbn. rewrite length_app. cbn. lia.
Qed.

(** The instances [activeInstances[0 .. k)] have been expanded: their slices
    tile the new hypotheses. *)
Definition expanded (ss : SearchSpace) (k : nat) : Prop :=
  distinct_instances ss /\ k <= length (activeInstances ss) /\
  tiles ss (take k (activeInstances ss)) 0 (length (newStateHypotheses (arena ss))).

Section ExpansionInvariant.

Variable net : HMMStateNetwork.
Variable secondOrderEdgeSuccessorBatches_ : list Z.
Variable allowSkips_ : bool.
Variable historyLenght : History -> nat.
Variable reducedHistory : History -> nat -> History.
Variable getBackOffScores : History -> Score.
Variable getAccumulatedBackOffScore : History -> nat -> Score.
Variable tryToGetLookahead : History -> option ContextLookahead.
Variable getLookahead : History -> ContextLookahead.
Variable acousticLookAhead : nat -> StateId -> Score.
Variable getLookaheadId : StateId -> nat.
Variable backOffChainStates : SearchSpace -> nat -> nat.
Variable cfg : LookaheadSettings.

Lemma expand_hypotheses_length hyps : forall a a',
  expand_hypotheses net secondOrderEdgeSuccessorBatches_ allowSkips_ hyps a = Some a' ->
  length (newStateHypotheses a) <= length (newStateHypotheses a').
Proof.
  induction hyps as [|sh hyps IH]; intros a a'; cbn.
  - intros [= <-]. lia.
  - destruct (expandState _ _ _ sh) as [us|]; [cbn|discriminate].
    destruct (apply_updates us a) as [a1|] eqn:E; [cbn|discriminate].
    intros Hr. apply apply_updates_length in E. apply IH in Hr. lia.
Qed.

Lemma transfer_hypotheses_length ts : forall a a',
  transfer_hypotheses ts a = Some a' ->
  length (newStateHypotheses a) <= length (newStateHypotheses a').
Proof.
  induction ts as [|t ts IH]; intros a a'; cbn.
  - intros [= <-]. lia.
  - destruct (newStateHypotheses a !! t) as [h|]; [cbn|discriminate].
    destruct (activateOrUpdateStateHypothesisDirectly h a) as [a1|] eqn:E;
      [cbn|discriminate].
    intros Hr. apply directly_length in E. apply IH in Hr. lia.
Qed.

Lemma early_backoff_lframe x p ss ss' :
  early_backoff historyLenght reducedHistory getBackOffScores cfg p ss = Some ss' ->
  lframe x ss ss'.
Proof.
  unfold early_backoff.
  destruct (instance_at ss p) as [inst|]; [cbn [mbind option_bind]|discriminate].
  destruct (_ && _); [|intros [= <-]; apply lframe_refl].
  match goal with
  | |- (?r ≫= _) = _ -> _ =>
      assert (Hr : forall s1, r = Some s1 -> lframe x ss s1);
      [|destruct r as [ss1|]; [cbn [mbind option_bind]|discriminate]]
  end.
  { intros s1. destruct (bool_decide _).
    - destruct (getBackOffInstance historyLenght reducedHistory getBackOffScores
                  (lmLookahead_ cfg) p ss) as [[s2 r2]|] eqn:E; [cbn|discriminate].
      intros [= <-]. exact (getBackOffInstance_lframe _ _ _ _ x _ _ _ _ E).
    - intros [= <-]. apply lframe_refl. }
  specialize (Hr _ eq_refl).
  destruct (instance_at ss1 p) as [inst1|]; [cbn [mbind option_bind]|discriminate].
  destruct (backOffInstance inst1) as [b|].
  - destruct (instance_at ss1 b); [cbn [mbind option_bind]|discriminate].
    intros [= <-]. lframe_steps. assumption.
  - intros [= <-]. assumption.
Qed.

(** One round of the loop of [expandHmm] extends the tiling by the slice of
    its instance. *)
Lemma expand_instance_expanded k ss ss' :
  expanded ss k ->
  expand_instance net secondOrderEdgeSuccessorBatches_ allowSkips_ historyLenght
    reducedHistory getBackOffScores getAccumulatedBackOffScore tryToGetLookahead
    getLookahead acousticLookAhead getLookaheadId backOffChainStates cfg k ss = Some ss' ->
  expanded ss' (S k).
Proof.
  intros (Hdist & Hk & Htiles). unfold expand_instance.
  destruct (activeInstances ss !! k) as [p|] eqn:Hp; [cbn [mbind option_bind]|discriminate].
  destruct (instance_at ss p) as [inst|] eqn:Hinst; [cbn [mbind option_bind]|discriminate].
  set (N0 := length (newStateHypotheses (arena ss))).
  set (ss1 := set_arena (set_first N0 (arena ss))
                (update_instance p (set_states N0 (states_end inst)) ss)).
  destruct (expand_hypotheses _ _ _ (rootStateHypotheses inst) (arena ss1)) as [a2|] eqn:E2;
    [cbn [mbind option_bind]|discriminate].
  destruct (early_backoff _ _ _ _ p (set_arena a2 ss1)) as [ss3|] eqn:E3;
    [cbn [mbind option_bind]|discriminate].
  set (ss4 := update_instance p (set_rootStateHypotheses []) ss3).
  case_verify.
  destruct (expand_hypotheses _ _ _ _ (arena ss4)) as [a5|] eqn:E5;
    [cbn [mbind option_bind]|discriminate].
  destruct (instance_at ss4 p) as [inst5|] eqn:Hinst5;
    [cbn [mbind option_bind]|discriminate].
  destruct (transfer_hypotheses (transfer inst5) a5) as [a6|] eqn:E6;
    [cbn [mbind option_bind]|discriminate].
  set (ss6 := update_instance p (set_transfer []) (set_arena a6 ss4)).
  set (N1 := length (newStateHypotheses (arena ss6))).
  set (ss7 := update_instance p (set_states N0 N1) ss6).
  intros Hla.
  pose proof (applyLookaheadInInstance_lframe _ _ _ _ _ _ _ _ _ _ None _ _ _ Hla)
    as (Fla & Lla & _).
  pose proof (early_backoff_lframe (Some p) _ _ _ E3) as (F3 & L3 & _).
  (* the frame from [ss] to [ss7], but for the slice of [p] *)
  assert (F17 : frame_but (Some p) ss ss7).
  { eapply frame_but_trans; [apply (frame_update_own p (set_states N0 (states_end inst)))|].
    eapply frame_but_trans; [apply (frame_same _ _ ss1); reflexivity|].
    eapply frame_but_trans; [apply (frame_same _ ss1 (set_arena a2 ss1)); reflexivity|].
    eapply frame_but_trans; [exact F3|].
    eapply frame_but_trans;
      [apply (frame_update_instance _ p (set_rootStateHypotheses []));
       intros ?; split; reflexivity|].
    eapply frame_but_trans; [apply (frame_same _ ss4 (set_arena a6 ss4)); reflexivity|].
    eapply frame_but_trans;
      [apply (frame_update_instance _ p (set_transfer [])); intros ?; split; reflexivity|].
    apply frame_update_own. }
  (* the number of new hypotheses only grows *)
  assert (HN : N0 <= N1).
  { apply expand_hypotheses_length in E2, E5. apply transfer_hypotheses_length in E6.
    unfold N1. cbn in *. fold N0 in E2. lia. }
  assert (Hpk : p ∉ take k (activeInstances ss)).
  { intros Hin. apply list_elem_of_lookup in Hin as (j & Hj).
    apply lookup_take_Some in Hj as [Hj Hjk].
    destruct Hdist as [Hnd _]. pose proof (NoDup_lookup _ _ _ _ Hnd Hj Hp). lia. }
  assert (Hp7 : exists i7, instance_at ss7 p = Some i7 /\
                  states_begin i7 = N0 /\ states_end i7 = N1).
  { destruct F17 as (Hi & _). unfold ss7. rewrite instance_at_update.
    destruct (decide (p = p)); [|contradiction].
    assert (is_Some (instance_at ss6 p)) as [i6 Hi6].
    { unfold ss6. rewrite instance_at_update. destruct (decide (p = p)); [|contradiction].
      change (instance_at (set_arena a6 ss4) p) with (instance_at ss4 p).
      rewrite Hinst5. cbn. eauto. }
    rewrite Hi6. cbn. eauto. }
  destruct Hp7 as (i7 & Hi7 & Hb7 & He7).
  assert (T7 : tiles ss7 (take k (activeInstances ss) ++ [p]) 0 N1).
  { apply (tiles_app _ _ _ 0 N0 N1).
    - apply (tiles_frame (Some p) ss); [assumption| |assumption].
      intros q Hq Heq. injection Heq as ->. contradiction.
    - cbn. exists i7. repeat split; auto; lia. }
  assert (Hlt : k < length (activeInstances ss)) by (now apply lookup_lt_Some in Hp).
  assert (F : frame_but (Some p) ss ss').
  { eapply frame_but_trans; [exact F17|]. now apply frame_but_weaken. }
  split; [exact (frame_distinct _ _ _ Hdist F)|].
  destruct F as (_ & _ & added & Ha & _). split.
  { rewrite Ha, length_app. lia. }
  assert (take (S k) (activeInstances ss') = take k (activeInstances ss) ++ [p]) as ->.
  { rewrite Ha, take_app_le by lia. now apply take_S_r. }
  rewrite Lla. apply (tiles_frame None ss7); [exact Fla|discriminate|].
  exact T7.
Qed.

End ExpansionInvariant.

(** ** The invariant of the pruning loop *)

(** The slices of the active instances tile the state hypotheses. *)
Definition slices_tile (ss : SearchSpace) : Prop :=
  distinct_instances ss /\
  tiles ss (activeInstances ss) 0 (length (stateHypotheses ss)).

(** The instances that satisfy [P] keep their slices from [ss] to [ss']. *)
Definition ranges_kept (P : nat -> Prop) (ss ss' : SearchSpace) : Prop :=
  forall q inst, P q -> instance_at ss q = Some inst ->
    exists inst', instance_at ss' q = Some inst' /\
      states_begin inst' = states_begin inst /\ states_end inst' = states_end inst.

(** The hypotheses the pruning policy keeps. *)
Definition retained (prune : StateHypothesis -> bool) (l : list StateHypothesis)
  : list StateHypothesis :=
  List.filter (fun h => negb (prune h)) l.

Section PruneRange.

Variable prune : StateHypothesis -> bool.

Lemma prune_range_spec n : forall hypIn hypOut v,
  hypOut <= hypIn -> hypIn + n <= length v ->
  exists v' hypOut',
    prune_range prune n hypIn hypOut v = Some (v', hypOut') /\
    length v' = length v /\
    hypOut <= hypOut' <= hypOut + n /\
    take hypOut' v' = take hypOut v ++ retained prune (take n (drop hypIn v)) /\
    drop (hypIn + n) v' = drop (hypIn + n) v.
Proof.
  induction n as [|n IH]; intros hypIn hypOut v Hle Hlen; cbn [prune_range].
  - exists v, hypOut. rewrite Nat.add_0_r. cbn. rewrite app_nil_r.
    repeat split; auto; lia.
  - destruct (lookup_lt_is_Some_2 v hypIn ltac:(lia)) as [h Hh]. rewrite Hh.
    cbn [mbind option_bind].
    assert (Hd : take (S n) (drop hypIn v) = h :: take n (drop (S hypIn) v)).
    { rewrite (drop_S v h hypIn Hh). reflexivity. }
    rewrite Hd. unfold retained. cbn [List.filter]. fold (retained prune).
    destruct (prune h) eqn:Ep; cbn [negb].
    + destruct (IH (S hypIn) hypOut v ltac:(lia) ltac:(lia))
        as (v' & o' & Hrun & Hl & Ho & Ht & Hdr).
      exists v', o'. split; [exact Hrun|]. split; [exact Hl|]. split; [lia|].
      split; [exact Ht|]. now rewrite <- Nat.add_succ_comm.
    + destruct (IH (S hypIn) (S hypOut) (<[hypOut := h]> v) ltac:(lia)
                  ltac:(rewrite length_insert; lia))
        as (v' & o' & Hrun & Hl & Ho & Ht & Hdr).
      exists v', o'. split; [exact Hrun|]. rewrite length_insert in Hl.
      split; [exact Hl|]. split; [lia|].
      split.
      * rewrite Ht. rewrite drop_insert_lt by lia.
        rewrite (take_S_r _ _ h) by (apply list_lookup_insert_eq; lia).
        rewrite take_insert_ge by lia. now rewrite <- app_assoc.
      * rewrite <- Nat.add_succ_comm, Hdr. apply drop_insert_lt. lia.
Qed.

End PruneRange.

Section Deactivation.

Variable mayDeactivate : SearchSpace -> Instance -> bool.
Variable instanceDeletionLatency_ : nat.

Implicit Types (ss : SearchSpace) (P : nat -> Prop).

Lemma ranges_kept_refl P ss : ranges_kept P ss ss.
Proof. intros q inst _ Hq. eauto. Qed.

Lemma ranges_kept_trans P ss1 ss2 ss3 :
  ranges_kept P ss1 ss2 -> ranges_kept P ss2 ss3 -> ranges_kept P ss1 ss3.
Proof.
  intros H1 H2 q inst HP Hq. destruct (H1 _ _ HP Hq) as (i2 & Hq2 & Hb2 & He2).
  destruct (H2 _ _ HP Hq2) as (i3 & Hq3 & Hb3 & He3). exists i3.
  split; [assumption|]. split; congruence.
Qed.

Lemma ranges_kept_update P p f ss :
  (forall i, states_begin (f i) = states_begin i /\ states_end (f i) = states_end i) ->
  ranges_kept P ss (update_instance p f ss).
Proof.
  intros Hf q inst _ Hq. rewrite instance_at_update, Hq.
  destruct (decide (p = q)); cbn; eexists; split; try reflexivity; auto.
Qed.

Lemma ranges_kept_update_other p f ss :
  ranges_kept (fun q => q <> p) ss (update_instance p f ss).
Proof.
  intros q inst Hne Hq. rewrite instance_at_update, Hq.
  destruct (decide (p = q)); [congruence|]. eauto.
Qed.

Lemma ranges_kept_same P ss ss' : instances ss' = instances ss -> ranges_kept P ss ss'.
Proof.
  intros Hi q inst _ Hq. exists inst. unfold instance_at in *. rewrite Hi. auto.
Qed.

Lemma tiles_kept P ss ss' l : forall a b,
  ranges_kept P ss ss' -> (forall q, q ∈ l -> P q) ->
  tiles ss l a b -> tiles ss' l a b.
Proof.
  induction l as [|p l IH]; cbn; intros a b Hk HP; [auto|].
  intros (inst & Hp & Hb & Hle & Ht).
  destruct (Hk _ _ (HP p ltac:(left)) Hp) as (inst' & Hp' & Hb' & He').
  exists inst'. split; [assumption|]. split; [congruence|]. split; [lia|].
  rewrite He'. apply IH; auto. intros q Hq. apply HP. now right.
Qed.

Lemma tiles_same ss ss' l a b :
  instances ss' = instances ss -> tiles ss l a b -> tiles ss' l a b.
Proof.
  intros Hi. apply (tiles_kept (fun _ => True)); [now apply ranges_kept_same|auto].
Qed.

Lemma tiles_valid ss l : forall a b p,
  tiles ss l a b -> p ∈ l -> is_Some (instance_at ss p).
Proof.
  induction l as [|q l IH]; cbn; intros a b p.
  - intros _ Hp. inversion Hp.
  - intros (inst & Hq & _ & _ & Ht) Hp. apply elem_of_cons in Hp as [->|Hp]; eauto.
Qed.

Lemma delete_instance_kept p ss :
  ranges_kept (fun q => q <> p) ss (delete_instance p ss).
Proof.
  unfold delete_instance. destruct (instance_at ss p) as [inst|];
    [|apply ranges_kept_refl].
  eapply ranges_kept_trans with
    (ss2 := match backOffParent inst with
            | Some q => update_instance q (set_backOffInstance None) ss
            | None => ss
            end).
  { destruct (backOffParent inst); [|apply ranges_kept_refl].
    apply ranges_kept_update. intros ?; split; reflexivity. }
  set (ss1 := match backOffParent inst with Some q => _ | None => ss end).
  eapply ranges_kept_trans with
    (ss2 := match backOffInstance inst with
            | Some c => update_instance c (set_backOffParent None) ss1
            | None => ss1
            end).
  { destruct (backOffInstance inst); [|apply ranges_kept_refl].
    apply ranges_kept_update. intros ?; split; reflexivity. }
  set (ss2 := match backOffInstance inst with Some c => _ | None => ss1 end).
  intros q i Hne Hq. exists i. split; [|auto].
  unfold instance_at in *. cbn. now rewrite list_lookup_insert_ne.
Qed.

(** [eventuallyDeactivateTree] keeps the hypotheses, the list of active
    instances and the slices of the other instances; the instance itself
    keeps its slice unless it is deleted, and it is deleted only when its
    slice is empty. *)
Lemma eventuallyDeactivateTree_spec p inc ss inst :
  instance_at ss p = Some inst ->
  exists ss' deleted,
    eventuallyDeactivateTree mayDeactivate instanceDeletionLatency_ p inc ss
      = Some (ss', deleted) /\
    stateHypotheses ss' = stateHypotheses ss /\
    activeInstances ss' = activeInstances ss /\
    ranges_kept (fun q => q <> p) ss ss' /\
    (deleted = false ->
     exists inst', instance_at ss' p = Some inst' /\
       states_begin inst' = states_begin inst /\ states_end inst' = states_end inst) /\
    (deleted = true -> states_begin inst = states_end inst).
Proof.
  intros Hp. unfold eventuallyDeactivateTree. rewrite Hp. cbn [mbind option_bind].
  destruct (negb (mayDeactivate ss inst)).
  { exists ss, false. repeat split; auto using ranges_kept_refl; try discriminate.
    intros _. eauto. }
  destruct (states_empty inst) eqn:He; cbn [negb].
  2:{ eexists _, false. split; [reflexivity|]. repeat split; try discriminate.
      - apply ranges_kept_update_other.
      - intros _. rewrite instance_at_update, Hp. destruct (decide (p = p)); [|contradiction].
        cbn. eauto. }
  destruct (inactive inst <? instanceDeletionLatency_).
  { eexists _, false. split; [reflexivity|]. destruct inc; repeat split; try discriminate;
      auto using ranges_kept_refl, ranges_kept_update_other.
    - intros _. rewrite instance_at_update, Hp. destruct (decide (p = p)); [|contradiction].
      cbn. eauto.
    - intros _. eauto. }
  eexists _, true. split; [reflexivity|].
  assert (Hk : ranges_kept (fun q => q <> p) ss
                 (if bool_decide (activeInstanceMap ss !! key inst = Some p)
                  then set_activeInstanceMap (delete (key inst) (activeInstanceMap ss)) ss
                  else ss)).
  { destruct (bool_decide _); [now apply ranges_kept_same|apply ranges_kept_refl]. }
  split.
  { unfold delete_instance. destruct (bool_decide _);
      destruct (instance_at _ p);
      try destruct (backOffParent _); try destruct (backOffInstance _); reflexivity. }
  split.
  { unfold delete_instance. destruct (bool_decide _);
      destruct (instance_at _ p);
      try destruct (backOffParent _); try destruct (backOffInstance _); reflexivity. }
  split.
  { eapply ranges_kept_trans; [exact Hk|]. apply delete_instance_kept. }
  split; [discriminate|]. intros _. unfold states_empty in He.
  now apply Nat.eqb_eq in He.
Qed.

End Deactivation.

(** The state of [pruneStates] before the round for position [k]: [A0] and
    [v0] are the active instances and the hypotheses at the start. *)
Definition prune_inv (prune : StateHypothesis -> bool) (A0 : list nat)
    (v0 : list StateHypothesis) (k : nat) (st : PruneState) : Prop :=
  let ss := ps_space st in
  NoDup A0 /\
  length (activeInstances ss) = length A0 /\
  drop k (activeInstances ss) = drop k A0 /\
  ps_instOut st <= k /\
  (forall q, q ∈ take (ps_instOut st) (activeInstances ss) -> q ∈ take k A0) /\
  NoDup (take (ps_instOut st) (activeInstances ss)) /\
  ps_hypOut st <= ps_hypIn st /\
  length (stateHypotheses ss) = length v0 /\
  tiles ss (drop k A0) (ps_hypIn st) (length v0) /\
  tiles ss (take (ps_instOut st) (activeInstances ss)) 0 (ps_hypOut st) /\
  take (ps_hypOut st) (stateHypotheses ss) = retained prune (take (ps_hypIn st) v0) /\
  drop (ps_hypIn st) (stateHypotheses ss) = drop (ps_hypIn st) v0.

Section PruneInvariant.

Variable mayDeactivate : SearchSpace -> Instance -> bool.
Variable instanceDeletionLatency_ : nat.
Variable prune : StateHypothesis -> bool.

Lemma retained_app l1 l2 : retained prune (l1 ++ l2) = retained prune l1 ++ retained prune l2.
Proof. unfold retained. apply List.filter_app. Qed.

Lemma drop_succ {A : Type} (l : list A) k : drop (S k) l = drop 1 (drop k l).
Proof. rewrite drop_drop. f_equal. lia. Qed.

Lemma NoDup_take_drop_disjoint (A : list nat) k p q :
  NoDup A -> A !! k = Some p -> q ∈ take k A -> q <> p.
Proof.
  intros Hnd Hk Hq ->. apply list_elem_of_lookup in Hq as (j & Hj).
  apply lookup_take_Some in Hj as [Hj Hjk].
  pose proof (NoDup_lookup _ _ _ _ Hnd Hj Hk). lia.
Qed.

Lemma NoDup_drop_S_ne (A : list nat) k p q :
  NoDup A -> A !! k = Some p -> q ∈ drop (S k) A -> q <> p.
Proof.
  intros Hnd Hk Hq ->. apply list_elem_of_lookup in Hq as (j & Hj).
  rewrite lookup_drop in Hj.
  pose proof (NoDup_lookup _ _ _ _ Hnd Hj Hk). lia.
Qed.

Lemma prune_instance_inv A0 v0 k st :
  prune_inv prune A0 v0 k st -> k < length A0 ->
  exists st',
    prune_instance mayDeactivate instanceDeletionLatency_ prune st k = Some st' /\
    prune_inv prune A0 v0 (S k) st'.
Proof.
  destruct st as [ss hypIn hypOut instOut]. unfold prune_inv. cbn [ps_space ps_hypIn
    ps_hypOut ps_instOut].
  intros (HndA & HlenA & Hdrop & Hio & Hsub & Hndk & Hoi & Hlenv & Ht0 & Ht1 & Htake & Hdropv)
    Hk.
  destruct (lookup_lt_is_Some_2 A0 k Hk) as [p Hp0].
  assert (Hp : activeInstances ss !! k = Some p).
  { rewrite <- (Nat.add_0_r k), <- lookup_drop, Hdrop, lookup_drop, Nat.add_0_r.
    exact Hp0. }
  rewrite (drop_S A0 p k Hp0) in Ht0. cbn [tiles] in Ht0.
  destruct Ht0 as (inst & Hinst & Hb & Hle & Ht0).
  pose proof (tiles_le _ _ _ _ Ht0) as HeN.
  unfold prune_instance. cbn [ps_space ps_hypIn ps_hypOut ps_instOut].
  rewrite Hp. cbn [mbind option_bind]. rewrite Hinst. cbn [mbind option_bind].
  rewrite Hb, Nat.eqb_refl. subst hypIn. cbn [verify mbind option_bind].
  destruct (prune_range_spec prune (states_end inst - states_begin inst)
              (states_begin inst) hypOut (stateHypotheses ss) Hoi ltac:(lia))
    as (v' & hypOut' & Hrun & Hlv' & Ho' & Htk' & Hdr').
  rewrite Hrun. cbn [mbind option_bind fst snd].
  set (ss1 := update_instance p (set_states hypOut hypOut') (set_stateHypotheses v' ss)).
  assert (Hp1 : instance_at ss1 p = Some (set_states hypOut hypOut' inst)).
  { unfold ss1. rewrite instance_at_update. destruct (decide (p = p)); [|contradiction].
    change (instance_at (set_stateHypotheses v' ss) p) with (instance_at ss p).
    now rewrite Hinst. }
  destruct (eventuallyDeactivateTree_spec mayDeactivate instanceDeletionLatency_
              p true ss1 _ Hp1)
    as (ssd & deleted & Hev & Hsd & Had & Hkd & Hkeep & Hdel).
  rewrite Hev. cbn [mbind option_bind fst snd].
  assert (Hk1 : ranges_kept (fun q => q <> p) ss ssd).
  { eapply ranges_kept_trans; [|exact Hkd].
    eapply ranges_kept_trans;
      [apply (ranges_kept_same _ ss (set_stateHypotheses v' ss)); reflexivity|].
    apply ranges_kept_update_other. }
  assert (Hmax : Nat.max (states_begin inst) (states_end inst) = states_end inst) by lia.
  rewrite Hmax.
  assert (Hv1 : stateHypotheses ssd = v') by (rewrite Hsd; reflexivity).
  assert (Ha1 : activeInstances ssd = activeInstances ss) by (rewrite Had; reflexivity).
  assert (Hsum : states_begin inst + (states_end inst - states_begin inst)
                 = states_end inst) by lia.
  rewrite Hsum in Hdr'.
  (* the hypotheses kept so far *)
  assert (Htake' : take hypOut' v' = retained prune (take (states_end inst) v0)).
  { rewrite Htk', Htake, Hdropv.
    replace (take (states_end inst) v0)
      with (take (states_begin inst) v0 ++
            take (states_end inst - states_begin inst) (drop (states_begin inst) v0))
      by (rewrite take_take_drop; f_equal; lia).
    now rewrite retained_app. }
  assert (Hdropv' : drop (states_end inst) v' = drop (states_end inst) v0).
  { rewrite Hdr'.
    replace (states_end inst)
      with (states_begin inst + (states_end inst - states_begin inst)) by lia.
    now rewrite <- !drop_drop, Hdropv. }
  assert (Ht0' : tiles ssd (drop (S k) A0) (states_end inst) (length v0)).
  { apply (tiles_kept (fun q => q <> p) ss); [assumption| |assumption].
    intros q Hq. exact (NoDup_drop_S_ne A0 k p q HndA Hp0 Hq). }
  assert (Hkept_ne : forall q, q ∈ take instOut (activeInstances ss) -> q <> p).
  { intros q Hq. exact (NoDup_take_drop_disjoint A0 k p q HndA Hp0 (Hsub q Hq)). }
  assert (Ht1' : tiles ssd (take instOut (activeInstances ss)) 0 hypOut).
  { apply (tiles_kept (fun q => q <> p) ss); assumption. }
  destruct deleted.
  - (* the instance is deleted: its slice is empty *)
    specialize (Hdel eq_refl). cbn in Hdel. subst hypOut'.
    eexists. split; [reflexivity|]. cbn [ps_space ps_hypIn ps_hypOut ps_instOut].
    rewrite Ha1, Hv1.
    split; [assumption|]. split; [assumption|].
    split. { now rewrite !(drop_succ _ k), Hdrop. }
    split; [lia|].
    split. { intros q Hq. apply Hsub in Hq. apply list_elem_of_lookup in Hq as (j & Hj).
             apply lookup_take_Some in Hj as [Hj Hjk]. apply list_elem_of_lookup.
             exists j. apply lookup_take_Some. split; [assumption|lia]. }
    split; [assumption|]. split; [lia|]. split; [lia|].
    split; [assumption|]. split; [assumption|]. split; assumption.
  - destruct (Hkeep eq_refl) as (instd & Hpd & Hbd & Hed). cbn in Hbd, Hed.
    assert (HioA : instOut < length (activeInstances ss)) by lia.
    eexists. split; [reflexivity|]. cbn [ps_space ps_hypIn ps_hypOut ps_instOut].
    cbn [activeInstances set_activeInstances stateHypotheses].
    rewrite Ha1, Hv1.
    assert (Htk1 : take (S instOut) (<[instOut := p]> (activeInstances ss))
                   = take instOut (activeInstances ss) ++ [p]).
    { rewrite (take_S_r _ _ p) by (apply list_lookup_insert_eq; lia).
      now rewrite take_insert_ge by lia. }
    split; [assumption|]. split; [now rewrite length_insert|].
    split. { rewrite drop_insert_lt by lia. now rewrite !(drop_succ _ k), Hdrop. }
    split; [lia|].
    split. { intros q. rewrite Htk1. intros Hq. apply elem_of_app in Hq as [Hq|Hq].
             - apply Hsub in Hq. apply list_elem_of_lookup in Hq as (j & Hj).
               apply lookup_take_Some in Hj as [Hj Hjk]. apply list_elem_of_lookup.
               exists j. apply lookup_take_Some. split; [assumption|lia].
             - apply list_elem_of_singleton in Hq as ->. apply list_elem_of_lookup.
               exists k. apply lookup_take_Some. split; [assumption|lia]. }
    split. { rewrite Htk1. apply NoDup_app. split; [assumption|].
             split; [|apply NoDup_singleton].
             intros q Hq Hq'. apply list_elem_of_singleton in Hq' as ->.
             now apply (Hkept_ne p). }
    split; [lia|]. split; [lia|].
    split; [apply (tiles_same ssd); [reflexivity|exact Ht0']|].
    split. { rewrite Htk1. apply (tiles_same ssd); [reflexivity|].
             apply (tiles_app _ _ _ 0 hypOut hypOut'); [exact Ht1'|].
             cbn. exists instd. repeat split; auto; lia. }
    split; assumption.
Qed.

End PruneInvariant.

(** [SearchSpace::nStateHypotheses]. *)
Definition nStateHypotheses (ss : SearchSpace) : nat := length (stateHypotheses ss).

(** No orphaned hypotheses: the number of state hypotheses is the sum of the
    sizes of the slices of the active instances, and every position of a
    state hypothesis lies in the slice of one position of [activeInstances]
    and of no other. *)
Definition hypotheses_owned (ss : SearchSpace) : Prop :=
  nStateHypotheses ss = slice_sum ss (activeInstances ss) /\
  forall i, i < nStateHypotheses ss ->
    exists k p, activeInstances ss !! k = Some p /\ in_slice ss i p /\
      forall k' p', activeInstances ss !! k' = Some p' -> in_slice ss i p' -> k' = k.

Lemma slices_tile_owned ss : slices_tile ss -> hypotheses_owned ss.
Proof.
  intros [_ Ht]. split.
  - rewrite (tiles_sum _ _ _ _ Ht). unfold nStateHypotheses. lia.
  - intros i Hi. apply (tiles_cover _ _ _ _ i Ht). unfold nStateHypotheses in Hi. lia.
Qed.

Section FrameInvariant.

Variable net : HMMStateNetwork.
Variable secondOrderEdgeSuccessorBatches_ : list Z.
Variable allowSkips_ : bool.
Variable historyLenght : History -> nat.
Variable reducedHistory : History -> nat -> History.
Variable getBackOffScores : History -> Score.
Variable getAccumulatedBackOffScore : History -> nat -> Score.
Variable tryToGetLookahead : History -> option ContextLookahead.
Variable getLookahead : History -> ContextLookahead.
Variable acousticLookAhead : nat -> StateId -> Score.
Variable getLookaheadId : StateId -> nat.
Variable backOffChainStates : SearchSpace -> nat -> nat.
Variable cfg : LookaheadSettings.
Variable mayDeactivate : SearchSpace -> Instance -> bool.
Variable instanceDeletionLatency_ : nat.

Lemma expand_loop_expanded fuel : forall k ss ss',
  expanded ss k ->
  expand_loop net secondOrderEdgeSuccessorBatches_ allowSkips_ historyLenght
    reducedHistory getBackOffScores getAccumulatedBackOffScore tryToGetLookahead
    getLookahead acousticLookAhead getLookaheadId backOffChainStates cfg fuel k ss
    = Some ss' ->
  expanded ss' (length (activeInstances ss')).
Proof.
  induction fuel as [|fuel IH]; intros k ss ss' Hex; cbn [expand_loop];
    destruct (Nat.leb_spec (length (activeInstances ss)) k) as [Hge|Hlt].
  - intros [= <-]. destruct Hex as (? & ? & ?).
    now replace (length (activeInstances ss)) with k by lia.
  - discriminate.
  - intros [= <-]. destruct Hex as (? & ? & ?).
    now replace (length (activeInstances ss)) with k by lia.
  - destruct (expand_instance _ _ _ _ _ _ _ _ _ _ _ _ _ k ss) as [ss1|] eqn:E;
      [cbn [mbind option_bind]|discriminate].
    intros Hrest. eapply IH; [|exact Hrest].
    eapply expand_instance_expanded; eauto.
Qed.

Lemma expandHmm_tiles fuel ss ss' :
  distinct_instances ss -> newStateHypotheses (arena ss) = [] ->
  expandHmm net secondOrderEdgeSuccessorBatches_ allowSkips_ historyLenght
    reducedHistory getBackOffScores getAccumulatedBackOffScore tryToGetLookahead
    getLookahead acousticLookAhead getLookaheadId backOffChainStates cfg fuel ss
    = Some ss' ->
  slices_tile ss'.
Proof.
  intros Hd Hnew. unfold expandHmm.
  destruct (expand_loop _ _ _ _ _ _ _ _ _ _ _ _ _ fuel 0 _) as [ss1|] eqn:E;
    [cbn [mbind option_bind]|discriminate].
  intros [= <-].
  apply expand_loop_expanded in E.
  - destruct E as (Hd1 & _ & Ht). rewrite firstn_all in Ht. split; [exact Hd1|].
    apply (tiles_same ss1); [reflexivity|exact Ht].
  - split; [exact Hd|]. split; [lia|]. cbn. now rewrite Hnew.
Qed.

Variable prune : StateHypothesis -> bool.

Lemma prune_loop_inv A0 v0 n : forall k st,
  prune_inv prune A0 v0 k st -> k + n = length A0 ->
  exists st',
    prune_loop mayDeactivate instanceDeletionLatency_ prune (seq k n) st = Some st' /\
    prune_inv prune A0 v0 (k + n) st'.
Proof.
  induction n as [|n IH]; intros k st Hinv Hlen; cbn [seq prune_loop].
  - exists st. rewrite Nat.add_0_r. auto.
  - destruct (prune_instance_inv mayDeactivate instanceDeletionLatency_ prune
                A0 v0 k st Hinv ltac:(lia)) as (st1 & Hrun & Hinv1).
    rewrite Hrun. cbn [mbind option_bind].
    destruct (IH (S k) st1 Hinv1 ltac:(lia)) as (st' & Hrun' & Hinv').
    exists st'. split; [exact Hrun'|]. now rewrite <- Nat.add_succ_comm.
Qed.

(** [pruneStates] returns, keeps the hypotheses its policy does not prune,
    in order, and leaves slices that tile them. *)
Lemma pruneStates_tiles ss :
  slices_tile ss ->
  exists ss',
    pruneStates mayDeactivate instanceDeletionLatency_ prune ss = Some ss' /\
    slices_tile ss' /\
    stateHypotheses ss' = retained prune (stateHypotheses ss).
Proof.
  intros [[Hnd Hval] Ht]. unfold pruneStates.
  destruct (prune_loop_inv (activeInstances ss) (stateHypotheses ss)
              (length (activeInstances ss)) 0 (mkPruneState ss 0 0 0))
    as ([ss1 hypIn hypOut instOut] & Hrun & Hinv).
  { unfold prune_inv. cbn. rewrite ?take_0, ?drop_0. repeat split; auto; try lia.
    constructor. }
  { reflexivity. }
  rewrite Hrun. cbn [mbind option_bind ps_space ps_hypOut ps_instOut].
  eexists. split; [reflexivity|].
  unfold prune_inv in Hinv. cbn [ps_space ps_hypIn ps_hypOut ps_instOut plus] in Hinv.
  destruct Hinv as (_ & HlenA & _ & Hio & Hsub & Hndk & Hoi & Hlenv & Ht0 & Ht1 & Htake & _).
  rewrite drop_all in Ht0. cbn in Ht0. subst hypIn.
  rewrite firstn_all in Htake.
  split; [|exact Htake].
  split; [split|].
  - exact Hndk.
  - intros p Hp. cbn in Hp.
    destruct (tiles_valid _ _ _ _ p Ht1 Hp) as [i Hi]. exists i. exact Hi.
  - cbn [activeInstances set_activeInstances stateHypotheses set_stateHypotheses].
    rewrite length_take, Hlenv, Nat.min_l by lia.
    apply (tiles_same ss1); [reflexivity|exact Ht1].
Qed.

End FrameInvariant.

(** ** The slices after a frame's expansion and after a pruning pass *)

Section FrameOwnership.

Variable net : HMMStateNetwork.
Variable secondOrderEdgeSuccessorBatches_ : list Z.
Variable allowSkips_ : bool.
Variable historyLenght : History -> nat.
Variable reducedHistory : History -> nat -> History.
Variable getBackOffScores : History -> Score.
Variable getAccumulatedBackOffScore : History -> nat -> Score.
Variable tryToGetLookahead : History -> option ContextLookahead.
Variable getLookahead : History -> ContextLookahead.
Variable acousticLookAhead : nat -> StateId -> Score.
Variable getLookaheadId : StateId -> nat.
Variable backOffChainStates : SearchSpace -> nat -> nat.
Variable cfg : LookaheadSettings.
Variable mayDeactivate : SearchSpace -> Instance -> bool.
Variable instanceDeletionLatency_ : nat.

(** When [expandHmm], started with an empty [newStateHypotheses] on
    pairwise different live instances, comes to its end, the slices
    [states.begin, states.end) of the active instances, in the order of
    [activeInstances], lie one after the other from 0 to
    [nStateHypotheses()]: their sizes sum to [nStateHypotheses()] and every
    position of a state hypothesis lies in the slice of exactly one
    position of [activeInstances]; [newStateHypotheses] is empty again. *)
Theorem expandHmm_slices_cover (fuel : nat) (ss ss' : SearchSpace) :
  distinct_instances ss -> newStateHypotheses (arena ss) = [] ->
  expandHmm net secondOrderEdgeSuccessorBatches_ allowSkips_ historyLenght
    reducedHistory getBackOffScores getAccumulatedBackOffScore tryToGetLookahead
    getLookahead acousticLookAhead getLookaheadId backOffChainStates cfg fuel ss
    = Some ss' ->
  slices_tile ss' /\ hypotheses_owned ss' /\ newStateHypotheses (arena ss') = [].
Proof.
  intros Hd Hnew Hrun.
  pose proof (expandHmm_tiles _ _ _ _ _ _ _ _ _ _ _ _ _ fuel ss ss' Hd Hnew Hrun) as Ht.
  split; [exact Ht|]. split; [now apply slices_tile_owned|].
  unfold expandHmm in Hrun.
  destruct (expand_loop _ _ _ _ _ _ _ _ _ _ _ _ _ fuel 0 _) as [ss1|];
    [cbn [mbind option_bind] in Hrun|discriminate].
  now injection Hrun as <-.
Qed.

(** [pruneStates], on slices that lie one after the other over the state
    hypotheses, always comes to its end (its [verify] holds for every
    instance); the state hypotheses it leaves are those its policy does not
    prune, in their order, and the slices of the instances it keeps lie one
    after the other over them again, so that no hypothesis is orphaned. *)
Theorem pruneStates_slices_cover (prune : StateHypothesis -> bool) (ss : SearchSpace) :
  slices_tile ss ->
  exists ss',
    pruneStates mayDeactivate instanceDeletionLatency_ prune ss = Some ss' /\
    stateHypotheses ss' = retained prune (stateHypotheses ss) /\
    slices_tile ss' /\ hypotheses_owned ss'.
Proof.
  intros Ht.
  destruct (pruneStates_tiles mayDeactivate instanceDeletionLatency_ prune ss Ht)
    as (ss' & Hrun & Ht' & Hret).
  exists ss'. split; [exact Hrun|]. split; [exact Hret|].
  split; [exact Ht'|now apply slices_tile_owned].
Qed.

End FrameOwnership.

(** A frame on the example network: two instances, entered in the states 1
    and 2, without look-ahead. *)
Definition plainSettings : LookaheadSettings :=
  mkLookaheadSettings false false false false false F32.zero (F32.of_Z 1) 0 None (Some 0)
    sparseTable (fun q => (q, q)) (fun q => (q, q)).

Definition secondKey : InstanceKey := mkInstanceKey (Some 1) None None.

Definition frameStart : SearchSpace :=
  mkSearchSpace [] (mkArena [] [0; 0; 0; 0] 0)
    [Some (set_rootStateHypotheses [mkStateHypothesis 1 7 F32.zero F32.zero]
             (set_lookAheadHistory (Some 2) (newInstance exampleKey None)));
     Some (set_rootStateHypotheses [mkStateHypothesis 2 8 F32.zero F32.zero]
             (set_lookAheadHistory (Some 1) (newInstance secondKey None)))]
    [0; 1] {[exampleKey := 0; secondKey := 1]} F32.max F32.max.

Abbreviation exampleExpandHmm :=
  (expandHmm exampleNetwork exampleTable true exampleLength exampleReduced
     exampleBackOffScore (fun _ _ => F32.zero) (fun _ => None) (fun _ => sparseTable)
     (fun _ _ => F32.zero) (fun q => q) (fun _ _ => 0) plainSettings).

Lemma frameStart_distinct : distinct_instances frameStart.
Proof.
  split.
  - apply (bool_decide_unpack _). vm_compute. reflexivity.
  - intros p Hp. apply list_elem_of_In in Hp. cbn in Hp.
    destruct Hp as [<-|[<-|[]]]; eexists; reflexivity.
Qed.

Lemma expandHmm_slices_cover_witness :
  exists ss',
    exampleExpandHmm 2 frameStart = Some ss' /\
    nStateHypotheses ss' = 5 /\
    slices_tile ss' /\ hypotheses_owned ss' /\ newStateHypotheses (arena ss') = [].
Proof.
  destruct (exampleExpandHmm 2 frameStart) as [ss'|] eqn:E;
    [|vm_compute in E; discriminate].
  exists ss'. split; [reflexivity|]. split.
  - vm_compute in E. injection E as <-. reflexivity.
  - exact (expandHmm_slices_cover _ _ _ _ _ _ _ _ _ _ _ _ _ 2 frameStart ss'
             frameStart_distinct eq_refl E).
Defined.

Lemma pruneStates_slices_cover_witness :
  exists ss1 ss2,
    exampleExpandHmm 2 frameStart = Some ss1 /\
    pruneStates (fun _ _ => true) 0 (fun h => F32.ltb (F32.of_Z 1) (score h)) ss1
      = Some ss2 /\
    stateHypotheses ss2
      = retained (fun h => F32.ltb (F32.of_Z 1) (score h)) (stateHypotheses ss1) /\
    slices_tile ss2 /\ hypotheses_owned ss2.
Proof.
  destruct (exampleExpandHmm 2 frameStart) as [ss1|] eqn:E;
    [|vm_compute in E; discriminate].
  exists ss1.
  destruct (pruneStates_slices_cover (fun _ _ => true) 0
              (fun h => F32.ltb (F32.of_Z 1) (score h)) ss1) as (ss2 & H).
  - exact (expandHmm_tiles _ _ _ _ _ _ _ _ _ _ _ _ _ 2 frameStart ss1
             frameStart_distinct eq_refl E).
  - exists ss2. split; [reflexivity|exact H].
Defined.

(** ** Instances by key *)

(** [SearchSpace::createTreeInstance]: [new Instance(key, 0)]. *)
Definition createTreeInstance (k : InstanceKey) : Instance := newInstance k None.

(** [SearchSpace::instanceForKey]: the instance the map has for the key;
    without one, the null pointer or, with [create], a new instance that is
    appended to [activeInstances] and entered into the map. *)
Definition instanceForKey (create : bool) (k : InstanceKey) (lookaheadHistory : History)
    (ss : SearchSpace) : option (SearchSpace * InstancePtr) :=
  match activeInstanceMap ss !! k with
  | Some p => Some (ss, Some p)
  | None =>
      if negb create then Some (ss, None)
      else
        let t := length (instances ss) in
        let ss1 := set_instances
                     (instances ss ++
                      [Some (set_lookAheadHistory lookaheadHistory (createTreeInstance k))])
                     ss in
        let ss2 := set_activeInstances (activeInstances ss1 ++ [t]) ss1 in
        _ ← verify (bool_decide (activeInstanceMap ss2 !! k = None));
        Some (set_activeInstanceMap (<[k := t]> (activeInstanceMap ss2)) ss2, Some t)
  end.

(** Every entry of [activeInstanceMap] points to a live instance that has
    the key of the entry and is in [activeInstances]. *)
Definition map_live (ss : SearchSpace) : Prop :=
  forall k p, activeInstanceMap ss !! k = Some p ->
    p ∈ activeInstances ss /\
    exists inst, instance_at ss p = Some inst /\ key inst = k.

(** The live instances [P] keep their keys from [ss] to [ss']. *)
Definition keys_kept (P : nat -> Prop) (ss ss' : SearchSpace) : Prop :=
  forall q inst, P q -> instance_at ss q = Some inst ->
    exists inst', instance_at ss' q = Some inst' /\ key inst' = key inst.

Section InstanceForKey.

Implicit Types (ss : SearchSpace) (k : InstanceKey) (h : History).

Lemma instance_at_set_map m ss q :
  instance_at (set_activeInstanceMap m ss) q = instance_at ss q.
Proof. reflexivity. Qed.

Lemma instanceForKey_new k h ss :
  activeInstanceMap ss !! k = None ->
  instanceForKey true k h ss =
    Some (set_activeInstanceMap (<[k := length (instances ss)]> (activeInstanceMap ss))
            (set_activeInstances (activeInstances ss ++ [length (instances ss)])
               (set_instances
                  (instances ss ++ [Some (set_lookAheadHistory h (createTreeInstance k))])
                  ss)),
          Some (length (instances ss))).
Proof.
  intros Hk. unfold instanceForKey. rewrite Hk. cbn [negb].
  cbn [activeInstanceMap set_activeInstances set_instances].
  rewrite Hk. now rewrite bool_decide_eq_true_2.
Qed.

Lemma instanceForKey_returns create k h ss :
  exists ss' r, instanceForKey create k h ss = Some (ss', r).
Proof.
  destruct (activeInstanceMap ss !! k) as [p|] eqn:Hk.
  - unfold instanceForKey. rewrite Hk. eauto.
  - destruct create.
    + rewrite instanceForKey_new by assumption. eauto.
    + unfold instanceForKey. rewrite Hk. cbn. eauto.
Qed.

End InstanceForKey.

(** [instanceForKey] with [create] always returns an instance, and that
    instance is the one every later look-up of the key finds: a second call
    for the key, creating or not and with any look-ahead history, returns
    the same pointer and changes nothing, and the entries of the other keys
    are as they were.  The instance is a new one, with the look-ahead
    history of the call, exactly when the map had none for the key. *)
Theorem instanceForKey_finds_created (k : InstanceKey) (h : History) (ss : SearchSpace) :
  exists ss' p,
    instanceForKey true k h ss = Some (ss', Some p) /\
    (forall create h', instanceForKey create k h' ss' = Some (ss', Some p)) /\
    (forall k', k' <> k -> activeInstanceMap ss' !! k' = activeInstanceMap ss !! k') /\
    match activeInstanceMap ss !! k with
    | Some q => p = q /\ ss' = ss
    | None =>
        p = length (instances ss) /\
        instance_at ss' p = Some (set_lookAheadHistory h (createTreeInstance k)) /\
        activeInstances ss' = activeInstances ss ++ [p] /\
        stateHypotheses ss' = stateHypotheses ss /\
        forall q, q <> p -> instance_at ss' q = instance_at ss q
    end.
Proof.
  destruct (activeInstanceMap ss !! k) as [q|] eqn:Hk.
  - exists ss, q. unfold instanceForKey. rewrite Hk. repeat split; auto.
  - rewrite instanceForKey_new by assumption. eexists _, _. split; [reflexivity|].
    split; [|split; [|split; [reflexivity|]]].
    + intros create h'. unfold instanceForKey. cbn [activeInstanceMap set_activeInstanceMap].
      now rewrite lookup_insert_eq.
    + intros k' Hne. cbn. now rewrite lookup_insert_ne.
    + split; [|split; [reflexivity|split; [reflexivity|]]].
      * rewrite instance_at_set_map, instance_at_set_active, instance_at_append.
        now destruct (decide _).
      * intros q' Hne.
        rewrite instance_at_set_map, instance_at_set_active, instance_at_append.
        now destruct (decide _).
Qed.

(** [instanceForKey] keeps the map on live, active instances with the keys
    of their entries and the active instances pairwise different, and the
    instance it returns is live, active and has the key of the call. *)
Theorem instanceForKey_keeps_map_live (create : bool) (k : InstanceKey) (h : History)
    (ss ss' : SearchSpace) (r : InstancePtr) :
  map_live ss -> distinct_instances ss ->
  instanceForKey create k h ss = Some (ss', r) ->
  map_live ss' /\ distinct_instances ss' /\
  forall p, r = Some p ->
    p ∈ activeInstances ss' /\ exists inst, instance_at ss' p = Some inst /\ key inst = k.
Proof.
  intros Hm [Hnd Hval].
  destruct (activeInstanceMap ss !! k) as [q|] eqn:Hk.
  { unfold instanceForKey. rewrite Hk. intros [= <- <-].
    split; [assumption|]. split; [split; assumption|].
    intros p [= <-]. exact (Hm _ _ Hk). }
  destruct create.
  2:{ unfold instanceForKey. rewrite Hk. cbn. intros [= <- <-].
      split; [assumption|]. split; [split; assumption|]. discriminate. }
  rewrite instanceForKey_new by assumption. intros [= <- <-].
  set (t := length (instances ss)).
  assert (Hat : forall q, instance_at
            (set_activeInstanceMap (<[k := t]> (activeInstanceMap ss))
               (set_activeInstances (activeInstances ss ++ [t])
                  (set_instances
                     (instances ss ++ [Some (set_lookAheadHistory h (createTreeInstance k))])
                     ss))) q
          = if decide (q = t) then Some (set_lookAheadHistory h (createTreeInstance k))
            else instance_at ss q).
  { intros q. now rewrite instance_at_set_map, instance_at_set_active, instance_at_append. }
  assert (Hfresh : t ∉ activeInstances ss).
  { intros Hin. destruct (Hval _ Hin) as [i Hi]. apply instance_at_lt in Hi.
    unfold t in Hi. lia. }
  split; [|split].
  - intros k' p. cbn [activeInstanceMap set_activeInstanceMap activeInstances
                       set_activeInstances set_instances].
    rewrite lookup_insert. destruct (decide (k = k')) as [<-|Hne].
    + intros [= <-]. split; [apply elem_of_app; right; apply list_elem_of_singleton;
                              reflexivity|].
      rewrite Hat. destruct (decide (t = t)); [|contradiction]. eauto.
    + intros Hp. destruct (Hm _ _ Hp) as (Hin & inst & Hi & Hkey).
      split; [apply elem_of_app; now left|].
      rewrite Hat. destruct (decide (p = t)) as [->|]; [contradiction|]. eauto.
  - split.
    + cbn. apply NoDup_app. split; [assumption|]. split; [|apply NoDup_singleton].
      intros q Hq Hq'. apply list_elem_of_singleton in Hq' as ->. contradiction.
    + intros p Hp. rewrite Hat. destruct (decide (p = t)); [eauto|].
      cbn in Hp. apply elem_of_app in Hp as [Hp|Hp]; [auto|].
      apply list_elem_of_singleton in Hp. contradiction.
  - intros p [= <-]. split.
    + cbn. apply elem_of_app; right. now apply list_elem_of_singleton.
    + rewrite Hat. destruct (decide (t = t)); [|contradiction]. eauto.
Qed.

Definition twoKeys : SearchSpace :=
  mkSearchSpace [] (mkArena [] [0; 0; 0; 0] 0)
    [Some (newInstance exampleKey None); Some (newInstance secondKey None)]
    [0; 1] {[exampleKey := 0; secondKey := 1]} F32.max F32.max.

Definition thirdKey : InstanceKey := mkInstanceKey (Some 3) (Some 4) None.

Lemma twoKeys_distinct : distinct_instances twoKeys.
Proof.
  split.
  - apply (bool_decide_unpack _). vm_compute. reflexivity.
  - intros p Hp. apply list_elem_of_In in Hp. cbn in Hp.
    destruct Hp as [<-|[<-|[]]]; eexists; reflexivity.
Qed.

Lemma twoKeys_map_live : map_live twoKeys.
Proof.
  intros k p. unfold twoKeys. cbn [activeInstanceMap activeInstances].
  rewrite lookup_insert. destruct (decide (exampleKey = k)) as [<-|Hne].
  - intros [= <-]. split; [apply list_elem_of_In; cbn; auto|].
    eexists. split; reflexivity.
  - rewrite lookup_singleton. destruct (decide (secondKey = k)) as [<-|Hne'].
    + intros [= <-]. split; [apply list_elem_of_In; cbn; auto|].
      eexists. split; reflexivity.
    + discriminate.
Qed.

Lemma instanceForKey_keeps_map_live_witness :
  exists ss',
    instanceForKey true thirdKey (Some 3) twoKeys = Some (ss', Some 2) /\
    map_live ss' /\ distinct_instances ss' /\
    forall p, Some 2 = Some p ->
      p ∈ activeInstances ss' /\
      exists inst, instance_at ss' p = Some inst /\ key inst = thirdKey.
Proof.
  destruct (instanceForKey true thirdKey (Some 3) twoKeys) as [[ss' r]|] eqn:E;
    [|vm_compute in E; discriminate].
  assert (Hr : r = Some 2) by (vm_compute in E; now injection E as _ <-).
  subst r. exists ss'. split; [reflexivity|].
  exact (instanceForKey_keeps_map_live true thirdKey (Some 3) twoKeys ss' (Some 2)
           twoKeys_map_live twoKeys_distinct E).
Defined.

(** ** The instance map through deactivation and pruning *)

Section KeysKept.

Implicit Types (ss : SearchSpace) (P : nat -> Prop).

Lemma keys_kept_refl P ss : keys_kept P ss ss.
Proof. intros q inst _ Hq. eauto. Qed.

Lemma keys_kept_trans P ss1 ss2 ss3 :
  keys_kept P ss1 ss2 -> keys_kept P ss2 ss3 -> keys_kept P ss1 ss3.
Proof.
  intros H1 H2 q inst HP Hq. destruct (H1 _ _ HP Hq) as (i2 & Hq2 & Hk2).
  destruct (H2 _ _ HP Hq2) as (i3 & Hq3 & Hk3). exists i3. split; congruence.
Qed.

Lemma keys_kept_update P p f ss :
  (forall i, key (f i) = key i) -> keys_kept P ss (update_instance p f ss).
Proof.
  intros Hf q inst _ Hq. rewrite instance_at_update, Hq.
  destruct (decide (p = q)); cbn; eexists; split; try reflexivity; auto.
Qed.

Lemma keys_kept_same P ss ss' : instances ss' = instances ss -> keys_kept P ss ss'.
Proof.
  intros Hi q inst _ Hq. exists inst. unfold instance_at in *. rewrite Hi. auto.
Qed.

Lemma delete_instance_spec p ss inst :
  instance_at ss p = Some inst ->
  instance_at (delete_instance p ss) p = None /\
  keys_kept (fun q => q <> p) ss (delete_instance p ss) /\
  activeInstances (delete_instance p ss) = activeInstances ss /\
  activeInstanceMap (delete_instance p ss) = activeInstanceMap ss /\
  stateHypotheses (delete_instance p ss) = stateHypotheses ss.
Proof.
  intros Hp. unfold delete_instance. rewrite Hp.
  set (ss1 := match backOffParent inst with
              | Some q => update_instance q (set_backOffInstance None) ss
              | None => ss
              end).
  set (ss2 := match backOffInstance inst with
              | Some c => update_instance c (set_backOffParent None) ss1
              | None => ss1
              end).
  assert (H1 : keys_kept (fun q => q <> p) ss ss1).
  { unfold ss1. destruct (backOffParent inst);
      [now apply keys_kept_update|apply keys_kept_refl]. }
  assert (H2 : keys_kept (fun q => q <> p) ss1 ss2).
  { unfold ss2. destruct (backOffInstance inst);
      [now apply keys_kept_update|apply keys_kept_refl]. }
  assert (Hlen : length (instances ss2) = length (instances ss)).
  { unfold ss2, ss1. destruct (backOffInstance inst), (backOffParent inst);
      now rewrite ?length_update_instance. }
  assert (Hother : activeInstances ss2 = activeInstances ss /\
                   activeInstanceMap ss2 = activeInstanceMap ss /\
                   stateHypotheses ss2 = stateHypotheses ss).
  { unfold ss2, ss1. destruct (backOffInstance inst), (backOffParent inst); auto. }
  split; [|split; [|exact Hother]].
  - unfold instance_at. cbn. rewrite list_lookup_insert_eq; [reflexivity|].
    rewrite Hlen. now apply instance_at_lt in Hp.
  - intros q i Hq Hi. destruct (H1 _ _ Hq Hi) as (i1 & Hi1 & Hk1).
    destruct (H2 _ _ Hq Hi1) as (i2 & Hi2 & Hk2). exists i2. split; [|congruence].
    unfold instance_at in *. cbn. now rewrite list_lookup_insert_ne by auto.
Qed.

End KeysKept.

Section MapInvariant.

Variable mayDeactivate : SearchSpace -> Instance -> bool.
Variable instanceDeletionLatency_ : nat.

(** What [eventuallyDeactivateTree] does to the map and the keys: it
    removes the entry of the instance it deletes, and no other. *)
Lemma eventuallyDeactivateTree_map p inc ss inst ss' deleted :
  instance_at ss p = Some inst ->
  eventuallyDeactivateTree mayDeactivate instanceDeletionLatency_ p inc ss
    = Some (ss', deleted) ->
  keys_kept (fun q => q <> p) ss ss' /\
  if deleted
  then instance_at ss' p = None /\
       (forall k q, activeInstanceMap ss' !! k = Some q ->
          activeInstanceMap ss !! k = Some q /\ (k = key inst -> q <> p))
  else activeInstanceMap ss' = activeInstanceMap ss /\
       exists inst', instance_at ss' p = Some inst' /\ key inst' = key inst.
Proof.
  intros Hp. unfold eventuallyDeactivateTree. rewrite Hp. cbn [mbind option_bind].
  destruct (negb (mayDeactivate ss inst)).
  { intros [= <- <-]. split; [apply keys_kept_refl|]. eauto. }
  destruct (states_empty inst); cbn [negb].
  2:{ intros [= <- <-]. split; [now apply keys_kept_update|]. split; [reflexivity|].
      rewrite instance_at_update, Hp. destruct (decide (p = p)); [|contradiction].
      cbn. eauto. }
  destruct (inactive inst <? instanceDeletionLatency_).
  { intros [= <- <-]. destruct inc.
    - split; [now apply keys_kept_update|]. split; [reflexivity|].
      rewrite instance_at_update, Hp. destruct (decide (p = p)); [|contradiction].
      cbn. eauto.
    - split; [apply keys_kept_refl|]. eauto. }
  intros [= <- <-].
  set (ss1 := if bool_decide (activeInstanceMap ss !! key inst = Some p)
              then set_activeInstanceMap (delete (key inst) (activeInstanceMap ss)) ss
              else ss).
  assert (Hp1 : instance_at ss1 p = Some inst).
  { unfold ss1. now destruct (bool_decide _). }
  destruct (delete_instance_spec p ss1 inst Hp1) as (Hnone & Hkeys & _ & Hmap & _).
  split; [|split; [exact Hnone|]].
  - eapply keys_kept_trans; [|exact Hkeys].
    apply keys_kept_same. unfold ss1. now destruct (bool_decide _).
  - intros k q. rewrite Hmap. unfold ss1.
    destruct (bool_decide (activeInstanceMap ss !! key inst = Some p)) eqn:Hb.
    + cbn. rewrite lookup_delete. destruct (decide (key inst = k)) as [<-|Hne];
        [discriminate|]. intros Hq. split; [assumption|]. congruence.
    + apply bool_decide_eq_false in Hb. intros Hq. split; [assumption|].
      intros -> ->. contradiction.
Qed.

End MapInvariant.

(** The map during the loop of [pruneStates]: its entries point to live
    instances with their keys, each already kept or still to come. *)
Definition prune_map (A0 : list nat) (k : nat) (st : PruneState) : Prop :=
  let ss := ps_space st in
  forall x p, activeInstanceMap ss !! x = Some p ->
    (p ∈ take (ps_instOut st) (activeInstances ss) \/ p ∈ drop k A0) /\
    exists inst, instance_at ss p = Some inst /\ key inst = x.

Section PruneMap.

Variable mayDeactivate : SearchSpace -> Instance -> bool.
Variable instanceDeletionLatency_ : nat.
Variable prune : StateHypothesis -> bool.

Lemma prune_instance_map A0 v0 k st st' :
  prune_inv prune A0 v0 k st -> k < length A0 -> prune_map A0 k st ->
  prune_instance mayDeactivate instanceDeletionLatency_ prune st k = Some st' ->
  prune_map A0 (S k) st'.
Proof.
  destruct st as [ss hypIn hypOut instOut]. unfold prune_inv, prune_map.
  cbn [ps_space ps_hypIn ps_hypOut ps_instOut].
  intros (HndA & HlenA & Hdrop & Hio & Hsub & Hndk & Hoi & Hlenv & Ht0 & Ht1 & Htake & Hdropv)
    Hk Hmap.
  destruct (lookup_lt_is_Some_2 A0 k Hk) as [p Hp0].
  assert (Hp : activeInstances ss !! k = Some p).
  { rewrite <- (Nat.add_0_r k), <- lookup_drop, Hdrop, lookup_drop, Nat.add_0_r.
    exact Hp0. }
  rewrite (drop_S A0 p k Hp0) in Ht0. cbn [tiles] in Ht0.
  destruct Ht0 as (inst & Hinst & _).
  unfold prune_instance. cbn [ps_space ps_hypIn ps_hypOut ps_instOut].
  rewrite Hp. cbn [mbind option_bind]. rewrite Hinst. cbn [mbind option_bind].
  destruct (verify _); [cbn [mbind option_bind]|discriminate].
  destruct (prune_range _ _ _ _ _) as [r|]; [cbn [mbind option_bind]|discriminate].
  set (ss1 := update_instance p (set_states hypOut r.2) (set_stateHypotheses r.1 ss)).
  assert (Hp1 : instance_at ss1 p = Some (set_states hypOut r.2 inst)).
  { unfold ss1. rewrite instance_at_update. destruct (decide (p = p)); [|contradiction].
    change (instance_at (set_stateHypotheses r.1 ss) p) with (instance_at ss p).
    now rewrite Hinst. }
  destruct (eventuallyDeactivateTree_spec mayDeactivate instanceDeletionLatency_
              p true ss1 _ Hp1)
    as (ssd & deleted & Hev & _ & Had & _).
  rewrite Hev. cbn [mbind option_bind fst snd].
  destruct (eventuallyDeactivateTree_map mayDeactivate instanceDeletionLatency_
              p true ss1 _ ssd deleted Hp1 Hev) as [Hkk Hd].
  assert (Hk1 : keys_kept (fun q => q <> p) ss ssd).
  { eapply keys_kept_trans; [|exact Hkk].
    eapply keys_kept_trans;
      [apply (keys_kept_same _ ss (set_stateHypotheses r.1 ss)); reflexivity|].
    now apply keys_kept_update. }
  assert (Ha1 : activeInstances ssd = activeInstances ss) by (rewrite Had; reflexivity).
  assert (Hrest : forall q, q ∈ drop k A0 -> q <> p -> q ∈ drop (S k) A0).
  { intros q Hq Hne. rewrite (drop_S A0 p k Hp0) in Hq.
    apply elem_of_cons in Hq as [->|Hq]; [contradiction|assumption]. }
  destruct deleted.
  - destruct Hd as [Hnone Hm]. intros [= <-]. cbn [ps_space ps_instOut].
    intros x q Hq. destruct (Hm _ _ Hq) as [Hq1 Hne].
    change (activeInstanceMap ss1) with (activeInstanceMap ss) in Hq1.
    destruct (Hmap _ _ Hq1) as (Hin & i & Hi & Hkey).
    assert (Hqp : q <> p).
    { intros ->. rewrite Hinst in Hi. injection Hi as <-. now apply Hne. }
    split.
    + rewrite Ha1. destruct Hin as [Hin|Hin]; [now left|right; now apply Hrest].
    + destruct (Hk1 _ _ Hqp Hi) as (i' & Hi' & Hk'). exists i'. split; congruence.
  - destruct Hd as [Hm (instd & Hpd & Hkd)]. intros [= <-]. cbn [ps_space ps_instOut].
    cbn [activeInstances set_activeInstances activeInstanceMap].
    assert (HioA : instOut < length (activeInstances ss)) by lia.
    assert (Htk1 : take (S instOut) (<[instOut := p]> (activeInstances ssd))
                   = take instOut (activeInstances ss) ++ [p]).
    { rewrite Ha1. rewrite (take_S_r _ _ p) by (apply list_lookup_insert_eq; lia).
      now rewrite take_insert_ge by lia. }
    intros x q Hq. rewrite Hm in Hq.
    change (activeInstanceMap ss1) with (activeInstanceMap ss) in Hq.
    destruct (Hmap _ _ Hq) as (Hin & i & Hi & Hkey).
    rewrite Htk1. rewrite instance_at_set_active.
    destruct (decide (q = p)) as [->|Hqp].
    + split; [left; apply elem_of_app; right; now apply list_elem_of_singleton|].
      rewrite Hinst in Hi. injection Hi as <-. exists instd. split; [assumption|].
      now rewrite Hkd.
    + split.
      * destruct Hin as [Hin|Hin]; [left; apply elem_of_app; now left|right; now apply Hrest].
      * destruct (Hk1 _ _ Hqp Hi) as (i' & Hi' & Hk'). exists i'. split; congruence.
Qed.

Lemma prune_loop_map A0 v0 n : forall k st st',
  prune_inv prune A0 v0 k st -> prune_map A0 k st -> k + n = length A0 ->
  prune_loop mayDeactivate instanceDeletionLatency_ prune (seq k n) st = Some st' ->
  prune_map A0 (k + n) st'.
Proof.
  induction n as [|n IH]; intros k st st' Hinv Hmap Hlen; cbn [seq prune_loop].
  - intros [= <-]. now rewrite Nat.add_0_r.
  - destruct (prune_instance_inv mayDeactivate instanceDeletionLatency_ prune
                A0 v0 k st Hinv ltac:(lia)) as (st1 & Hrun & Hinv1).
    rewrite Hrun. cbn [mbind option_bind]. intros Hrest.
    rewrite <- Nat.add_succ_comm. apply (IH (S k) st1); auto; [|lia].
    apply (prune_instance_map A0 v0 k st); auto; lia.
Qed.

End PruneMap.

(** [pruneStates] keeps the map on live, active instances: after it, no
    entry of [activeInstanceMap] points to an instance that was deleted or
    dropped from [activeInstances], and every entry still has the key of
    its instance. *)
Theorem pruneStates_keeps_map_live (mayDeactivate : SearchSpace -> Instance -> bool)
    (instanceDeletionLatency_ : nat) (prune : StateHypothesis -> bool)
    (ss ss' : SearchSpace) :
  slices_tile ss -> map_live ss ->
  pruneStates mayDeactivate instanceDeletionLatency_ prune ss = Some ss' ->
  map_live ss'.
Proof.
  intros [[Hnd Hval] Ht] Hm. unfold pruneStates.
  assert (Hinv : prune_inv prune (activeInstances ss) (stateHypotheses ss) 0
                   (mkPruneState ss 0 0 0)).
  { unfold prune_inv. cbn. rewrite ?take_0, ?drop_0. repeat split; auto; try lia.
    constructor. }
  destruct (prune_loop _ _ _ _ _) as [st|] eqn:Hrun; [cbn [mbind option_bind]|discriminate].
  intros [= <-].
  assert (Hmap : prune_map (activeInstances ss) (0 + length (activeInstances ss)) st).
  { apply (prune_loop_map mayDeactivate instanceDeletionLatency_ prune
             (activeInstances ss) (stateHypotheses ss) _ 0 (mkPruneState ss 0 0 0));
      auto.
    intros x p Hp. cbn. rewrite drop_0. destruct (Hm _ _ Hp). auto. }
  cbn [plus] in Hmap. intros x p Hp.
  destruct (Hmap x p Hp) as ([Hin|Hin] & inst & Hi & Hkey).
  - split; [exact Hin|]. exists inst. split; [exact Hi|exact Hkey].
  - rewrite drop_all in Hin. inversion Hin.
Qed.

Lemma twoKeys_tile : slices_tile twoKeys.
Proof.
  split; [apply twoKeys_distinct|]. cbn.
  eexists. split; [reflexivity|]. split; [reflexivity|]. split; [cbn; lia|].
  eexists. split; [reflexivity|]. split; [reflexivity|]. split; [cbn; lia|].
  reflexivity.
Qed.

Lemma pruneStates_keeps_map_live_witness :
  exists ss',
    pruneStates (fun _ _ => true) 0 (fun _ => false) twoKeys = Some ss' /\
    map_live ss' /\
    activeInstances ss' = [] /\ activeInstanceMap ss' !! exampleKey = None.
Proof.
  destruct (pruneStates (fun _ _ => true) 0 (fun _ => false) twoKeys) as [ss'|] eqn:E;
    [|vm_compute in E; discriminate].
  exists ss'. split; [reflexivity|]. split.
  - exact (pruneStates_keeps_map_live (fun _ _ => true) 0 (fun _ => false) twoKeys ss'
             twoKeys_tile twoKeys_map_live E).
  - vm_compute in E. injection E as <-. split; reflexivity.
Defined.

(** ** The best state hypothesis *)

(** The loops of [bestScoreStateHypothesis] and
    [bestProspectStateHypothesis] over the hypotheses from position [i] on:
    [ret] is the position of the best one found and [bestScore] its value
    [f], the score or the prospect. *)
Fixpoint best_loop (f : StateHypothesis -> Score) (hyps : list StateHypothesis)
    (i ret : nat) (bestScore : Score) : nat * Score :=
  match hyps with
  | [] => (ret, bestScore)
  | sh :: rest =>
      if F32.gtb bestScore (f sh)
      then best_loop f rest (S i) i (f sh)
      else best_loop f rest (S i) ret bestScore
  end.

(** [SearchSpace::bestScoreStateHypothesis] and
    [SearchSpace::bestProspectStateHypothesis]: the iterator, as a position
    in [stateHypotheses]. *)
Definition bestScoreStateHypothesis (ss : SearchSpace) : nat :=
  (best_loop score (stateHypotheses ss) 0 0 F32.max).1.

Definition bestProspectStateHypothesis (ss : SearchSpace) : nat :=
  (best_loop prospect (stateHypotheses ss) 0 0 F32.max).1.

(** [SearchSpace::bestProspect]: the cached value, computed when the cache
    holds the sentinel; the cache is a mutable member, so the search space
    is returned with it. *)
Definition bestProspect (ss : SearchSpace) : SearchSpace * Score :=
  if F32.eqb (bestProspect_ ss) F32.max then
    match stateHypotheses ss !! bestProspectStateHypothesis ss with
    | Some hyp => (set_best (prospect hyp) (bestScore_ ss) ss, prospect hyp)
    | None => (ss, bestProspect_ ss)
    end
  else (ss, bestProspect_ ss).

(** [SearchSpace::bestScore]. *)
Definition bestScore (ss : SearchSpace) : SearchSpace * Score :=
  if F32.eqb (bestScore_ ss) F32.max then
    match stateHypotheses ss !! bestScoreStateHypothesis ss with
    | Some hyp => (set_best (bestProspect_ ss) (score hyp) ss, score hyp)
    | None => (ss, bestScore_ ss)
    end
  else (ss, bestScore_ ss).

(** A score that is a number and not above the sentinel [F32_MAX]: neither
    a NaN nor plus infinity. *)
Definition bounded (x : Score) : Prop := F32.proper x /\ F32.le x F32.max.

(** The hypothesis at position [i] has the value [b], no hypothesis has a
    lower one and every hypothesis before it a higher one. *)
Definition first_minimum (f : StateHypothesis -> Score) (hyps : list StateHypothesis)
    (i : nat) (b : Score) : Prop :=
  exists h, hyps !! i = Some h /\ f h = b /\
    (forall j hj, hyps !! j = Some hj -> F32.le b (f hj)) /\
    (forall j hj, j < i -> hyps !! j = Some hj -> F32.lt b (f hj)).

Section BestHypothesis.

Lemma max_proper : F32.proper F32.max.
Proof. reflexivity. Qed.

Variable f : StateHypothesis -> Score.

(** What the loop knows after the hypotheses [l]. *)
Definition best_inv (l : list StateHypothesis) (ret : nat) (best : Score) : Prop :=
  (ret = 0 /\ best = F32.max /\ forall j hj, l !! j = Some hj -> F32.le F32.max (f hj)) \/
  first_minimum f l ret best.

Lemma best_loop_inv rest : forall pre ret best,
  Forall (fun h => bounded (f h)) (pre ++ rest) ->
  best_inv pre ret best ->
  best_inv (pre ++ rest) (best_loop f rest (length pre) ret best).1
                         (best_loop f rest (length pre) ret best).2.
Proof.
  induction rest as [|sh rest IH]; intros pre ret best Hb Hinv; cbn [best_loop].
  - now rewrite app_nil_r.
  - assert (Hbp : Forall (fun h => bounded (f h)) pre)
      by now apply Forall_app in Hb as [? _].
    assert (Hsh : bounded (f sh)).
    { apply Forall_app in Hb as [_ Hb]. now inversion Hb. }
    assert (Hpre : forall j hj, pre !! j = Some hj -> F32.proper (f hj)).
    { intros j hj Hj. rewrite Forall_forall in Hbp.
      apply Hbp. apply list_elem_of_lookup. eauto. }
    assert (Hbest : F32.proper best).
    { destruct Hinv as [(_ & -> & _)|(h & Hh & <- & _)]; [apply max_proper|eauto]. }
    replace (pre ++ sh :: rest) with ((pre ++ [sh]) ++ rest) in *
      by now rewrite <- app_assoc.
    replace (S (length pre)) with (length (pre ++ [sh]))
      by (rewrite length_app; cbn; lia).
    assert (Hlast : forall j hj, (pre ++ [sh]) !! j = Some hj ->
              (j < length pre /\ pre !! j = Some hj) \/ (j = length pre /\ hj = sh)).
    { intros j hj Hj. apply lookup_app_Some in Hj as [Hj|[Hge Hj]].
      - left. split; [now apply lookup_lt_Some in Hj|assumption].
      - right. destruct (j - length pre) as [|d] eqn:Ed; [|destruct d; discriminate].
        injection Hj as <-. split; [lia|reflexivity]. }
    change (F32.gtb best (f sh)) with (F32.ltb (f sh) best).
    destruct (F32.ltb (f sh) best) eqn:Hlt; apply IH; try assumption.
    + (* a better hypothesis *)
      right. exists sh. split; [now rewrite lookup_app_r, Nat.sub_diag by lia|].
      split; [reflexivity|].
      assert (Hall : forall j hj, pre !! j = Some hj -> F32.lt (f sh) (f hj)).
      { intros j hj Hj. destruct Hinv as [(_ & -> & Hge)|(h & _ & <- & Hle & _)].
        - apply (score_lt_le_trans _ F32.max); eauto using max_proper.
          apply Hsh.
        - apply (score_lt_le_trans _ (f h)); eauto. apply Hsh. }
      split.
      * intros j hj Hj. destruct (Hlast _ _ Hj) as [[_ Hj']|[_ ->]].
        -- apply F32Facts.lt_le. eauto.
        -- apply F32Facts.le_refl. apply Hsh.
      * intros j hj Hjl Hj. destruct (Hlast _ _ Hj) as [[_ Hj']|[-> _]]; [eauto|lia].
    + (* no better one *)
      assert (Hle : F32.le best (f sh)) by (apply score_not_lt_le; auto; apply Hsh).
      destruct Hinv as [(-> & -> & Hge)|(h & Hh & <- & Hmin & Hfirst)].
      * left. split; [reflexivity|]. split; [reflexivity|].
        intros j hj Hj. destruct (Hlast _ _ Hj) as [[_ Hj']|[_ ->]]; eauto.
      * right. exists h. split; [now apply lookup_app_l_Some|].
        split; [reflexivity|]. split.
        -- intros j hj Hj. destruct (Hlast _ _ Hj) as [[_ Hj']|[_ ->]]; eauto.
        -- intros j hj Hjl Hj. destruct (Hlast _ _ Hj) as [[_ Hj']|[-> _]]; [eauto|].
           apply lookup_lt_Some in Hh. lia.
Qed.

(** On a list that is not empty the loop ends on the first minimum. *)
Lemma best_loop_first_minimum hyps :
  hyps <> [] -> Forall (fun h => bounded (f h)) hyps ->
  exists h, hyps !! (best_loop f hyps 0 0 F32.max).1 = Some h /\
    first_minimum f hyps (best_loop f hyps 0 0 F32.max).1 (f h).
Proof.
  intros Hne Hb.
  assert (Hinv0 : best_inv [] 0 F32.max).
  { left. split; [reflexivity|]. split; [reflexivity|]. intros j hj Hj. inversion Hj. }
  pose proof (best_loop_inv hyps [] 0 F32.max Hb Hinv0) as Hinv. cbn in Hinv.
  destruct Hinv as [(Hr & Hm & Hge)|(h & Hh & Hf & Hmin & Hfirst)].
  - destruct hyps as [|h0 hyps']; [contradiction|].
    rewrite Hr. exists h0. split; [reflexivity|]. exists h0.
    split; [reflexivity|]. split; [reflexivity|]. split; [|intros j hj Hj; lia].
    intros j hj Hj.
    assert (Hb0 : bounded (f h0)) by now inversion Hb.
    assert (Hbj : bounded (f hj)).
    { rewrite Forall_forall in Hb. apply Hb, list_elem_of_lookup. eauto. }
    apply (F32Facts.le_trans _ F32.max); try apply Hb0; try apply Hbj;
      auto using max_proper. eauto.
  - exists h. split; [assumption|]. exists h. rewrite Hf. repeat split; auto.
Qed.

End BestHypothesis.

(** With the caches at the sentinel, on state hypotheses whose scores and
    prospects are numbers not above [F32_MAX], [bestProspect] returns the
    lowest prospect and [bestScore] the lowest score, stores it in the
    cache, and [bestProspectStateHypothesis] and [bestScoreStateHypothesis]
    point to the first hypothesis that has it: no hypothesis has a lower
    value and every earlier one a higher value. *)
Theorem best_hypothesis_is_first_minimum (ss : SearchSpace) :
  stateHypotheses ss <> [] ->
  Forall (fun h => bounded (score h) /\ bounded (prospect h)) (stateHypotheses ss) ->
  (F32.eqv (bestProspect_ ss) F32.max ->
   first_minimum prospect (stateHypotheses ss) (bestProspectStateHypothesis ss)
     (bestProspect ss).2 /\
   bestProspect_ (bestProspect ss).1 = (bestProspect ss).2) /\
  (F32.eqv (bestScore_ ss) F32.max ->
   first_minimum score (stateHypotheses ss) (bestScoreStateHypothesis ss)
     (bestScore ss).2 /\
   bestScore_ (bestScore ss).1 = (bestScore ss).2).
Proof.
  intros Hne Hb. split; intros Hc.
  - destruct (best_loop_first_minimum prospect (stateHypotheses ss) Hne) as (h & Hh & Hmin).
    { eapply Forall_impl; [exact Hb|]. now intros x [_ ?]. }
    unfold bestProspect, bestProspectStateHypothesis. unfold F32.eqv in Hc.
    rewrite Hc, Hh. cbn. split; [exact Hmin|reflexivity].
  - destruct (best_loop_first_minimum score (stateHypotheses ss) Hne) as (h & Hh & Hmin).
    { eapply Forall_impl; [exact Hb|]. now intros x [? _]. }
    unfold bestScore, bestScoreStateHypothesis. unfold F32.eqv in Hc.
    rewrite Hc, Hh. cbn. split; [exact Hmin|reflexivity].
Qed.

(** Three hypotheses with the scores 5, 3 and 3 and the prospects 4, 6
    and 4. *)
Definition threeHypotheses : SearchSpace :=
  mkSearchSpace
    [mkStateHypothesis 1 7 (F32.of_Z 5) (F32.of_Z 4);
     mkStateHypothesis 2 7 (F32.of_Z 3) (F32.of_Z 6);
     mkStateHypothesis 3 8 (F32.of_Z 3) (F32.of_Z 4)]
    (mkArena [] [0; 0; 0; 0] 0)
    [Some (set_states 0 3 (newInstance exampleKey None))] [0]
    {[exampleKey := 0]} F32.max F32.max.

Lemma best_hypothesis_is_first_minimum_witness :
  (F32.eqv (bestProspect_ threeHypotheses) F32.max ->
   first_minimum prospect (stateHypotheses threeHypotheses)
     (bestProspectStateHypothesis threeHypotheses) (bestProspect threeHypotheses).2 /\
   bestProspect_ (bestProspect threeHypotheses).1 = (bestProspect threeHypotheses).2) /\
  (F32.eqv (bestScore_ threeHypotheses) F32.max ->
   first_minimum score (stateHypotheses threeHypotheses)
     (bestScoreStateHypothesis threeHypotheses) (bestScore threeHypotheses).2 /\
   bestScore_ (bestScore threeHypotheses).1 = (bestScore threeHypotheses).2) /\
  bestProspectStateHypothesis threeHypotheses = 0 /\
  bestScoreStateHypothesis threeHypotheses = 1.
Proof.
  assert (H := best_hypothesis_is_first_minimum threeHypotheses).
  destruct H as [H1 H2].
  - discriminate.
  - unfold threeHypotheses. cbn [stateHypotheses].
    repeat constructor.
  - split; [exact H1|]. split; [exact H2|]. split; reflexivity.
Defined.

(** Above the sentinel the loops find nothing: with a first prospect of
    plus infinity and a second of [F32_MAX], [bestProspect] is plus
    infinity, which is not the lowest prospect. *)
Example bestProspect_infinity :
  let ss := set_stateHypotheses
              [mkStateHypothesis 1 7 F32.zero (S754_infinity false);
               mkStateHypothesis 2 7 F32.zero F32.max] threeHypotheses in
  (bestProspect ss).2 = S754_infinity false /\
  F32.lt F32.max (bestProspect ss).2.
Proof. split; reflexivity. Qed.

(** ** What word-end recombination keeps *)

Section RecombinationResult.

Context {K : Type} `{Countable K}.
Variable key : WordEndHypothesis -> K.

(** The key of a stored hypothesis stays when an incoming one of the same
    key overwrites it. *)
Hypothesis key_stable : forall a b, key a = key b -> key (overwrite a b) = key b.

Lemma recombineTwoHypotheses_result a b lattice store store' b' :
  recombineTwoHypotheses a b lattice store = Some (store', b') ->
  exists better : bool,
    incoming_better a b = Some better /\
    b' = if better then overwrite a b else b.
Proof.
  unfold recombineTwoHypotheses.
  destruct (incoming_better a b) as [[|]|]; cbn [mbind option_bind]; [| |discriminate].
  - destruct (if lattice then _ else _); cbn; [|discriminate]. intros [= _ <-]. eauto.
  - destruct (if lattice then _ else _); cbn; [|discriminate]. intros [= _ <-]. eauto.
Qed.

Lemma incoming_better_le a b (better : bool) :
  F32.proper (total (weh_score a)) -> F32.proper (total (weh_score b)) ->
  incoming_better a b = Some better ->
  if better
  then F32.le (total (weh_score a)) (total (weh_score b))
  else F32.le (total (weh_score b)) (total (weh_score a)).
Proof.
  intros Ha Hb. unfold incoming_better.
  change (F32.gtb (total (weh_score b)) (total (weh_score a)))
    with (F32.ltb (total (weh_score a)) (total (weh_score b))).
  destruct (F32.ltb (total (weh_score a)) (total (weh_score b))) eqn:Hlt.
  - intros [= <-]. now apply F32Facts.lt_le.
  - destruct (F32.eqb (total (weh_score b)) (total (weh_score a))) eqn:He.
    + apply (F32Facts.eqb_le _ _ Hb Ha) in He as [Hba Hab].
      destruct (weh_pronunciation b) as [idb|], (weh_pronunciation a) as [ida|];
        cbn [mbind option_bind]; try discriminate.
      intros [= <-]. now destruct (ida <? idb).
    + intros [= <-]. now apply score_not_lt_le.
Qed.

(** The state of the loop after the positions before [k] of the list
    [v0]: the hypotheses before [out] have pairwise different keys, which
    the map knows; every hypothesis met has a survivor of its key with a
    score not above its own; every survivor has the score, the trace and
    the pronunciation of a hypothesis met. *)
Definition rec_inv (v0 : list WordEndHypothesis) (k : nat)
    (st : @RecombinationState K _ _) : Prop :=
  let v := rs_wordEndHypotheses st in
  let out := rs_out st in
  length v = length v0 /\ out <= k /\ drop k v = drop k v0 /\
  (forall x i, rs_map st !! x = Some i <-> i < out /\ key <$> v !! i = Some x) /\
  (forall j w, j < k -> v0 !! j = Some w ->
     exists i w', i < out /\ v !! i = Some w' /\ key w' = key w /\
       F32.le (total (weh_score w')) (total (weh_score w))) /\
  (forall i w', i < out -> v !! i = Some w' ->
     exists j w, j < k /\ v0 !! j = Some w /\ key w = key w' /\
       weh_score w' = weh_score w /\ weh_trace w' = weh_trace w /\
       weh_pronunciation w' = weh_pronunciation w).

Lemma recombine_step_inv lattice v0 k st st' :
  Forall (fun w => F32.proper (total (weh_score w))) v0 ->
  rec_inv v0 k st -> k < length v0 ->
  recombine_step key lattice st k = Some st' ->
  rec_inv v0 (S k) st'.
Proof.
  intros Hprop. destruct st as [store v out m]. unfold rec_inv.
  cbn [rs_traces rs_wordEndHypotheses rs_out rs_map].
  intros (Hlen & Hout & Hdrop & Hmap & Hmin & Hfrom) Hk.
  destruct (lookup_lt_is_Some_2 v0 k Hk) as [a Ha0].
  assert (Ha : v !! k = Some a).
  { rewrite <- (Nat.add_0_r k), <- lookup_drop, Hdrop, lookup_drop, Nat.add_0_r.
    exact Ha0. }
  assert (Hpa : F32.proper (total (weh_score a))).
  { rewrite Forall_forall in Hprop. apply Hprop, list_elem_of_lookup. eauto. }
  assert (Hpv : forall i w', i < out -> v !! i = Some w' ->
                  F32.proper (total (weh_score w'))).
  { intros i w' Hi Hw. destruct (Hfrom _ _ Hi Hw) as (j & w & _ & Hj & _ & -> & _).
    rewrite Forall_forall in Hprop. apply Hprop, list_elem_of_lookup. eauto. }
  unfold recombine_step. cbn [rs_traces rs_wordEndHypotheses rs_out rs_map].
  rewrite Ha. cbn [mbind option_bind].
  destruct (m !! key a) as [i|] eqn:Hm.
  - (* the key is known: the two hypotheses are recombined at [i] *)
    apply Hmap in Hm as [Hi Hkb].
    destruct (v !! i) as [b|] eqn:Hb; [cbn [mbind option_bind]|discriminate].
    cbn in Hkb. injection Hkb as Hkb.
    destruct (recombineTwoHypotheses a b lattice store) as [[store' b']|] eqn:Hr;
      [cbn [mbind option_bind fst snd]|discriminate].
    intros [= <-]. cbn [rs_traces rs_wordEndHypotheses rs_out rs_map].
    apply recombineTwoHypotheses_result in Hr as (better & Hbetter & Hr).
    pose proof (incoming_better_le a b better Hpa (Hpv _ _ Hi Hb) Hbetter) as Hle.
    assert (Hkb' : key b' = key b).
    { rewrite Hr. destruct better; [now apply key_stable|reflexivity]. }
    assert (Hlb : F32.le (total (weh_score b')) (total (weh_score b))).
    { rewrite Hr. destruct better; [exact Hle|].
      apply F32Facts.le_refl. eauto. }
    assert (Hla : F32.le (total (weh_score b')) (total (weh_score a))).
    { rewrite Hr. destruct better; [|exact Hle].
      now apply F32Facts.le_refl. }
    assert (Hpb' : F32.proper (total (weh_score b'))).
    { rewrite Hr. destruct better; [exact Hpa|eauto]. }
    assert (Hiv : i < length v) by now apply lookup_lt_Some in Hb.
    assert (Hlook : forall q, <[i := b']> v !! q = if decide (q = i) then Some b' else v !! q).
    { intros q. destruct (decide (q = i)) as [->|Hne].
      - now apply list_lookup_insert_eq.
      - now apply list_lookup_insert_ne. }
    split; [now rewrite length_insert|]. split; [lia|].
    split. { rewrite drop_insert_lt by lia. now rewrite !(drop_succ _ k), Hdrop. }
    split; [|split].
    + intros x q. rewrite Hmap, Hlook. destruct (decide (q = i)) as [->|Hne]; [|reflexivity].
      rewrite Hb. cbn. now rewrite Hkb'.
    + intros j w Hj Hw. destruct (decide (j = k)) as [->|Hjk].
      * rewrite Ha0 in Hw. injection Hw as <-. exists i, b'.
        rewrite Hlook. destruct (decide (i = i)); [|contradiction].
        repeat split; auto. congruence.
      * destruct (Hmin j w ltac:(lia) Hw) as (i0 & w0 & Hi0 & Hw0 & Hk0 & Hle0).
        destruct (decide (i0 = i)) as [->|Hne].
        -- rewrite Hb in Hw0. injection Hw0 as <-. exists i, b'.
           rewrite Hlook. destruct (decide (i = i)); [|contradiction].
           repeat split; auto; [congruence|].
           apply (F32Facts.le_trans _ (total (weh_score b))); eauto.
           rewrite Forall_forall in Hprop. apply Hprop, list_elem_of_lookup. eauto.
        -- exists i0, w0. rewrite Hlook. destruct (decide (i0 = i)); [contradiction|].
           repeat split; auto.
    + intros q w' Hq. rewrite Hlook. destruct (decide (q = i)) as [->|Hne].
      * intros [= <-]. rewrite Hr. destruct better.
        -- exists k, a. repeat split; auto. rewrite key_stable; congruence.
        -- destruct (Hfrom _ _ Hi Hb) as (j & w & Hj & Hw & Hrest).
           exists j, w. split; [lia|]. split; assumption.
      * intros Hw'. destruct (Hfrom _ _ Hq Hw') as (j & w & Hj & Hw & Hrest).
        exists j, w. split; [lia|]. split; assumption.
  - (* a new key: the hypothesis moves to [out] *)
    intros [= <-]. cbn [rs_traces rs_wordEndHypotheses rs_out rs_map].
    assert (Hov : out < length v) by (rewrite Hlen; lia).
    assert (Hlook : forall q, <[out := a]> v !! q = if decide (q = out) then Some a else v !! q).
    { intros q. destruct (decide (q = out)) as [->|Hne].
      - now apply list_lookup_insert_eq.
      - now apply list_lookup_insert_ne. }
    split; [now rewrite length_insert|]. split; [lia|].
    split. { rewrite drop_insert_lt by lia. now rewrite !(drop_succ _ k), Hdrop. }
    split; [|split].
    + intros x q. rewrite lookup_insert, Hlook.
      destruct (decide (key a = x)) as [<-|Hx].
      * split.
        -- intros [= <-]. destruct (decide (out = out)); [|contradiction]. split; [lia|reflexivity].
        -- intros [Hq Hkq]. destruct (decide (q = out)) as [->|Hne]; [reflexivity|].
           exfalso. assert (m !! key a = Some q) as Hc by (apply Hmap; split; [lia|assumption]).
           congruence.
      * rewrite Hmap. destruct (decide (q = out)) as [->|Hne].
        -- cbn. split; [lia|]. intros [_ [= ?]]. contradiction.
        -- split; intros [? ?]; (split; [lia|assumption]).
    + intros j w Hj Hw. destruct (decide (j = k)) as [->|Hjk].
      * rewrite Ha0 in Hw. injection Hw as <-. exists out, a.
        rewrite Hlook. destruct (decide (out = out)); [|contradiction].
        repeat split; auto. now apply F32Facts.le_refl.
      * destruct (Hmin j w ltac:(lia) Hw) as (i0 & w0 & Hi0 & Hw0 & Hk0 & Hle0).
        exists i0, w0. rewrite Hlook. destruct (decide (i0 = out)); [lia|].
        repeat split; auto.
    + intros q w' Hq. rewrite Hlook. destruct (decide (q = out)) as [->|Hne].
      * intros [= <-]. exists k, a. repeat split; auto.
      * intros Hw'. destruct (Hfrom q w' ltac:(lia) Hw') as (j & w & Hj & Hw & Hrest).
        exists j, w. split; [lia|]. split; assumption.
Qed.

Lemma recombine_loop_inv lattice v0 n : forall k st st',
  Forall (fun w => F32.proper (total (weh_score w))) v0 ->
  rec_inv v0 k st -> k + n = length v0 ->
  recombine_loop key lattice (seq k n) st = Some st' ->
  rec_inv v0 (k + n) st'.
Proof.
  induction n as [|n IH]; intros k st st' Hprop Hinv Hlen; cbn [seq recombine_loop].
  - intros [= <-]. now rewrite Nat.add_0_r.
  - destruct (recombine_step key lattice st k) as [st1|] eqn:Hstep;
      [cbn [mbind option_bind]|discriminate].
    intros Hrest. rewrite <- Nat.add_succ_comm. apply (IH (S k) st1); auto; [|lia].
    apply (recombine_step_inv lattice v0 k st); auto. lia.
Qed.

(** Without a lattice, and without a null pronunciation among the word
    ends, the traces are not touched and no step stops. *)
Lemma recombine_step_plain v0 k st :
  Forall (fun w => weh_pronunciation w <> None) v0 ->
  rec_inv v0 k st -> k < length v0 ->
  exists st', recombine_step key false st k = Some st' /\ rs_traces st' = rs_traces st.
Proof.
  intros Hnn. destruct st as [store v out m]. unfold rec_inv.
  cbn [rs_traces rs_wordEndHypotheses rs_out rs_map].
  intros (Hlen & Hout & Hdrop & Hmap & _ & Hfrom) Hk.
  destruct (lookup_lt_is_Some_2 v0 k Hk) as [a Ha0].
  assert (Ha : v !! k = Some a).
  { rewrite <- (Nat.add_0_r k), <- lookup_drop, Hdrop, lookup_drop, Nat.add_0_r.
    exact Ha0. }
  rewrite Forall_forall in Hnn.
  assert (Hna : weh_pronunciation a <> None).
  { apply Hnn, list_elem_of_lookup. eauto. }
  unfold recombine_step. cbn [rs_traces rs_wordEndHypotheses rs_out rs_map].
  rewrite Ha. cbn [mbind option_bind].
  destruct (m !! key a) as [i|] eqn:Hm; [|eauto].
  apply Hmap in Hm as [Hi _].
  destruct (lookup_lt_is_Some_2 v i ltac:(lia)) as [b Hb]. rewrite Hb.
  cbn [mbind option_bind].
  assert (Hnb : weh_pronunciation b <> None).
  { destruct (Hfrom _ _ Hi Hb) as (j & w & _ & Hj & _ & _ & _ & ->).
    apply Hnn, list_elem_of_lookup. eauto. }
  unfold recombineTwoHypotheses, incoming_better.
  destruct (weh_pronunciation a) as [ida|]; [|contradiction].
  destruct (weh_pronunciation b) as [idb|]; [|contradiction].
  destruct (F32.gtb _ _); [cbn; eauto|].
  destruct (F32.eqb _ _); cbn [mbind option_bind]; [destruct (ida <? idb)|]; cbn; eauto.
Qed.

Lemma recombine_loop_plain v0 n : forall k st,
  Forall (fun w => F32.proper (total (weh_score w))) v0 ->
  Forall (fun w => weh_pronunciation w <> None) v0 ->
  rec_inv v0 k st -> k + n = length v0 ->
  exists st', recombine_loop key false (seq k n) st = Some st' /\
              rs_traces st' = rs_traces st.
Proof.
  induction n as [|n IH]; intros k st Hprop Hnn Hinv Hlen; cbn [seq recombine_loop].
  - eauto.
  - destruct (recombine_step_plain v0 k st Hnn Hinv ltac:(lia)) as (st1 & Hstep & Ht1).
    rewrite Hstep. cbn [mbind option_bind].
    destruct (IH (S k) st1 Hprop Hnn) as (st' & Hrun & Ht); [|lia|].
    + apply (recombine_step_inv false v0 k st); auto. lia.
    + exists st'. split; [exact Hrun|congruence].
Qed.

End RecombinationResult.

(** [out] is a recombination of [wehs] under [key]: its keys are pairwise
    different; every hypothesis of [wehs] has a survivor of its key whose
    total score is not above its own; every survivor has the score, the
    trace and the pronunciation of a hypothesis of [wehs] of its key. *)
Definition recombined {K : Type} (key : WordEndHypothesis -> K)
    (wehs out : list WordEndHypothesis) : Prop :=
  NoDup (key <$> out) /\
  (forall w, w ∈ wehs ->
     exists w', w' ∈ out /\ key w' = key w /\
       F32.le (total (weh_score w')) (total (weh_score w))) /\
  (forall w', w' ∈ out ->
     exists w, w ∈ wehs /\ key w = key w' /\ weh_score w' = weh_score w /\
       weh_trace w' = weh_trace w /\ weh_pronunciation w' = weh_pronunciation w).

Section RecombinedList.

Context {K : Type} `{Countable K}.
Variable key : WordEndHypothesis -> K.
Hypothesis key_stable : forall a b, key a = key b -> key (overwrite a b) = key b.

Lemma rec_inv_start store wehs :
  rec_inv key wehs 0 (mkRecombinationState store wehs 0 ∅).
Proof.
  unfold rec_inv. cbn. split; [reflexivity|]. split; [lia|]. split; [reflexivity|].
  split; [|split].
  - intros x i. rewrite lookup_empty. split; [discriminate|lia].
  - intros j w Hj. lia.
  - intros i w Hi. lia.
Qed.

Lemma recombine_with_recombined lattice store wehs store' out :
  Forall (fun w => F32.proper (total (weh_score w))) wehs ->
  recombine_with key lattice store wehs = Some (store', out) ->
  recombined key wehs out.
Proof.
  intros Hprop. unfold recombine_with.
  destruct (recombine_loop _ _ _ _) as [st|] eqn:Hrun; [cbn [mbind option_bind]|discriminate].
  intros [= <- <-].
  pose proof (recombine_loop_inv key key_stable lattice wehs (length wehs) 0 _ st Hprop
                (rec_inv_start store wehs) eq_refl Hrun) as Hinv.
  cbn [plus] in Hinv. destruct st as [store1 v n m]. unfold rec_inv in Hinv.
  cbn [rs_traces rs_wordEndHypotheses rs_out rs_map] in *.
  destruct Hinv as (Hlen & Hout & _ & Hmap & Hmin & Hfrom).
  split; [|split].
  - apply NoDup_alt. intros i j x. rewrite !list_lookup_fmap.
    intros Hi Hj.
    assert (forall q, key <$> take n v !! q = Some x -> m !! x = Some q) as Hq.
    { intros q Hq. destruct (take n v !! q) as [w|] eqn:Hw; [|discriminate].
      apply lookup_take_Some in Hw as [Hw Hlt]. apply Hmap. split; [assumption|].
      now rewrite Hw. }
    apply Hq in Hi, Hj. congruence.
  - intros w Hw. apply list_elem_of_lookup in Hw as [j Hj].
    destruct (Hmin j w) as (i & w' & Hi & Hw' & Hk & Hle); [|assumption|].
    { now apply lookup_lt_Some in Hj. }
    exists w'. split; [|auto]. apply list_elem_of_lookup. exists i.
    now apply lookup_take_Some.
  - intros w' Hw'. apply list_elem_of_lookup in Hw' as [i Hi].
    apply lookup_take_Some in Hi as [Hi Hlt].
    destruct (Hfrom i w' Hlt Hi) as (j & w & _ & Hj & Hrest).
    exists w. split; [|exact Hrest]. apply list_elem_of_lookup. eauto.
Qed.

Lemma recombine_with_plain store wehs :
  Forall (fun w => F32.proper (total (weh_score w))) wehs ->
  Forall (fun w => weh_pronunciation w <> None) wehs ->
  exists out, recombine_with key false store wehs = Some (store, out).
Proof.
  intros Hprop Hnn. unfold recombine_with.
  destruct (recombine_loop_plain key key_stable wehs (length wehs) 0
              (mkRecombinationState store wehs 0 ∅) Hprop Hnn (rec_inv_start store wehs)
              eq_refl) as (st & Hrun & Ht).
  rewrite Hrun. cbn. rewrite Ht. eauto.
Qed.

End RecombinedList.

Lemma exactKey_stable a b : exactKey a = exactKey b -> exactKey (overwrite a b) = exactKey b.
Proof. unfold exactKey. cbn. now intros [= -> _]. Qed.

(** Outside mesh-lattice mode, on word-end hypotheses whose total scores
    are numbers, a run of [recombineWordEnds] that comes to its end leaves
    a list with pairwise different (history, transit state) keys in which
    every hypothesis of the input has a survivor of its key with a total
    score not above its own, and every survivor carries the score, trace
    and pronunciation of an input hypothesis of its key; a second run on
    the result changes nothing.  Without a lattice, and when no word end
    has a null pronunciation, the run always comes to its end and leaves
    the traces as they were (a tie between word ends of one key
    dereferences the pronunciations). *)
Theorem recombineWordEnds_keeps_best {M : Type} `{Countable M}
    (meshKey : WordEndHypothesis -> M) (decodeMesh_ : bool) (latticeMode : LatticeMode)
    (shallCreateLattice : bool) (store : TraceStore) (wehs : list WordEndHypothesis) :
  decodeMesh_ && lattice_setting latticeMode shallCreateLattice = false ->
  Forall (fun w => F32.proper (total (weh_score w))) wehs ->
  (lattice_setting latticeMode shallCreateLattice = false ->
   Forall (fun w => weh_pronunciation w <> None) wehs ->
   exists out,
     recombineWordEnds meshKey decodeMesh_ latticeMode shallCreateLattice store wehs
     = Some (store, out)) /\
  (forall store' out,
     recombineWordEnds meshKey decodeMesh_ latticeMode shallCreateLattice store wehs
     = Some (store', out) ->
     recombined exactKey wehs out /\
     recombineWordEnds meshKey decodeMesh_ latticeMode shallCreateLattice store' out
     = Some (store', out)).
Proof.
  intros Hmode Hprop. unfold recombineWordEnds. rewrite Hmode. split.
  - intros -> Hnn. apply recombine_with_plain; auto using exactKey_stable.
  - intros store' out Hrun.
    pose proof (recombine_with_recombined exactKey exactKey_stable _ _ _ _ _ Hprop Hrun)
      as Hrec.
    split; [exact Hrec|]. apply recombine_with_fresh. apply Hrec.
Qed.

Lemma recombineWordEnds_keeps_best_witness :
  (lattice_setting LatticeNo true = false ->
   Forall (fun w => weh_pronunciation w <> None) [wehStored; wehY; wehIncoming] ->
   exists out,
     recombineWordEnds weh_endExit false LatticeNo true traces3
       [wehStored; wehY; wehIncoming] = Some (traces3, out)) /\
  (forall store' out,
     recombineWordEnds weh_endExit false LatticeNo true traces3
       [wehStored; wehY; wehIncoming] = Some (store', out) ->
     recombined exactKey [wehStored; wehY; wehIncoming] out /\
     recombineWordEnds weh_endExit false LatticeNo true store' out = Some (store', out)).
Proof.
  apply (recombineWordEnds_keeps_best weh_endExit false LatticeNo true traces3
           [wehStored; wehY; wehIncoming]).
  - reflexivity.
  - repeat constructor.
Defined.

(** ** The back-off instance is created once *)

(** A call of [getBackOffInstance] that returns an instance leaves it
    linked from the parent, and a second call, with the look-ahead enabled
    or not, returns the same instance and changes nothing.  When the parent
    had no link the instance is a new one: it is appended to
    [activeInstances] but not entered into [activeInstanceMap], it has the
    key of the parent, its [backOffParent] is the parent, and the parent
    holds the back-off score of its own look-ahead history. *)
Theorem getBackOffInstance_creates_once
    (historyLenght : History -> nat) (reducedHistory : History -> nat -> History)
    (getBackOffScores : History -> Score) (p c : nat)
    (ss ss1 : SearchSpace) (inst : Instance) :
  instance_at ss p = Some inst ->
  getBackOffInstance historyLenght reducedHistory getBackOffScores true p ss
    = Some (ss1, Some c) ->
  (forall lmLookahead_,
     getBackOffInstance historyLenght reducedHistory getBackOffScores lmLookahead_ p ss1
     = Some (ss1, Some c)) /\
  (exists parent, instance_at ss1 p = Some parent /\ backOffInstance parent = Some c) /\
  (backOffInstance inst = None ->
   c = length (instances ss) /\
   activeInstances ss1 = activeInstances ss ++ [c] /\
   activeInstanceMap ss1 = activeInstanceMap ss /\
   stateHypotheses ss1 = stateHypotheses ss /\
   exists parent child,
     instance_at ss1 p = Some parent /\ instance_at ss1 c = Some child /\
     key child = key inst /\ backOffParent child = Some p /\
     states_begin child = states_end child /\
     historyLenght (lookAheadHistory child) + 1 = historyLenght (lookAheadHistory inst) /\
     backOffScore parent = getBackOffScores (lookAheadHistory inst)).
Proof.
  intros Hp. unfold getBackOffInstance at 1. rewrite Hp. cbn [mbind option_bind].
  destruct (backOffInstance inst) as [b|] eqn:Hb.
  - rewrite bool_decide_eq_true_2 by discriminate. cbn [orb]. intros [= <- <-].
    split; [|split; [eauto|discriminate]].
    intros l. unfold getBackOffInstance. rewrite Hp. cbn [mbind option_bind].
    rewrite Hb. now rewrite bool_decide_eq_true_2 by discriminate.
  - rewrite bool_decide_eq_false_2 by (intros Hn; now apply Hn). cbn [orb negb].
    destruct (Nat.eqb_spec (historyLenght (lookAheadHistory inst)) 0) as [|Hlen];
      [discriminate|].
    destruct (Nat.eqb_spec
                (historyLenght (reducedHistory (lookAheadHistory inst)
                                  (historyLenght (lookAheadHistory inst) - 1)))
                (historyLenght (lookAheadHistory inst) - 1)) as [Hr|];
      [cbn [verify mbind option_bind]|discriminate].
    destruct (verify _); [cbn [mbind option_bind]|discriminate].
    intros [= <- <-].
    destruct (create_backOff_shape p (key inst)
                (reducedHistory (lookAheadHistory inst)
                   (historyLenght (lookAheadHistory inst) - 1))
                (getBackOffScores (lookAheadHistory inst)) ss inst Hp)
      as (Hact & Hst & _ & _ & Hat).
    pose proof (instance_at_lt _ _ _ Hp) as Hlt.
    assert (Hparent : instance_at
              (create_backOff p (key inst)
                 (reducedHistory (lookAheadHistory inst)
                    (historyLenght (lookAheadHistory inst) - 1))
                 (getBackOffScores (lookAheadHistory inst)) ss) p
            = Some (set_backOffScore (getBackOffScores (lookAheadHistory inst))
                      (set_backOffInstance (Some (length (instances ss))) inst))).
    { rewrite Hat. destruct (decide (p = length (instances ss))); [lia|].
      now destruct (decide (p = p)). }
    split; [|split].
    + intros l. unfold getBackOffInstance. rewrite Hparent. cbn [mbind option_bind].
      cbn [backOffInstance set_backOffScore set_backOffInstance].
      now rewrite bool_decide_eq_true_2 by discriminate.
    + eexists. split; [exact Hparent|reflexivity].
    + intros _. split; [reflexivity|]. split; [exact Hact|]. split; [reflexivity|].
      split; [exact Hst|]. eexists _, _. split; [exact Hparent|]. split.
      { rewrite Hat. now destruct (decide (length (instances ss) = length (instances ss))). }
      cbn. repeat split; auto. rewrite Hr. lia.
Qed.

Lemma getBackOffInstance_creates_once_witness :
  exists ss1,
    getBackOffInstance exampleLength exampleReduced exampleBackOffScore true 0 oneInstance
      = Some (ss1, Some 1) /\
    (forall lmLookahead_,
       getBackOffInstance exampleLength exampleReduced exampleBackOffScore lmLookahead_ 0 ss1
       = Some (ss1, Some 1)) /\
    activeInstances ss1 = [0; 1] /\
    activeInstanceMap ss1 = activeInstanceMap oneInstance.
Proof.
  destruct (getBackOffInstance exampleLength exampleReduced exampleBackOffScore true 0
              oneInstance) as [[ss1 r]|] eqn:E; [|vm_compute in E; discriminate].
  assert (Hr : r = Some 1) by (vm_compute in E; now injection E as _ <-).
  subst r. exists ss1. split; [reflexivity|].
  destruct (getBackOffInstance_creates_once exampleLength exampleReduced
              exampleBackOffScore 0 1 oneInstance ss1 _ eq_refl E)
    as (Hagain & _ & Hnew).
  split; [exact Hagain|]. destruct (Hnew eq_refl) as (_ & Hact & Hmap & _).
  split; [exact Hact|exact Hmap].
Defined.

(** ** Pruning word ends by an absolute threshold *)

(** The loop of [pruneWordEnds] over the positions from [in_] on: a
    hypothesis whose total score is not above the threshold moves down to
    [out]. *)
Fixpoint pruneWordEnds_loop (absoluteScoreThreshold : Score) (n in_ out : nat)
    (v : list WordEndHypothesis) : option (list WordEndHypothesis * nat) :=
  match n with
  | 0 => Some (v, out)
  | S n' =>
      w ← v !! in_;
      if F32.leb (total (weh_score w)) absoluteScoreThreshold
      then pruneWordEnds_loop absoluteScoreThreshold n' (S in_) (S out) (<[out := w]> v)
      else pruneWordEnds_loop absoluteScoreThreshold n' (S in_) out v
  end.

(** [SearchSpace::pruneWordEnds]: the loop and
    [wordEndHypotheses.erase(out, end)]. *)
Definition pruneWordEnds (absoluteScoreThreshold : Score)
    (wordEndHypotheses : list WordEndHypothesis) : option (list WordEndHypothesis) :=
  r ← pruneWordEnds_loop absoluteScoreThreshold (length wordEndHypotheses) 0 0
        wordEndHypotheses;
  Some (take r.2 r.1).

(** The word ends whose total score is not above the threshold. *)
Definition below (absoluteScoreThreshold : Score) (l : list WordEndHypothesis)
  : list WordEndHypothesis :=
  List.filter (fun w => F32.leb (total (weh_score w)) absoluteScoreThreshold) l.

Section PruneWordEnds.

Variable thr : Score.

Lemma below_app l1 l2 : below thr (l1 ++ l2) = below thr l1 ++ below thr l2.
Proof. apply List.filter_app. Qed.

Lemma below_below l : below thr (below thr l) = below thr l.
Proof.
  unfold below. induction l as [|w l IH]; [reflexivity|]. cbn.
  destruct (F32.leb (total (weh_score w)) thr) eqn:E; [|exact IH].
  cbn. now rewrite E, IH.
Qed.

Lemma pruneWordEnds_loop_spec n : forall in_ out v,
  out <= in_ -> in_ + n <= length v ->
  exists v' out',
    pruneWordEnds_loop thr n in_ out v = Some (v', out') /\
    length v' = length v /\ out' <= in_ + n /\
    take out' v' = take out v ++ below thr (take n (drop in_ v)).
Proof.
  induction n as [|n IH]; intros in_ out v Hle Hlen; cbn [pruneWordEnds_loop].
  - exists v, out. cbn. rewrite app_nil_r. repeat split; auto; lia.
  - destruct (lookup_lt_is_Some_2 v in_ ltac:(lia)) as [w Hw]. rewrite Hw.
    cbn [mbind option_bind].
    rewrite (drop_S v w in_ Hw). cbn [take below List.filter].
    destruct (F32.leb (total (weh_score w)) thr) eqn:E.
    + destruct (IH (S in_) (S out) (<[out := w]> v)) as (v' & out' & Hrun & Hl & Ho & Ht);
        [lia|rewrite length_insert; lia|].
      exists v', out'. split; [exact Hrun|]. rewrite length_insert in Hl.
      split; [exact Hl|]. split; [lia|]. rewrite Ht.
      rewrite (take_S_r _ _ w) by (apply list_lookup_insert_eq; lia).
      rewrite take_insert_ge by lia. rewrite drop_insert_lt by lia.
      now rewrite <- app_assoc.
    + destruct (IH (S in_) out v) as (v' & out' & Hrun & Hl & Ho & Ht); [lia|lia|].
      exists v', out'. split; [exact Hrun|]. split; [exact Hl|]. split; [lia|exact Ht].
Qed.

End PruneWordEnds.

(** [pruneWordEnds] always comes to its end and leaves exactly the word
    ends whose total score is not above the threshold, in their order; a
    second pass with the same threshold removes nothing more, and with a
    threshold that is not a number nothing is left. *)
Theorem pruneWordEnds_keeps_below (absoluteScoreThreshold : Score)
    (wordEndHypotheses : list WordEndHypothesis) :
  pruneWordEnds absoluteScoreThreshold wordEndHypotheses
    = Some (below absoluteScoreThreshold wordEndHypotheses) /\
  pruneWordEnds absoluteScoreThreshold (below absoluteScoreThreshold wordEndHypotheses)
    = Some (below absoluteScoreThreshold wordEndHypotheses) /\
  (F32.is_nan absoluteScoreThreshold = true ->
   pruneWordEnds absoluteScoreThreshold wordEndHypotheses = Some []).
Proof.
  assert (Hrun : forall l, pruneWordEnds absoluteScoreThreshold l
                           = Some (below absoluteScoreThreshold l)).
  { intros l. unfold pruneWordEnds.
    destruct (pruneWordEnds_loop_spec absoluteScoreThreshold (length l) 0 0 l)
      as (v' & out' & Hrun & _ & _ & Ht); [lia|lia|].
    rewrite Hrun. cbn. rewrite Ht. cbn. now rewrite firstn_all. }
  split; [apply Hrun|]. split.
  - rewrite Hrun. now rewrite below_below.
  - intros Hnan. rewrite Hrun. f_equal. unfold below.
    induction wordEndHypotheses as [|w l IH]; [reflexivity|]. cbn.
    replace (F32.leb (total (weh_score w)) absoluteScoreThreshold) with false; [exact IH|].
    destruct absoluteScoreThreshold; try discriminate.
    unfold F32.leb, SFleb. now destruct (total (weh_score w)).
Qed.

(** ** The claims on expansion and on the instance slices *)

(** C6: on a network whose successor encodings agree at the state of the
    hypothesis, and with a second-order table that has the entries of the
    state, the fast expansion [expandState] comes to its end exactly when
    the slow expansion [expandStateSlow<true, allowSkip>] does, and then a
    (successor state, score) update is made by the one exactly when it is
    made by the other, and as often; the only further call of the fast
    expansion is its own loop update. *)
Theorem expandState_successor_updates_of_slow (net : HMMStateNetwork) (table : list Z)
    (allowSkip : bool) (hyp : StateHypothesis) :
  encodings_agree net (state hyp) ->
  second_order_ok table (state hyp) ->
  (expandState net table allowSkip hyp = None <->
   expandStateSlow net table true allowSkip hyp = None) /\
  forall fast slow,
    expandState net table allowSkip hyp = Some fast ->
    expandStateSlow net table true allowSkip hyp = Some slow ->
    (forall q sc, (q, sc) ∈ successor_updates fast <-> (q, sc) ∈ successor_updates slow) /\
    successor_updates fast ≡ₚ successor_updates slow /\
    fast ≡ₚ loop_update net hyp ++ slow.
Proof.
  intros [Hsingle Hrange] (secondStart & secondEnd & HS & HE & Hz).
  assert (Hgoal : match expandState net table allowSkip hyp,
                        expandStateSlow net table true allowSkip hyp with
                  | Some fast, Some slow => fast ≡ₚ loop_update net hyp ++ slow
                  | None, None => True
                  | _, _ => False
                  end).
  { unfold expandState.
    fold (loop_update net hyp).
    destruct (Z.eqb_spec (Z.land (state_successors net (state hyp))
                            (SingleSuccessorBatchMask net))
                (SingleSuccessorBatchMask net)) as [Hm|Hm].
    - exact (fast_matches_slow net table allowSkip hyp _ _ _ HS HE Hz (Hsingle Hm)).
    - destruct (Z.eqb_spec (batchSuccessorsSimpleIgnoreLabels net
                              (state_successors net (state hyp))).1 (-1)) as [Hb|Hb].
      + destruct (expandStateSlow net table true allowSkip hyp); cbn; [reflexivity|exact I].
      + exact (fast_matches_slow net table allowSkip hyp _ _ _ HS HE Hz (Hrange Hm Hb)). }
  destruct (expandState net table allowSkip hyp) as [fast|],
           (expandStateSlow net table true allowSkip hyp) as [slow|];
    try contradiction.
  - split; [split; discriminate|]. intros f s [= <-] [= <-].
    assert (Hperm : successor_updates fast ≡ₚ successor_updates slow).
    { rewrite (successor_updates_Permutation _ _ Hgoal).
      unfold successor_updates. rewrite omap_app.
      fold (successor_updates (loop_update net hyp)).
      now rewrite successor_updates_loop. }
    split; [|split; [exact Hperm|exact Hgoal]].
    intros q sc. now rewrite Hperm.
  - split; [tauto|]. discriminate.
Qed.

Lemma expandState_successor_updates_of_slow_witness :
  (expandState exampleNetwork exampleTable true (mkStateHypothesis 1 7 F32.zero F32.zero)
   = None <->
   expandStateSlow exampleNetwork exampleTable true true
     (mkStateHypothesis 1 7 F32.zero F32.zero) = None) /\
  forall fast slow,
    expandState exampleNetwork exampleTable true (mkStateHypothesis 1 7 F32.zero F32.zero)
      = Some fast ->
    expandStateSlow exampleNetwork exampleTable true true
      (mkStateHypothesis 1 7 F32.zero F32.zero) = Some slow ->
    (forall q sc, (q, sc) ∈ successor_updates fast <-> (q, sc) ∈ successor_updates slow) /\
    successor_updates fast ≡ₚ successor_updates slow /\
    fast ≡ₚ loop_update exampleNetwork (mkStateHypothesis 1 7 F32.zero F32.zero) ++ slow.
Proof.
  apply (expandState_successor_updates_of_slow exampleNetwork exampleTable true
           (mkStateHypothesis 1 7 F32.zero F32.zero)).
  - apply exampleNetwork_agrees.
  - apply exampleTable_ok. cbn. lia.
Defined.



(** ** The sentence end *)

(** [Bliss::Phoneme::Id], a 16 bit integer. *)
Abbreviation PhonemeId := Z.
(** [const Bliss::Lemma*], by the number of the lemma. *)
Abbreviation LemmaPtr := nat.

(** [SearchAlgorithm::RecognitionContext], by the members [getSentenceEnd]
    reads. *)
Record RecognitionContext := mkRecognitionContext {
  latticeMode : LatticeMode;
  finalCoarticulation : PhonemeId * PhonemeId;
  suffix : list LemmaPtr
}.

(** [network_] of class [PersistentStateTree] (not part of the sources), by
    the members the sentence end reads; [rootTransitDescriptions] is a
    [std::map] and is listed in the order of its keys, [stateCount] is
    [network_.structure.stateCount()]. *)
Record PersistentStateTree := mkPersistentStateTree {
  rootState : StateId;
  ciRootState : StateId;
  uncoarticulatedWordEndStates : gset StateId;
  coarticulatedRootStates : gset StateId;
  rootTransitDescriptions : list (StateId * (PhonemeId * PhonemeId));
  stateCount : nat
}.

(** The item [TraceManager::traceItem(id)] of a trace id, by the members
    that are read ([TraceManager] is not part of the sources). *)
Record TraceItem := mkTraceItem {
  ti_trace : TraceRef;
  ti_history : History;
  ti_lookaheadHistory : History;
  ti_range : nat
}.

(** Modelled from the spec: [Core::Application::criticalError] is not part
    of the sources; an "ambiguous root-coarticulation lookup" is "fatal --
    reported via hard assertion/critical error, not recoverable mid-run":
    the run stops. *)
Definition criticalError {A : Type} : option A := None.

(** The locals of [getSentenceEnd]: the store of traces, [best] and
    [bestScore]. *)
Record SentenceEnd := mkSentenceEnd {
  se_store : TraceStore;
  se_best : TraceRef;
  se_bestScore : Score
}.

(** A candidate of the sentence end: the trace it continues, the score
    vector of its sentence end trace and whether it is a state hypothesis. *)
Record Candidate := mkCandidate {
  cand_trace : TraceRef;
  cand_score : ScoreVector;
  cand_state : bool
}.

(** Candidate [c] at position [i] has the lowest total score, and every
    candidate before it a higher one. *)
Definition first_candidate (cs : list Candidate) (i : nat) (c : Candidate) : Prop :=
  cs !! i = Some c /\
  (forall j cj, cs !! j = Some cj -> F32.le (total (cand_score c)) (total (cand_score cj))) /\
  (forall j cj, j < i -> cs !! j = Some cj ->
                F32.lt (total (cand_score c)) (total (cand_score cj))).

(** Two trace objects that differ in the sibling at most. *)
Definition same_trace (t t' : Trace) : Prop :=
  predecessor t' = predecessor t /\ tr_pronunciation t' = tr_pronunciation t /\
  tr_time t' = tr_time t /\ tr_score t' = tr_score t /\ tr_transit t' = tr_transit t.

(** The traces of [store] are in [store'], up to their siblings. *)
Definition extends (store store' : TraceStore) : Prop :=
  forall r t, deref store r = Some t ->
    exists t', deref store' r = Some t' /\ same_trace t t'.

Section TraceStores.

Lemma same_trace_refl t : same_trace t t.
Proof. repeat split. Qed.

Lemma same_trace_trans t1 t2 t3 : same_trace t1 t2 -> same_trace t2 t3 -> same_trace t1 t3.
Proof.
  intros (A1 & A2 & A3 & A4 & A5) (B1 & B2 & B3 & B4 & B5).
  repeat split; congruence.
Qed.

Lemma extends_refl store : extends store store.
Proof. intros r t Hr. exists t. split; [exact Hr|apply same_trace_refl]. Qed.

Lemma extends_trans s1 s2 s3 : extends s1 s2 -> extends s2 s3 -> extends s1 s3.
Proof.
  intros H12 H23 r t Hr.
  destruct (H12 r t Hr) as (t2 & Hr2 & E2).
  destruct (H23 r t2 Hr2) as (t3 & Hr3 & E3).
  exists t3. split; [exact Hr3|]. now apply (same_trace_trans t t2 t3).
Qed.

Lemma deref_new t store : deref (store ++ [t]) (Some (length store)) = Some t.
Proof.
  unfold deref. cbn. rewrite lookup_app_r by lia.
  now replace (length store - length store) with 0 by lia.
Qed.

Lemma extends_new t store : extends store (store ++ [t]).
Proof.
  intros r t0 Hr. exists t0. split; [|apply same_trace_refl].
  unfold deref in *. destruct r as [i|]; [cbn in *|discriminate].
  now apply lookup_app_l_Some.
Qed.

Lemma extends_set_sibling r s store store' :
  set_sibling r s store = Some store' -> extends store store'.
Proof.
  unfold set_sibling. destruct r as [i|]; [cbn|discriminate].
  destruct (store !! i) as [ti|] eqn:Hi; [cbn|discriminate]. intros [= <-].
  intros r t Hr. unfold deref in *. destruct r as [j|]; [cbn in *|discriminate].
  destruct (decide (i = j)) as [->|Hne].
  - rewrite list_lookup_insert_eq by now apply lookup_lt_Some in Hi.
    eexists. split; [reflexivity|]. rewrite Hi in Hr. injection Hr as <-.
    repeat split.
  - rewrite list_lookup_insert_ne by exact Hne.
    exists t. split; [exact Hr|apply same_trace_refl].
Qed.

End TraceStores.

Section SentenceEnd.

Variable network_ : PersistentStateTree.
(** [Bliss::Phoneme::term]. *)
Variable term : PhonemeId.
(** [encodeState()], defined in SearchSpace.hh. *)
Variable encodeState : bool.
Variable recognitionContext_ : RecognitionContext.
Variable globalScoreOffset_ : Score.
(** [Lm::addLemmaScore(lm_, lemma, lm_->scale(), h, score)] updates the
    history and the score; [lm_->sentenceEndScore(h)]. *)
Variable addLemmaScore : LemmaPtr -> History -> Score -> History * Score.
Variable sentenceEndScore : History -> Score.
Variable epsilonLemmaPronunciation : PronunciationPtr.
(** The items of the trace manager, by trace id. *)
Variable traceItems : list TraceItem.

(** The union of [rootForCoarticulation] and [describeRootState]: the two
    phoneme ids are the low and the high half of the 32 bit state id. *)
Definition coart_bits (c : PhonemeId * PhonemeId) : Z :=
  c.1 mod 65536 + 65536 * (c.2 mod 65536).

(** The loop of [rootForCoarticulation] over the root transit
    descriptions; a second state of the same description is a critical
    error. *)
Fixpoint find_root (ds : list (StateId * (PhonemeId * PhonemeId)))
    (coarticulation : PhonemeId * PhonemeId) (root : StateId) : option StateId :=
  match ds with
  | [] => Some root
  | (q, d) :: ds' =>
      if bool_decide (d = coarticulation) then
        if negb (root =? 0) then criticalError
        else find_root ds' coarticulation q
      else find_root ds' coarticulation root
  end.

(** [SearchSpace::rootForCoarticulation]; the [assert] is taken as
    checked. *)
Definition rootForCoarticulation (coarticulation : PhonemeId * PhonemeId)
  : option StateId :=
  if bool_decide (coarticulation.1 = term) && bool_decide (coarticulation.2 = term) then
    Some (rootState network_)
  else if encodeState then
    let root := coart_bits coarticulation in
    _ ← verify (Z.testbit root 31);
    let root := Z.land root (2 ^ 31 - 1) in
    _ ← verify (negb (root =? 0)%Z && (root <? Z.of_nat (stateCount network_))%Z);
    Some (Z.to_nat root)
  else
    root ← find_root (rootTransitDescriptions network_) coarticulation 0;
    if root =? 0 then criticalError else Some root.

(** [SearchSpace::describeRootState]: a trace keeps the description of a
    root state as the state it describes (see [Trace]); with [encodeState]
    the description is the state id itself, split into two halves. *)
Definition describeRootState (state : StateId) : option StateId := Some state.

(** [forceRoot] of [getSentenceEnd]. *)
Definition forcedRoot : option StateId :=
  if negb (bool_decide ((finalCoarticulation recognitionContext_).1 = term))
     || negb (bool_decide ((finalCoarticulation recognitionContext_).2 = term))
  then rootForCoarticulation (finalCoarticulation recognitionContext_)
  else Some 0.

(** The loop over [recognitionContext_.suffix]. *)
Fixpoint addSuffix (ls : list LemmaPtr) (h : History) (sc : Score) : History * Score :=
  match ls with
  | [] => (h, sc)
  | l :: ls' => let '(h', sc') := addLemmaScore l h sc in addSuffix ls' h' sc'
  end.

(** The language model scores of the sentence end: the suffix lemmas, then
    [t->score.lm += lm_->sentenceEndScore(h)]. *)
Definition addSentenceEnd (h : History) (v : ScoreVector) : ScoreVector :=
  let '(h', sc) := addSuffix (suffix recognitionContext_) h (lm v) in
  mkScoreVector (acoustic v) (F32.add sc (sentenceEndScore h')).

(** The test of the first loop on the transit state of a word end. *)
Definition wordEnd_allowed (forceRoot : StateId) (weh : WordEndHypothesis) : bool :=
  if negb (forceRoot =? 0) then weh_transitState weh =? forceRoot
  else (weh_transitState weh =? rootState network_)
       || (weh_transitState weh =? ciRootState network_)
       || bool_decide (weh_transitState weh ∈ uncoarticulatedWordEndStates network_).

(** The body of the first loop of [getSentenceEnd].  A new trace has no
    sibling; the object is written to the store with the fields it has at
    the end of the body, nothing refers to it before, and a trace that is
    neither selected nor made a sibling is released.  The path trace is
    left out. *)
Definition wordEnd_body (time : TimeframeIndex) (shallCreateLattice : bool)
    (forceRoot : StateId) (st : SentenceEnd) (weh : WordEndHypothesis)
  : option SentenceEnd :=
  if negb (wordEnd_allowed forceRoot weh) then Some st
  else
    let sc := mkScoreVector (F32.add (acoustic (weh_score weh)) globalScoreOffset_)
                            (lm (weh_score weh)) in
    _ ← verify (bool_decide (weh_history weh <> None));
    let sc := addSentenceEnd (weh_history weh) sc in
    let t := mkTrace (weh_trace weh) None None time sc
                     (describeRootState (weh_transitState weh)) in
    better ← match se_best st with
             | None => Some true
             | Some _ => b ← deref (se_store st) (se_best st);
                         Some (F32.gtb (total (tr_score b)) (total sc))
             end;
    if (better : bool) then
      let t := if shallCreateLattice
               then mkTrace (predecessor t) (se_best st) (tr_pronunciation t) (tr_time t)
                            (tr_score t) (tr_transit t)
               else t in
      let '(store, r) := new_trace t (se_store st) in
      Some (mkSentenceEnd store r (total sc))
    else if shallCreateLattice then
      b ← deref (se_store st) (se_best st);
      let t := mkTrace (predecessor t) (sibling b) (tr_pronunciation t) (tr_time t)
                       (tr_score t) (tr_transit t) in
      let '(store, r) := new_trace t (se_store st) in
      store ← set_sibling (se_best st) r store;
      Some (mkSentenceEnd store (se_best st) (se_bestScore st))
    else Some st.

Fixpoint wordEnd_loop (time : TimeframeIndex) (shallCreateLattice : bool)
    (forceRoot : StateId) (wehs : list WordEndHypothesis) (st : SentenceEnd)
  : option SentenceEnd :=
  match wehs with
  | [] => Some st
  | weh :: wehs' =>
      st' ← wordEnd_body time shallCreateLattice forceRoot st weh;
      wordEnd_loop time shallCreateLattice forceRoot wehs' st'
  end.

(** The test of the second loop on the state of a state hypothesis. *)
Definition state_allowed (forceRoot : StateId) (hyp : StateHypothesis) : bool :=
  if negb (forceRoot =? 0) then state hyp =? forceRoot
  else bool_decide (state hyp ∈ uncoarticulatedWordEndStates network_).

(** The score of the epsilon item of a state hypothesis of instance [at]. *)
Definition epsilon_score (at_ : Instance) (hyp : StateHypothesis) (traceScore : ScoreVector)
  : ScoreVector :=
  let sc := F32.add (score hyp) globalScoreOffset_ in
  mkScoreVector (F32.sub (F32.sub sc (lm traceScore)) (totalBackOffOffset at_))
                (lm traceScore).

(** [time - 1] on [TimeframeIndex], an unsigned 32 bit integer. *)
Definition previous_time (time : TimeframeIndex) : TimeframeIndex :=
  if time =? 0 then Z.to_nat (2 ^ 32 - 1) else time - 1.

(** The body of the second loop of [getSentenceEnd], for a state hypothesis
    of instance [at]. *)
Definition state_body (time : TimeframeIndex) (shallCreateLattice : bool)
    (forceRoot : StateId) (at_ : Instance) (st : SentenceEnd) (hyp : StateHypothesis)
  : option SentenceEnd :=
  if negb (state_allowed forceRoot hyp) then Some st
  else
    item ← traceItems !! trace hyp;
    tr ← deref (se_store st) (ti_trace item);
    let scores := epsilon_score at_ hyp (tr_score tr) in
    let '(store, r1) :=
      new_trace (mkTrace (ti_trace item) None epsilonLemmaPronunciation
                         (previous_time time) scores
                         (if encodeState then describeRootState (state hyp) else None))
                (se_store st) in
    _ ← verify (bool_decide (ti_history item <> None));
    let sc := addSentenceEnd (ti_history item) scores in
    let t := mkTrace r1 None None time sc (describeRootState (rootState network_)) in
    if F32.ltb (total sc) (se_bestScore st) then
      let t := if shallCreateLattice
               then mkTrace (predecessor t) (se_best st) (tr_pronunciation t) (tr_time t)
                            (tr_score t) (tr_transit t)
               else t in
      let '(store, r) := new_trace t store in
      Some (mkSentenceEnd store r (total sc))
    else if shallCreateLattice then
      b ← deref store (se_best st);
      let t := mkTrace (predecessor t) (sibling b) (tr_pronunciation t) (tr_time t)
                       (tr_score t) (tr_transit t) in
      let '(store, r) := new_trace t store in
      store ← set_sibling (se_best st) r store;
      Some (mkSentenceEnd store (se_best st) (se_bestScore st))
    else Some st.

Fixpoint state_loop (time : TimeframeIndex) (shallCreateLattice : bool)
    (forceRoot : StateId) (at_ : Instance) (hyps : list StateHypothesis) (st : SentenceEnd)
  : option SentenceEnd :=
  match hyps with
  | [] => Some st
  | hyp :: hyps' =>
      st' ← state_body time shallCreateLattice forceRoot at_ st hyp;
      state_loop time shallCreateLattice forceRoot at_ hyps' st'
  end.

(** The state hypotheses [stateHypotheses.begin() + at.states.begin] up to
    [stateHypotheses.begin() + at.states.end]; the iterators have to lie
    inside the vector, one after the other. *)
Definition instance_hypotheses (ss : SearchSpace) (at_ : Instance)
  : option (list StateHypothesis) :=
  _ ← defined ((states_begin at_ <=? states_end at_)
               && (states_end at_ <=? length (stateHypotheses ss)));
  Some (take (states_end at_ - states_begin at_)
             (drop (states_begin at_) (stateHypotheses ss))).

Fixpoint instance_loop (time : TimeframeIndex) (shallCreateLattice : bool)
    (forceRoot : StateId) (ss : SearchSpace) (insts : list nat) (st : SentenceEnd)
  : option SentenceEnd :=
  match insts with
  | [] => Some st
  | p :: insts' =>
      at_ ← instance_at ss p;
      hyps ← instance_hypotheses ss at_;
      st' ← state_loop time shallCreateLattice forceRoot at_ hyps st;
      instance_loop time shallCreateLattice forceRoot ss insts' st'
  end.

(** [SearchSpace::getSentenceEnd]: the store of traces, the trace returned
    and the new value of [hadWordEnd_]. *)
Definition getSentenceEnd (time : TimeframeIndex) (shallCreateLattice : bool)
    (wordEndHypotheses : list WordEndHypothesis) (ss : SearchSpace) (store : TraceStore)
  : option (TraceStore * TraceRef * bool) :=
  let shallCreateLattice :=
    lattice_setting (latticeMode recognitionContext_) shallCreateLattice in
  forceRoot ← forcedRoot;
  st ← wordEnd_loop time shallCreateLattice forceRoot wordEndHypotheses
         (mkSentenceEnd store None F32.max);
  _ ← verify ((forceRoot =? 0)
              || negb (bool_decide (uncoarticulatedWordEndStates network_ = ∅))
              || bool_decide (forceRoot ∈ coarticulatedRootStates network_));
  st ← (if negb (bool_decide (uncoarticulatedWordEndStates network_ = ∅)) then
          instance_loop time shallCreateLattice forceRoot ss (activeInstances ss) st
        else Some st);
  Some (se_store st, se_best st, bool_decide (se_best st <> None)).

(** *** What the sentence end selects *)

(** The candidates the two loops compare, in the order of the scan: the
    trace a candidate continues, the score vector of its sentence end trace
    and whether it comes from a state hypothesis. *)
Definition wordEnd_score (weh : WordEndHypothesis) : ScoreVector :=
  addSentenceEnd (weh_history weh)
    (mkScoreVector (F32.add (acoustic (weh_score weh)) globalScoreOffset_)
                   (lm (weh_score weh))).

Fixpoint wordEnd_candidates (forceRoot : StateId) (wehs : list WordEndHypothesis)
  : option (list Candidate) :=
  match wehs with
  | [] => Some []
  | weh :: wehs' =>
      if negb (wordEnd_allowed forceRoot weh) then wordEnd_candidates forceRoot wehs'
      else
        _ ← verify (bool_decide (weh_history weh <> None));
        cs ← wordEnd_candidates forceRoot wehs';
        Some (mkCandidate (weh_trace weh) (wordEnd_score weh) false :: cs)
  end.

Definition state_candidate (store : TraceStore) (at_ : Instance) (hyp : StateHypothesis)
  : option Candidate :=
  item ← traceItems !! trace hyp;
  tr ← deref store (ti_trace item);
  _ ← verify (bool_decide (ti_history item <> None));
  Some (mkCandidate (ti_trace item)
          (addSentenceEnd (ti_history item) (epsilon_score at_ hyp (tr_score tr))) true).

Fixpoint state_candidates (forceRoot : StateId) (store : TraceStore) (at_ : Instance)
    (hyps : list StateHypothesis) : option (list Candidate) :=
  match hyps with
  | [] => Some []
  | hyp :: hyps' =>
      if negb (state_allowed forceRoot hyp) then state_candidates forceRoot store at_ hyps'
      else
        c ← state_candidate store at_ hyp;
        cs ← state_candidates forceRoot store at_ hyps';
        Some (c :: cs)
  end.

Fixpoint instance_candidates (forceRoot : StateId) (store : TraceStore) (ss : SearchSpace)
    (insts : list nat) : option (list Candidate) :=
  match insts with
  | [] => Some []
  | p :: insts' =>
      at_ ← instance_at ss p;
      hyps ← instance_hypotheses ss at_;
      cs ← state_candidates forceRoot store at_ hyps;
      cs' ← instance_candidates forceRoot store ss insts';
      Some (cs ++ cs')
  end.

(** The candidates of a sentence end: the allowed word ends, then, when the
    network has uncoarticulated word end states, the allowed state
    hypotheses of the active instances.  There is no list when a history is
    invalid or an instance, a slice or a trace cannot be read. *)
Definition sentenceEnd_candidates (forceRoot : StateId) (wehs : list WordEndHypothesis)
    (ss : SearchSpace) (store : TraceStore) : option (list Candidate) :=
  cs ← wordEnd_candidates forceRoot wehs;
  cs' ← (if negb (bool_decide (uncoarticulatedWordEndStates network_ = ∅)) then
           instance_candidates forceRoot store ss (activeInstances ss)
         else Some []);
  Some (cs ++ cs').

(** The trace [best] of the store is the sentence end trace of candidate
    [c]: it has the candidate's score and the time of the call, and
    continues the candidate's trace, through the epsilon item when the
    candidate is a state hypothesis. *)
Definition ends_with (store : TraceStore) (best : TraceRef) (time : TimeframeIndex)
    (c : Candidate) : Prop :=
  exists t, deref store best = Some t /\
    tr_score t = cand_score c /\ tr_time t = time /\ tr_pronunciation t = None /\
    if cand_state c then
      exists e, deref store (predecessor t) = Some e /\
        predecessor e = cand_trace c /\
        tr_pronunciation e = epsilonLemmaPronunciation /\
        tr_time e = previous_time time
    else predecessor t = cand_trace c.

(** What the loops know after the candidates [cs]. *)
Definition selected (store0 : TraceStore) (time : TimeframeIndex) (cs : list Candidate)
    (st : SentenceEnd) : Prop :=
  extends store0 (se_store st) /\
  ((cs = [] /\ se_best st = None /\ se_bestScore st = F32.max) \/
   (exists i c, first_candidate cs i c /\ ends_with (se_store st) (se_best st) time c /\
                se_bestScore st = total (cand_score c))).

(** A candidate the loops can compare: its total score is a number, and
    below [F32_MAX] for a state hypothesis, which is compared with the
    initial [bestScore]. *)
Definition comparable (c : Candidate) : Prop :=
  F32.proper (total (cand_score c)) /\
  (cand_state c = true -> F32.lt (total (cand_score c)) F32.max).

Lemma ends_with_extends store store' best time c :
  extends store store' -> ends_with store best time c -> ends_with store' best time c.
Proof.
  intros Hext (t & Ht & Hsc & Htime & Hpron & Hpred).
  destruct (Hext _ _ Ht) as (t' & Ht' & E1 & E2 & E3 & E4 & E5).
  exists t'. split; [exact Ht'|]. repeat split; try congruence.
  destruct (cand_state c).
  - destruct Hpred as (e & He & P1 & P2 & P3).
    destruct (Hext _ _ He) as (e' & He' & F1 & F2 & F3 & F4 & F5).
    exists e'. rewrite E1. split; [exact He'|]. repeat split; congruence.
  - congruence.
Qed.

Lemma first_candidate_keep cs i c c' :
  F32.le (total (cand_score c)) (total (cand_score c')) ->
  first_candidate cs i c -> first_candidate (cs ++ [c']) i c.
Proof.
  intros Hle (Hi & Hmin & Hfirst). split; [|split].
  - now apply lookup_app_l_Some.
  - intros j cj Hj. apply lookup_app_Some in Hj as [Hj|[_ Hj]]; [eauto|].
    apply list_lookup_singleton_Some in Hj as [_ <-]. exact Hle.
  - intros j cj Hlt Hj. apply lookup_app_Some in Hj as [Hj|[Hge _]]; [eauto|].
    apply lookup_lt_Some in Hi. lia.
Qed.

Lemma first_candidate_new cs i c c' :
  Forall comparable cs -> comparable c' ->
  F32.lt (total (cand_score c')) (total (cand_score c)) ->
  first_candidate cs i c -> first_candidate (cs ++ [c']) (length cs) c'.
Proof.
  intros Hall [Hc' _] Hlt (Hi & Hmin & Hfirst).
  assert (Hc : F32.proper (total (cand_score c))).
  { rewrite Forall_forall in Hall. apply Hall. eapply list_elem_of_lookup_2, Hi. }
  assert (Hbefore : forall j cj, cs !! j = Some cj ->
            F32.lt (total (cand_score c')) (total (cand_score cj))).
  { intros j cj Hj.
    assert (Hcj : F32.proper (total (cand_score cj))).
    { rewrite Forall_forall in Hall. apply Hall. eapply list_elem_of_lookup_2, Hj. }
    apply (score_lt_le_trans _ (total (cand_score c))); eauto. }
  split; [|split].
  - rewrite lookup_app_r by lia. now replace (length cs - length cs) with 0 by lia.
  - intros j cj Hj. apply lookup_app_Some in Hj as [Hj|[_ Hj]].
    + apply F32Facts.lt_le. eauto.
    + apply list_lookup_singleton_Some in Hj as [_ <-]. now apply F32Facts.le_refl.
  - intros j cj Hj1 Hj. apply lookup_app_Some in Hj as [Hj|[Hge _]]; [eauto|lia].
Qed.

Lemma first_candidate_single c :
  comparable c -> first_candidate [c] 0 c.
Proof.
  intros [Hc _]. split; [reflexivity|split].
  - intros j cj Hj. apply list_lookup_singleton_Some in Hj as [_ <-].
    now apply F32Facts.le_refl.
  - intros j cj Hj. lia.
Qed.

Section Selection.

Variable store0 : TraceStore.
Variable time : TimeframeIndex.
Variable shallCreateLattice : bool.
Variable forceRoot : StateId.

(** One allowed word end with a valid history: the body runs and the
    selection holds for one more candidate. *)
Lemma wordEnd_body_selected st weh cs0 :
  wordEnd_allowed forceRoot weh = true ->
  weh_history weh <> None ->
  Forall comparable (cs0 ++ [mkCandidate (weh_trace weh) (wordEnd_score weh) false]) ->
  selected store0 time cs0 st ->
  exists st', wordEnd_body time shallCreateLattice forceRoot st weh = Some st' /\
    selected store0 time (cs0 ++ [mkCandidate (weh_trace weh) (wordEnd_score weh) false]) st'.
Proof.
  intros Hallowed Hvalid Hall [Hext Hsel].
  apply Forall_app in Hall as [Hall0 Hc]. rewrite Forall_singleton in Hc.
  set (c := mkCandidate (weh_trace weh) (wordEnd_score weh) false) in *.
  unfold wordEnd_body. rewrite Hallowed. cbn [negb].
  rewrite (bool_decide_eq_true_2 _ Hvalid). cbn [verify mbind option_bind].
  fold (wordEnd_score weh).
  destruct Hsel as [(-> & Hbest & Hscore)|(i & ci & Hfirst & Hends & Hscore)].
  - rewrite Hbest. cbn [mbind option_bind].
    eexists. split; [reflexivity|]. split.
    + cbn [se_store]. eapply extends_trans; [exact Hext|apply extends_new].
    + right. exists 0, c. split; [now apply first_candidate_single|]. split; [|reflexivity].
      cbn [se_store se_best]. eexists. split; [apply deref_new|].
      destruct shallCreateLattice; repeat split.
  - destruct Hends as (t & Ht & Hsc & Htime & Hpron & Hpred).
    destruct (se_best st) as [b|] eqn:Hb; [|discriminate].
    rewrite Ht. cbn [mbind option_bind]. rewrite Hsc.
    assert (Hci : F32.proper (total (cand_score ci))).
    { rewrite Forall_forall in Hall0. apply Hall0.
      destruct Hfirst as [Hi _]. eapply list_elem_of_lookup_2, Hi. }
    destruct (F32.gtb (total (cand_score ci)) (total (wordEnd_score weh))) eqn:Hcmp.
    + eexists. split; [reflexivity|]. split.
      * cbn [se_store]. eapply extends_trans; [exact Hext|apply extends_new].
      * right. exists (length cs0), c.
        split; [now apply (first_candidate_new cs0 i ci c)|]. split; [|reflexivity].
        cbn [se_store se_best]. eexists. split; [apply deref_new|].
        destruct shallCreateLattice; repeat split.
    + assert (Hle : F32.le (total (cand_score ci)) (total (cand_score c))).
      { apply score_not_lt_le; [apply Hc|exact Hci|exact Hcmp]. }
      destruct shallCreateLattice.
      * set (t' := mkTrace _ _ _ _ _ _).
        assert (Hb' : deref (se_store st ++ [t']) (Some b) = Some t)
          by (destruct (extends_new t' (se_store st) _ _ Ht) as (x & Hx & _);
              unfold deref in *; cbn in *; now apply lookup_app_l_Some).
        destruct (set_sibling_is_Some _ _ (Some (length (se_store st))) _ Hb')
          as [store' Hstore'].
        cbn [new_trace]. rewrite Hstore'. cbn [mbind option_bind].
        assert (Hext' : extends (se_store st) store').
        { eapply extends_trans; [apply extends_new|].
          eapply extends_set_sibling, Hstore'. }
        eexists. split; [reflexivity|]. split.
        -- cbn [se_store]. eapply extends_trans; [exact Hext|exact Hext'].
        -- right. exists i, ci. split; [now apply first_candidate_keep|]. split.
           ++ cbn [se_store se_best]. apply (ends_with_extends (se_store st)); auto.
              exists t. rewrite ?Hb. repeat split; auto.
           ++ exact Hscore.
      * eexists. split; [reflexivity|]. split; [exact Hext|].
        right. exists i, ci. split; [now apply first_candidate_keep|]. split.
        -- exists t. rewrite ?Hb. repeat split; auto.
        -- exact Hscore.
Qed.

Lemma wordEnd_loop_selected wehs : forall cs0 st cs,
  wordEnd_candidates forceRoot wehs = Some cs ->
  Forall comparable (cs0 ++ cs) ->
  selected store0 time cs0 st ->
  exists st', wordEnd_loop time shallCreateLattice forceRoot wehs st = Some st' /\
    selected store0 time (cs0 ++ cs) st'.
Proof.
  induction wehs as [|weh wehs IH]; intros cs0 st cs Hcs Hall Hsel.
  - injection Hcs as <-. rewrite app_nil_r. exists st. split; [reflexivity|exact Hsel].
  - cbn [wordEnd_candidates] in Hcs. cbn [wordEnd_loop].
    destruct (wordEnd_allowed forceRoot weh) eqn:Hallowed; cbn [negb] in Hcs.
    + destruct (decide (weh_history weh = None)) as [Hn|Hvalid].
      { rewrite bool_decide_eq_false_2 in Hcs by (intros X; now apply X). discriminate. }
      rewrite (bool_decide_eq_true_2 _ Hvalid) in Hcs.
      cbn [verify mbind option_bind] in Hcs.
      destruct (wordEnd_candidates forceRoot wehs) as [cs'|] eqn:Hcs'; [|discriminate].
      injection Hcs as <-.
      rewrite cons_middle, app_assoc in Hall.
      destruct (wordEnd_body_selected st weh cs0 Hallowed Hvalid) as (st1 & Hbody & Hsel1);
        [now apply Forall_app in Hall as [Hall _]|exact Hsel|].
      rewrite Hbody. cbn [mbind option_bind].
      rewrite cons_middle, app_assoc. now apply IH.
    + unfold wordEnd_body. rewrite Hallowed. cbn [negb mbind option_bind]. now apply IH.
Qed.

(** One allowed state hypothesis whose trace item can be read. *)
Lemma state_body_selected at_ st hyp cs0 c :
  state_allowed forceRoot hyp = true ->
  state_candidate store0 at_ hyp = Some c ->
  Forall comparable (cs0 ++ [c]) ->
  selected store0 time cs0 st ->
  exists st', state_body time shallCreateLattice forceRoot at_ st hyp = Some st' /\
    selected store0 time (cs0 ++ [c]) st'.
Proof.
  intros Hallowed Hcand Hall [Hext Hsel].
  apply Forall_app in Hall as [Hall0 Hc]. rewrite Forall_singleton in Hc.
  unfold state_candidate in Hcand.
  destruct (traceItems !! trace hyp) as [item|] eqn:Hitem; [|discriminate].
  cbn [mbind option_bind] in Hcand.
  destruct (deref store0 (ti_trace item)) as [tr|] eqn:Htr; [|discriminate].
  cbn [mbind option_bind] in Hcand.
  destruct (decide (ti_history item = None)) as [Hn|Hvalid].
  { rewrite bool_decide_eq_false_2 in Hcand by (intros X; now apply X). discriminate. }
  rewrite (bool_decide_eq_true_2 _ Hvalid) in Hcand.
  cbn [verify mbind option_bind] in Hcand. injection Hcand as Hcand.
  destruct (Hext _ _ Htr) as (tr' & Htr' & _ & _ & _ & Hscore' & _).
  unfold state_body. rewrite Hallowed. cbn [negb]. rewrite Hitem. cbn [mbind option_bind].
  rewrite Htr'. cbn [mbind option_bind new_trace]. rewrite Hscore'.
  rewrite (bool_decide_eq_true_2 _ Hvalid). cbn [verify mbind option_bind].
  set (e := mkTrace (ti_trace item) None epsilonLemmaPronunciation (previous_time time) _ _).
  set (sc := addSentenceEnd (ti_history item) (epsilon_score at_ hyp (tr_score tr))).
  assert (Hsc : cand_score c = sc) by now rewrite <- Hcand.
  assert (Hstate : cand_state c = true) by now rewrite <- Hcand.
  assert (Htrace : cand_trace c = ti_trace item) by now rewrite <- Hcand.
  assert (Hnew : forall t, predecessor t = Some (length (se_store st)) ->
            tr_score t = sc -> tr_time t = time -> tr_pronunciation t = None ->
            ends_with ((se_store st ++ [e]) ++ [t]) (Some (length (se_store st ++ [e])))
                      time c).
  { intros t P1 P2 P3 P4. exists t. split; [apply deref_new|].
    rewrite Hsc, Hstate. repeat split; auto.
    exists e. rewrite P1. split.
    - destruct (extends_new t (se_store st ++ [e]) _ _ (deref_new e (se_store st)))
        as (x & Hx & Hsame).
      rewrite Hx. f_equal. destruct Hsame as (S1 & S2 & S3 & S4 & S5).
      unfold deref in Hx. cbn in Hx. apply lookup_app_Some in Hx as [Hx|[Hx _]].
      + rewrite lookup_app_r in Hx by lia.
        replace (length (se_store st) - length (se_store st)) with 0 in Hx by lia.
        now injection Hx.
      + rewrite length_app in Hx. cbn in Hx. lia.
    - repeat split. now rewrite Htrace. }
  assert (Hext2 : forall t, extends store0 ((se_store st ++ [e]) ++ [t])).
  { intros t. eapply extends_trans; [exact Hext|].
    eapply extends_trans; apply extends_new. }
  destruct Hsel as [(-> & Hbest & Hscore)|(i & ci & Hfirst & Hends & Hscore)].
  - rewrite Hscore.
    assert (Hlt : F32.ltb (total sc) F32.max = true)
      by (rewrite <- Hsc; now apply Hc).
    rewrite Hlt.
    eexists. split; [reflexivity|]. split; [apply Hext2|].
    right. exists 0, c. split; [now apply first_candidate_single|]. split.
    + cbn [se_store se_best]. apply Hnew; now destruct shallCreateLattice.
    + cbn [se_bestScore]. now rewrite Hsc.
  - rewrite Hscore.
    assert (Hci : F32.proper (total (cand_score ci))).
    { rewrite Forall_forall in Hall0. apply Hall0.
      destruct Hfirst as [Hi _]. eapply list_elem_of_lookup_2, Hi. }
    destruct (F32.ltb (total sc) (total (cand_score ci))) eqn:Hcmp.
    + eexists. split; [reflexivity|]. split; [apply Hext2|].
      right. exists (length cs0), c. split.
      * apply (first_candidate_new cs0 i ci c); auto. unfold F32.lt. now rewrite Hsc.
      * split.
        -- cbn [se_store se_best]. apply Hnew; now destruct shallCreateLattice.
        -- cbn [se_bestScore]. now rewrite Hsc.
    + assert (Hle : F32.le (total (cand_score ci)) (total (cand_score c))).
      { rewrite Hsc. apply score_not_lt_le; [rewrite <- Hsc; apply Hc|exact Hci|exact Hcmp]. }
      destruct shallCreateLattice.
      * destruct Hends as (t & Ht & Hends).
        destruct (extends_new e (se_store st) _ _ Ht) as (t1 & Ht1 & Hsame1).
        rewrite Ht1. cbn [mbind option_bind].
        set (t' := mkTrace _ _ _ _ _ _).
        destruct (extends_new t' (se_store st ++ [e]) _ _ Ht1) as (t2 & Ht2 & _).
        destruct (set_sibling_is_Some _ _ (Some (length (se_store st ++ [e]))) _ Ht2)
          as [store' Hstore'].
        rewrite Hstore'. cbn [mbind option_bind].
        assert (Hext' : extends (se_store st) store').
        { eapply extends_trans; [apply extends_new|].
          eapply extends_trans; [apply extends_new|].
          eapply extends_set_sibling, Hstore'. }
        eexists. split; [reflexivity|]. split.
        -- cbn [se_store]. eapply extends_trans; [exact Hext|exact Hext'].
        -- right. exists i, ci. split; [now apply first_candidate_keep|]. split.
           ++ cbn [se_store se_best]. apply (ends_with_extends (se_store st)); auto.
              exists t. split; auto.
           ++ reflexivity.
      * eexists. split; [reflexivity|]. split; [exact Hext|].
        right. exists i, ci. split; [now apply first_candidate_keep|]. split; auto.
Qed.

Lemma state_loop_selected at_ hyps : forall cs0 st cs,
  state_candidates forceRoot store0 at_ hyps = Some cs ->
  Forall comparable (cs0 ++ cs) ->
  selected store0 time cs0 st ->
  exists st', state_loop time shallCreateLattice forceRoot at_ hyps st = Some st' /\
    selected store0 time (cs0 ++ cs) st'.
Proof.
  induction hyps as [|hyp hyps IH]; intros cs0 st cs Hcs Hall Hsel.
  - injection Hcs as <-. rewrite app_nil_r. exists st. split; [reflexivity|exact Hsel].
  - cbn [state_candidates] in Hcs. cbn [state_loop].
    destruct (state_allowed forceRoot hyp) eqn:Hallowed; cbn [negb] in Hcs.
    + destruct (state_candidate store0 at_ hyp) as [c|] eqn:Hc; [|discriminate].
      cbn [mbind option_bind] in Hcs.
      destruct (state_candidates forceRoot store0 at_ hyps) as [cs'|] eqn:Hcs'; [|discriminate].
      injection Hcs as <-.
      rewrite cons_middle, app_assoc in Hall.
      destruct (state_body_selected at_ st hyp cs0 c Hallowed Hc) as (st1 & Hbody & Hsel1);
        [now apply Forall_app in Hall as [Hall _]|exact Hsel|].
      rewrite Hbody. cbn [mbind option_bind].
      rewrite cons_middle, app_assoc. now apply IH.
    + unfold state_body. rewrite Hallowed. cbn [negb mbind option_bind]. now apply IH.
Qed.

Lemma instance_loop_selected ss insts : forall cs0 st cs,
  instance_candidates forceRoot store0 ss insts = Some cs ->
  Forall comparable (cs0 ++ cs) ->
  selected store0 time cs0 st ->
  exists st', instance_loop time shallCreateLattice forceRoot ss insts st = Some st' /\
    selected store0 time (cs0 ++ cs) st'.
Proof.
  induction insts as [|p insts IH]; intros cs0 st cs Hcs Hall Hsel.
  - injection Hcs as <-. rewrite app_nil_r. exists st. split; [reflexivity|exact Hsel].
  - cbn [instance_candidates] in Hcs. cbn [instance_loop].
    destruct (instance_at ss p) as [at_|]; [|discriminate]. cbn [mbind option_bind] in *.
    destruct (instance_hypotheses ss at_) as [hyps|]; [|discriminate].
    cbn [mbind option_bind] in *.
    destruct (state_candidates forceRoot store0 at_ hyps) as [cs1|] eqn:Hcs1; [|discriminate].
    cbn [mbind option_bind] in Hcs.
    destruct (instance_candidates forceRoot store0 ss insts) as [cs2|] eqn:Hcs2;
      [|discriminate].
    injection Hcs as <-. rewrite app_assoc in Hall |- *.
    destruct (state_loop_selected at_ hyps cs0 st cs1 Hcs1) as (st1 & Hloop & Hsel1);
      [now apply Forall_app in Hall as [Hall _]|exact Hsel|].
    rewrite Hloop. cbn [mbind option_bind]. now apply IH.
Qed.

End Selection.

Lemma wordEnd_candidates_state forceRoot wehs : forall cs,
  wordEnd_candidates forceRoot wehs = Some cs -> Forall (fun c => cand_state c = false) cs.
Proof.
  induction wehs as [|weh wehs IH]; intros cs Hcs.
  - injection Hcs as <-. constructor.
  - cbn [wordEnd_candidates] in Hcs.
    destruct (negb (wordEnd_allowed forceRoot weh)); [now apply IH|].
    destruct (verify _); [|discriminate]. cbn [mbind option_bind] in Hcs.
    destruct (wordEnd_candidates forceRoot wehs) as [cs'|]; [|discriminate].
    injection Hcs as <-. constructor; [reflexivity|now apply IH].
Qed.

(** C4: [getSentenceEnd] compares the allowed word ends and, when the
    network has uncoarticulated word end states, the allowed state
    hypotheses of the active instances.  When their total scores are
    numbers (below [F32_MAX] for a state hypothesis) the call returns, and
    the trace returned is that of the first candidate of lowest total
    score, with the score offset, the suffix lemmas and the sentence end
    score added; it is null, and [hadWordEnd_] false, exactly when there is
    no candidate.  Without uncoarticulated word end states every candidate
    is a word end. *)
Theorem getSentenceEnd_selects_first_minimum (time : TimeframeIndex)
    (shallCreateLattice : bool) (wehs : list WordEndHypothesis) (ss : SearchSpace)
    (store : TraceStore) (forceRoot : StateId) (cands : list Candidate) :
  forcedRoot = Some forceRoot ->
  (forceRoot = 0 \/ uncoarticulatedWordEndStates network_ <> ∅ \/
   forceRoot ∈ coarticulatedRootStates network_) ->
  sentenceEnd_candidates forceRoot wehs ss store = Some cands ->
  Forall comparable cands ->
  exists store' best,
    getSentenceEnd time shallCreateLattice wehs ss store
      = Some (store', best, bool_decide (best <> None)) /\
    (cands = [] -> best = None) /\
    (cands <> [] ->
     exists i c, first_candidate cands i c /\ ends_with store' best time c) /\
    (uncoarticulatedWordEndStates network_ = ∅ ->
     Forall (fun c => cand_state c = false) cands).
Proof.
  intros Hroot Hverify Hcands Hall.
  unfold sentenceEnd_candidates in Hcands.
  destruct (wordEnd_candidates forceRoot wehs) as [cs1|] eqn:Hcs1; [|discriminate].
  cbn [mbind option_bind] in Hcands.
  set (states := negb (bool_decide (uncoarticulatedWordEndStates network_ = ∅))) in *.
  destruct (if states then instance_candidates forceRoot store ss (activeInstances ss)
            else Some []) as [cs2|] eqn:Hcs2; [|discriminate].
  cbn [mbind option_bind] in Hcands. injection Hcands as <-.
  set (lattice := lattice_setting (latticeMode recognitionContext_) shallCreateLattice).
  assert (Hstart : selected store time [] (mkSentenceEnd store None F32.max)).
  { split; [apply extends_refl|]. left. repeat split. }
  destruct (wordEnd_loop_selected store time lattice forceRoot wehs []
              (mkSentenceEnd store None F32.max) cs1 Hcs1)
    as (st1 & Hloop1 & Hsel1); [now apply Forall_app in Hall as [Hall _]|exact Hstart|].
  cbn [app] in Hsel1.
  assert (Hloop2 : exists st2,
            (if states then instance_loop time lattice forceRoot ss (activeInstances ss) st1
             else Some st1) = Some st2 /\ selected store time (cs1 ++ cs2) st2).
  { destruct states.
    - now apply instance_loop_selected.
    - injection Hcs2 as <-. rewrite app_nil_r. now exists st1. }
  destruct Hloop2 as (st2 & Hloop2 & [Hext Hsel2]).
  assert (Hcheck : (forceRoot =? 0) || states
                   || bool_decide (forceRoot ∈ coarticulatedRootStates network_) = true).
  { destruct Hverify as [->|[Hne|Hin]].
    - reflexivity.
    - unfold states. rewrite (bool_decide_eq_false_2 _ Hne). cbn. now rewrite orb_true_r.
    - rewrite (bool_decide_eq_true_2 _ Hin). now rewrite orb_true_r. }
  exists (se_store st2), (se_best st2).
  split; [|split; [|split]].
  - unfold getSentenceEnd. rewrite Hroot. cbn [mbind option_bind].
    fold lattice. rewrite Hloop1. cbn [mbind option_bind].
    fold states. rewrite Hcheck. cbn [verify mbind option_bind].
    rewrite Hloop2. reflexivity.
  - intros Hnil. destruct Hsel2 as [(_ & Hbest & _)|(i & c & (Hi & _) & _)]; [exact Hbest|].
    rewrite Hnil in Hi. discriminate.
  - intros Hne. destruct Hsel2 as [(Hnil & _)|(i & c & Hfirst & Hends & _)]; [contradiction|].
    now exists i, c.
  - intros Hempty. unfold states in Hcs2.
    rewrite (bool_decide_eq_true_2 _ Hempty) in Hcs2. cbn [negb] in Hcs2.
    injection Hcs2 as <-. rewrite app_nil_r. now apply (wordEnd_candidates_state forceRoot wehs).
Qed.

End SentenceEnd.

(** A network with root state 1 and one uncoarticulated word end state, 5;
    no final coarticulation is forced and the suffix is one lemma.  The
    language model adds 1 for a lemma and 2 for the sentence end. *)
Definition sentenceTree : PersistentStateTree :=
  mkPersistentStateTree 1 1 {[ 5 ]} ∅ [] 8.
Definition sentenceContext : RecognitionContext :=
  mkRecognitionContext LatticeAsRequested (0, 0)%Z [7].
Definition lemmaCost (l : LemmaPtr) (h : History) (sc : Score) : History * Score :=
  (h, F32.add sc (F32.of_Z 1)).
Definition endCost (h : History) : Score := F32.of_Z 2.
Definition sentenceItems : list TraceItem := [mkTraceItem (Some 0) (Some 1) (Some 1) 1].

(** A word end on the root state with acoustic score [sc] and trace [tr]. *)
Definition wordEndOf (sc : Z) (tr : nat) : WordEndHypothesis :=
  mkWordEndHypothesis (Some 1) (Some 1) 1 (Some 2) 0
    (mkScoreVector (F32.of_Z sc) F32.zero) (Some tr).

(** One instance with one hypothesis of score [sc] in state 5. *)
Definition sentenceSpace (sc : Z) : SearchSpace :=
  mkSearchSpace [mkStateHypothesis 5 0 (F32.of_Z sc) (F32.of_Z sc)] arena0
    [Some (set_states 0 1 (newInstance exampleKey None))] [0]
    {[exampleKey := 0]} F32.max F32.max.

Abbreviation exampleSentenceEnd :=
  (getSentenceEnd sentenceTree 0%Z false sentenceContext F32.zero lemmaCost endCost None
     sentenceItems).

(** The word ends of scores 5, 3 and 3 and a state hypothesis of score 4,
    as candidates. *)
Definition sentenceCandidates : list Candidate :=
  [mkCandidate (Some 0) (mkScoreVector (F32.of_Z 5) (F32.of_Z 3)) false;
   mkCandidate (Some 1) (mkScoreVector (F32.of_Z 3) (F32.of_Z 3)) false;
   mkCandidate (Some 2) (mkScoreVector (F32.of_Z 3) (F32.of_Z 3)) false;
   mkCandidate (Some 0) (mkScoreVector (F32.of_Z 4) (F32.of_Z 3)) true].

Lemma getSentenceEnd_selects_first_minimum_witness :
  exists store' best,
    exampleSentenceEnd 9 true [wordEndOf 5 0; wordEndOf 3 1; wordEndOf 3 2]
      (sentenceSpace 4) traces3 = Some (store', best, bool_decide (best <> None)) /\
    (sentenceCandidates = [] -> best = None) /\
    (sentenceCandidates <> [] ->
     exists i c, first_candidate sentenceCandidates i c /\ ends_with None store' best 9 c) /\
    (uncoarticulatedWordEndStates sentenceTree = ∅ ->
     Forall (fun c => cand_state c = false) sentenceCandidates).
Proof.
  apply (getSentenceEnd_selects_first_minimum sentenceTree 0%Z false sentenceContext
           F32.zero lemmaCost endCost None sentenceItems 9 true
           [wordEndOf 5 0; wordEndOf 3 1; wordEndOf 3 2] (sentenceSpace 4) traces3 0
           sentenceCandidates).
  - reflexivity.
  - left. reflexivity.
  - vm_compute. reflexivity.
  - repeat (apply Forall_cons; split;
            [split; [reflexivity|intros Hs; first [discriminate Hs|reflexivity]]|]).
    apply Forall_nil_2.
Defined.

(** The scenario of the word ends of scores 5, 3 and 3: the trace returned
    continues the trace of the second word end, the first of score 3, and
    has that score with the lemma and the sentence end added. *)
Example getSentenceEnd_first_of_equal_scores :
  exists store' best t,
    exampleSentenceEnd 9 false [wordEndOf 5 0; wordEndOf 3 1; wordEndOf 3 2]
      (sentenceSpace 4) traces3 = Some (store', best, true) /\
    deref store' best = Some t /\
    predecessor t = Some 1 /\
    tr_score t = mkScoreVector (F32.of_Z 3) (F32.of_Z 3).
Proof.
  do 3 eexists. repeat (split; [vm_compute; reflexivity|]). vm_compute. reflexivity.
Qed.

(** A state hypothesis on an uncoarticulated word end state is returned
    when its score is the lowest: the only word end has the total score 8,
    the trace returned has the total score 6 and continues the trace of the
    state hypothesis through an epsilon item.  With no word end at all the
    result is the trace of the state hypothesis and not null. *)
Lemma getSentenceEnd_returns_state_hypothesis :
  (exists store' best t e,
     exampleSentenceEnd 9 false [wordEndOf 5 1] (sentenceSpace 3) traces3
       = Some (store', best, true) /\
     deref store' best = Some t /\
     total (tr_score t) = F32.of_Z 6 /\
     total (wordEnd_score sentenceContext F32.zero lemmaCost endCost (wordEndOf 5 1))
       = F32.of_Z 8 /\
     deref store' (predecessor t) = Some e /\
     predecessor e = Some 0 /\ tr_time e = 8) /\
  (exists store' best,
     exampleSentenceEnd 9 false [] (sentenceSpace 3) traces3 = Some (store', best, true) /\
     best <> None).
Proof.
  split.
  - do 4 eexists. repeat (split; [vm_compute; reflexivity|]). vm_compute. reflexivity.
  - do 2 eexists. split; [vm_compute; reflexivity|discriminate].
Qed.

(** ** Acoustic scores *)

Section AcousticScores.

Variable net : HMMStateNetwork.
(** [scorer_->score(mix)]; the cached and the virtual call give the same
    score. *)
Variable scorer : nat -> Score.
Variable acousticProspectFactor_ : Score.
(** [StateTree::invalidAcousticModel]. *)
Variable invalidAcousticModel : nat.

(** The update of one hypothesis in [addAcousticScoresInternal]; the
    [verify_] is taken as checked. *)
Definition addAcousticScore (sh : StateHypothesis) : option StateHypothesis :=
  let mix := acousticModel net (state sh) in
  _ ← verify (negb (mix =? invalidAcousticModel));
  let s := scorer mix in
  Some (set_prospect (F32.add (prospect sh) (F32.mul s acousticProspectFactor_))
          (set_score (F32.add (score sh) s) sh)).

(** The loop of [addAcousticScoresInternal] over [n] hypotheses from
    position [i], with [RecordMinimum] as pruning. *)
Fixpoint addAcousticScores_loop (n i : nat) (ss : SearchSpace) : option SearchSpace :=
  match n with
  | 0 => Some ss
  | S n' =>
      sh ← stateHypotheses ss !! i;
      if F32.eqb (prospect sh) F32.max then addAcousticScores_loop n' (S i) ss
      else
        sh' ← addAcousticScore sh;
        addAcousticScores_loop n' (S i)
          (recordMinimum sh' (set_stateHypotheses (<[i := sh']> (stateHypotheses ss)) ss))
  end.

(** [SearchSpace::addAcousticScoresInternal]. *)
Definition addAcousticScoresInternal (from to : nat) (ss : SearchSpace)
  : option SearchSpace :=
  _ ← defined ((from <=? to) && (to <=? length (stateHypotheses ss)));
  addAcousticScores_loop (to - from) from ss.

(** [SearchSpace::addAcousticScores<RecordMinimum>], with
    [addAcousticScoresInternalForTrees]: the hypotheses from the slice of
    the first active instance to the slice of the last one. *)
Definition addAcousticScores (ss : SearchSpace) : option SearchSpace :=
  _ ← verify (bool_decide (newStateHypotheses (arena ss) = []));
  let ss := set_best F32.max F32.max ss in
  front ← head (activeInstances ss);
  back ← last (activeInstances ss);
  first ← instance_at ss front;
  final ← instance_at ss back;
  ss' ← addAcousticScoresInternal (states_begin first) (states_end final) ss;
  _ ← verify (negb (F32.eqb (bestProspect_ ss') F32.max)
              || bool_decide (stateHypotheses ss' = []));
  Some ss'.

End AcousticScores.

(** ** Word ends *)

(** [PersistentStateTree::Exit]: the pronunciation of an output label and
    the state the word is left to. *)
Record Exit := mkExit {
  exit_pronunciation : PronunciationPtr;
  exit_transitState : StateId
}.

(** [Search::EarlyWordEndHypothesis]: the trace, the score and the exit
    (the path trace is left out). *)
Record EarlyWordEndHypothesis := mkEarlyWordEndHypothesis {
  ewe_trace : TraceId;
  ewe_score : ScoreVector;
  ewe_exit : nat
}.

(** What [findWordEndsInternal] writes: the list of early word end
    hypotheses, its local [bestWordEndPruning] and [minWordEndScore_]. *)
Record WordEndSearch := mkWordEndSearch {
  earlyWordEndHypotheses : list EarlyWordEndHypothesis;
  bestWordEndPruning : Score;
  minWordEndScore_ : Score
}.

Section WordEnds.

Variable net : HMMStateNetwork.
(** [network_.exits]. *)
Variable exits : list Exit.
Variable singleLabels_ : list Z.
Variable quickLabelBatches_ : list nat.
Variable slowLabelBatches_ : list Z.
Variable traceItems : list TraceItem.
(** The trace objects, which are read only. *)
Variable store : TraceStore.
(** [at.addLmScore(weh, pronunciation, lm_, lexicon_, wpScale_)], defined
    in Instance.cc. *)
Variable addLmScore : Instance -> EarlyWordEndHypothesis -> PronunciationPtr ->
                      EarlyWordEndHypothesis.
Variable acousticPruning_ : Score.
Variable wordEndPruning_ : Score.
Variable earlyWordEndPruningAnticipatedLmScore_ : Score.
Variable earlyWordEndPruning_ : bool.

(** [std::min(acousticPruning_, wordEndPruning_)]. *)
Definition relativePruning : Score :=
  if F32.ltb wordEndPruning_ acousticPruning_ then wordEndPruning_ else acousticPruning_.

(** The early word end hypothesis of [hyp] for the exit [exit], before
    [addLmScore]: the score of the hypothesis without the language model
    score of its trace and without the back-off offset of the instance as
    acoustic score, with the exit penalty added. *)
Definition early_hypothesis (at_ : Instance) (hyp : StateHypothesis) (traceScore : ScoreVector)
    (exitPenalty : Score) (exit : nat) : EarlyWordEndHypothesis :=
  mkEarlyWordEndHypothesis (trace hyp)
    (mkScoreVector
       (F32.add (F32.sub (F32.sub (score hyp) (lm traceScore)) (totalBackOffOffset at_))
                exitPenalty)
       (lm traceScore))
    exit.

(** The part the three branches of [findWordEndsInternal] share, for one
    exit of the hypothesis; [slow] is the branch of the slow label batches,
    which drops a hypothesis whose language model score rises by more than
    100000.  The two [verify_] are taken as checked. *)
Definition word_end (earlyWordEndPruning slow : bool) (at_ : Instance)
    (hyp : StateHypothesis) (exitPenalty : Score) (exit : nat) (st : WordEndSearch)
  : option WordEndSearch :=
  we ← exits !! exit;
  item ← traceItems !! trace hyp;
  _ ← verify (ti_range item =? 1);
  _ ← verify (bool_decide (ti_history item <> None));
  tr ← deref store (ti_trace item);
  let weh0 := early_hypothesis at_ hyp (tr_score tr) exitPenalty exit in
  let old := lm (ewe_score weh0) in
  let weh := addLmScore at_ weh0 (exit_pronunciation we) in
  if slow && F32.gtb (F32.sub (lm (ewe_score weh)) old) (F32.of_Z 100000) then Some st
  else
    let st :=
      if F32.ltb (total (ewe_score weh)) (minWordEndScore_ st) then
        mkWordEndSearch (earlyWordEndHypotheses st)
          (if earlyWordEndPruning
           then F32.add (total (ewe_score weh)) relativePruning
           else bestWordEndPruning st)
          (total (ewe_score weh))
      else st in
    if earlyWordEndPruning && F32.gtb (total (ewe_score weh)) (bestWordEndPruning st)
    then Some st
    else Some (mkWordEndSearch (earlyWordEndHypotheses st ++ [weh])
                 (bestWordEndPruning st) (minWordEndScore_ st)).

(** The loop over the exits [exitsStart], ..., [exitsEnd - 1] of the quick
    label batches. *)
Fixpoint quick_labels (earlyWordEndPruning : bool) (at_ : Instance) (hyp : StateHypothesis)
    (exitPenalty : Score) (n exit : nat) (st : WordEndSearch) : option WordEndSearch :=
  match n with
  | 0 => Some st
  | S n' =>
      st' ← word_end earlyWordEndPruning false at_ hyp exitPenalty exit st;
      quick_labels earlyWordEndPruning at_ hyp exitPenalty n' (S exit) st'
  end.

(** The loop over the slow label batches from position [current] on, up to
    the entry -1; [ls] is the array from that position.  An entry is read
    as [u32]. *)
Fixpoint slow_labels (earlyWordEndPruning : bool) (at_ : Instance) (hyp : StateHypothesis)
    (exitPenalty : Score) (ls : list Z) (st : WordEndSearch) : option WordEndSearch :=
  match ls with
  | [] => None
  | l :: ls' =>
      if (l =? -1)%Z then Some st
      else
        st' ← word_end earlyWordEndPruning true at_ hyp exitPenalty
                (Z.to_nat (l mod 2 ^ 32)) st;
        slow_labels earlyWordEndPruning at_ hyp exitPenalty ls' st'
  end.

(** The body of the loop of [findWordEndsInternal] over the state
    hypotheses of instance [at]. *)
Definition wordEnds_of (earlyWordEndPruning : bool) (at_ : Instance) (hyp : StateHypothesis)
    (st : WordEndSearch) : option WordEndSearch :=
  exit ← singleLabels_ !! state hyp;
  if (exit =? -1)%Z then Some st
  else
    let exitPenalty := tdp_exit (transitionModel net (state hyp)) in
    if earlyWordEndPruning
       && F32.gtb (F32.add (F32.add (score hyp) exitPenalty)
                           earlyWordEndPruningAnticipatedLmScore_)
                  (bestWordEndPruning st)
    then Some st
    else if (0 <=? exit)%Z then
      word_end earlyWordEndPruning false at_ hyp exitPenalty (Z.to_nat exit) st
    else if (exit =? -2)%Z then
      exitsStart ← quickLabelBatches_ !! state hyp;
      exitsEnd ← quickLabelBatches_ !! (state hyp + 1);
      _ ← defined (exitsStart <=? exitsEnd);
      quick_labels earlyWordEndPruning at_ hyp exitPenalty (exitsEnd - exitsStart)
        exitsStart st
    else
      slow_labels earlyWordEndPruning at_ hyp exitPenalty
        (drop (Z.to_nat (- (exit + 3))) slowLabelBatches_) st.

Fixpoint wordEnds_hypotheses (earlyWordEndPruning : bool) (at_ : Instance)
    (hyps : list StateHypothesis) (st : WordEndSearch) : option WordEndSearch :=
  match hyps with
  | [] => Some st
  | hyp :: hyps' =>
      st' ← wordEnds_of earlyWordEndPruning at_ hyp st;
      wordEnds_hypotheses earlyWordEndPruning at_ hyps' st'
  end.

Fixpoint wordEnds_instances (earlyWordEndPruning : bool) (ss : SearchSpace)
    (insts : list nat) (st : WordEndSearch) : option WordEndSearch :=
  match insts with
  | [] => Some st
  | p :: insts' =>
      at_ ← instance_at ss p;
      hyps ← instance_hypotheses ss at_;
      st' ← wordEnds_hypotheses earlyWordEndPruning at_ hyps st;
      wordEnds_instances earlyWordEndPruning ss insts' st'
  end.

(** [SearchSpace::findWordEndsInternal<earlyWordEndPruning>]; [early] is
    the list [earlyWordEndHypotheses] at the call. *)
Definition findWordEndsInternal (earlyWordEndPruning : bool)
    (early : list EarlyWordEndHypothesis) (ss : SearchSpace) : option WordEndSearch :=
  _ ← verify (bool_decide (early = []));
  wordEnds_instances earlyWordEndPruning ss (activeInstances ss)
    (mkWordEndSearch early F32.max F32.max).

(** [SearchSpace::findWordEnds]. *)
Definition findWordEnds (early : list EarlyWordEndHypothesis) (ss : SearchSpace)
  : option WordEndSearch :=
  if earlyWordEndPruning_ then findWordEndsInternal true early ss
  else findWordEndsInternal false early ss.

End WordEnds.

(** ** The word end after a loop, a loop and a forward transition *)

Section WordEndScore.

Variable net : HMMStateNetwork.
Variable secondOrderEdgeSuccessorBatches_ : list Z.
Variable allowSkips_ : bool.
Variable scorer : nat -> Score.
Variable acousticProspectFactor_ : Score.
Variable invalidAcousticModel : nat.
Variable exits : list Exit.
Variable singleLabels_ : list Z.
Variable quickLabelBatches_ : list nat.
Variable slowLabelBatches_ : list Z.
Variable traceItems : list TraceItem.
Variable store : TraceStore.
Variable addLmScore : Instance -> EarlyWordEndHypothesis -> PronunciationPtr ->
                      EarlyWordEndHypothesis.
Variable acousticPruning_ : Score.
Variable wordEndPruning_ : Score.
Variable earlyWordEndPruningAnticipatedLmScore_ : Score.

(** [expandState] makes the loop call when the loop score is below
    [F32_MAX]. *)
Lemma expandState_loop hyp us :
  expandState net secondOrderEdgeSuccessorBatches_ allowSkips_ hyp = Some us ->
  F32.lt (F32.add (score hyp) (tdp_loop (transitionModel net (state hyp)))) F32.max ->
  Loop hyp (F32.add (score hyp) (tdp_loop (transitionModel net (state hyp)))) ∈ us.
Proof.
  unfold expandState, F32.lt. intros Hus Hlt. rewrite Hlt in Hus.
  repeat match type of Hus with
         | (if ?c then _ else _) = Some _ => destruct c
         | (mbind _ ?o) = Some _ => destruct o; cbn [mbind option_bind] in Hus
         | None = Some _ => discriminate
         | Some _ = Some _ => injection Hus as <-
         end;
    first [apply list_elem_of_here
          |apply elem_of_app; left; apply list_elem_of_singleton; reflexivity].
Qed.

Lemma addAcousticScore_score sh sh' :
  addAcousticScore net scorer acousticProspectFactor_ invalidAcousticModel sh = Some sh' ->
  score sh' = F32.add (score sh) (scorer (acousticModel net (state sh))) /\
  state sh' = state sh /\ trace sh' = trace sh.
Proof.
  unfold addAcousticScore. destruct (verify _); [|discriminate].
  cbn [mbind option_bind]. intros [= <-]. repeat split.
Qed.

(** With early word end pruning the only hypothesis is kept when its score
    with the exit penalty and the anticipated language model score is not
    above [F32_MAX] and the word end is below [F32_MAX] and not above
    itself plus the relative pruning threshold. *)
Definition survives (earlyWordEndPruning : bool) (hyp : StateHypothesis)
    (weh : EarlyWordEndHypothesis) : Prop :=
  earlyWordEndPruning = true ->
  F32.gtb (F32.add (F32.add (score hyp) (tdp_exit (transitionModel net (state hyp))))
                   earlyWordEndPruningAnticipatedLmScore_) F32.max = false /\
  F32.lt (total (ewe_score weh)) F32.max /\
  F32.gtb (total (ewe_score weh))
          (F32.add (total (ewe_score weh)) (relativePruning acousticPruning_ wordEndPruning_))
    = false.

(** One instance with one hypothesis in a state with one label. *)
Lemma findWordEnds_single earlyWordEndPruning_ ss p at_ hyp exit we item tr :
  stateHypotheses ss = [hyp] -> activeInstances ss = [p] ->
  instance_at ss p = Some at_ -> states_begin at_ = 0 -> states_end at_ = 1 ->
  singleLabels_ !! state hyp = Some exit -> (0 <= exit)%Z ->
  exits !! Z.to_nat exit = Some we ->
  traceItems !! trace hyp = Some item -> ti_range item = 1 -> ti_history item <> None ->
  deref store (ti_trace item) = Some tr ->
  survives earlyWordEndPruning_ hyp
    (addLmScore at_
       (early_hypothesis at_ hyp (tr_score tr) (tdp_exit (transitionModel net (state hyp)))
          (Z.to_nat exit)) (exit_pronunciation we)) ->
  earlyWordEndHypotheses <$>
    findWordEnds net exits singleLabels_ quickLabelBatches_ slowLabelBatches_ traceItems
      store addLmScore acousticPruning_ wordEndPruning_
      earlyWordEndPruningAnticipatedLmScore_ earlyWordEndPruning_ [] ss
  = Some [addLmScore at_
            (early_hypothesis at_ hyp (tr_score tr)
               (tdp_exit (transitionModel net (state hyp))) (Z.to_nat exit))
            (exit_pronunciation we)].
Proof.
  intros Hhyps Hactive Hat Hb He Hexit Hpos Hwe Hitem Hrange Hvalid Htr Hsurv.
  set (weh := addLmScore at_ _ _) in *.
  assert (Hhyp : instance_hypotheses ss at_ = Some [hyp]).
  { unfold instance_hypotheses. rewrite Hb, He, Hhyps. reflexivity. }
  assert (Hne : (exit =? -1)%Z = false) by (apply Z.eqb_neq; lia).
  assert (Hge : (0 <=? exit)%Z = true) by (apply Z.leb_le; lia).
  assert (Hbody : forall early,
    (early = true -> survives true hyp weh) ->
    earlyWordEndHypotheses <$>
      wordEnds_of net exits singleLabels_ quickLabelBatches_ slowLabelBatches_ traceItems
        store addLmScore acousticPruning_ wordEndPruning_
        earlyWordEndPruningAnticipatedLmScore_ early at_ hyp
        (mkWordEndSearch [] F32.max F32.max) = Some [weh]).
  { intros early Hs. unfold wordEnds_of. rewrite Hexit. cbn [mbind option_bind].
    rewrite Hne, Hge.
    assert (Hfirst : early && F32.gtb
              (F32.add (F32.add (score hyp) (tdp_exit (transitionModel net (state hyp))))
                       earlyWordEndPruningAnticipatedLmScore_) F32.max = false).
    { destruct early; [|reflexivity]. now destruct (Hs eq_refl eq_refl) as [-> _]. }
    cbn [bestWordEndPruning]. rewrite Hfirst.
    unfold word_end. rewrite Hwe. cbn [mbind option_bind]. rewrite Hitem.
    cbn [mbind option_bind]. rewrite Hrange. cbn [Nat.eqb verify mbind option_bind].
    rewrite (bool_decide_eq_true_2 _ Hvalid). cbn [verify mbind option_bind].
    rewrite Htr. cbn [mbind option_bind andb]. fold weh.
    cbn [minWordEndScore_ bestWordEndPruning earlyWordEndHypotheses].
    destruct early.
    - destruct (Hs eq_refl eq_refl) as (_ & Hlt & Hkeep). unfold F32.lt in Hlt.
      rewrite Hlt. cbn [bestWordEndPruning andb]. rewrite Hkeep. reflexivity.
    - cbn [andb]. now destruct (F32.ltb _ _). }
  assert (Hall : forall early,
    (early = true -> survives true hyp weh) ->
    earlyWordEndHypotheses <$>
      findWordEndsInternal net exits singleLabels_ quickLabelBatches_ slowLabelBatches_
        traceItems store addLmScore acousticPruning_ wordEndPruning_
        earlyWordEndPruningAnticipatedLmScore_ early [] ss = Some [weh]).
  { intros early Hs. unfold findWordEndsInternal. cbn [verify mbind option_bind].
    rewrite (bool_decide_eq_true_2 _ eq_refl). cbn [verify mbind option_bind].
    rewrite Hactive. cbn [wordEnds_instances]. rewrite Hat. cbn [mbind option_bind].
    rewrite Hhyp. cbn [mbind option_bind wordEnds_hypotheses].
    specialize (Hbody early Hs).
    destruct (wordEnds_of _ _ _ _ _ _ _ _ _ _ _ _ _ _ _) as [st|]; [|discriminate].
    exact Hbody. }
  unfold findWordEnds. destruct earlyWordEndPruning_.
  - apply Hall. intros _. exact Hsurv.
  - apply Hall. discriminate.
Qed.

(** The scores [expandState] hands to the loop call and to the forward
    calls. *)
Definition loop_score (hyp : StateHypothesis) : Score :=
  F32.add (score hyp) (tdp_loop (transitionModel net (state hyp))).
Definition forward_score (hyp : StateHypothesis) : Score :=
  F32.add (score hyp) (tdp_forward (transitionModel net (state hyp))).


End WordEndScore.

(** The example network with one label on state 2, the successor of state
    1: exit 0, with exit penalty 4.  A language model that adds 1 to the
    score of a word end. *)
Definition scenarioLabels : list Z := [-1; -1; 0; -1]%Z.
Definition scenarioExits : list Exit := [mkExit (Some 7) 1].
Definition scenarioItems : list TraceItem := [mkTraceItem (Some 0) (Some 1) (Some 1) 1].
Definition scenarioLm (at_ : Instance) (weh : EarlyWordEndHypothesis)
    (pronunciation : PronunciationPtr) : EarlyWordEndHypothesis :=
  mkEarlyWordEndHypothesis (ewe_trace weh)
    (mkScoreVector (acoustic (ewe_score weh)) (F32.add (lm (ewe_score weh)) (F32.of_Z 1)))
    (ewe_exit weh).

(** The hypothesis in state [q] with score [sc], on trace 0. *)
Definition scenarioHypothesis (q : StateId) (sc : Z) : StateHypothesis :=
  mkStateHypothesis q 0 (F32.of_Z sc) F32.zero.

Definition scenarioInstance : Instance := set_states 0 1 (newInstance exampleKey None).

(** One instance that holds the hypotheses [hyps]. *)
Definition scenarioSpace (hyps : list StateHypothesis) : SearchSpace :=
  mkSearchSpace hyps (mkArena [] [0; 0; 0; 0] 0)
    [Some (set_states 0 (length hyps) (newInstance exampleKey None))] [0]
    {[exampleKey := 0]} F32.max F32.max.

Abbreviation scenarioExpandState :=
  (expandState exampleNetwork exampleTable true).

(** The calls of [expandState] for a hypothesis of the example. *)
Definition scenarioUpdates (hyp : StateHypothesis) : list Update :=
  default [] (scenarioExpandState hyp).

Abbreviation scenarioFindWordEnds :=
  (findWordEnds exampleNetwork scenarioExits scenarioLabels [] [] scenarioItems traces3
     scenarioLm (F32.of_Z 100) (F32.of_Z 50) F32.zero).


(** Three frames of the search on the example network, from one instance
    entered in state 1 with score 0: expansion, then the acoustic scores,
    with the emission score [emission] for every state (pruning left
    out); then the word ends, with no language model score added. *)
Definition scenarioStart : SearchSpace :=
  mkSearchSpace [] (mkArena [] [0; 0; 0; 0] 0)
    [Some (set_rootStateHypotheses [mkStateHypothesis 1 0 F32.zero F32.zero]
             (set_lookAheadHistory (Some 2) (newInstance exampleKey None)))]
    [0] {[exampleKey := 0]} F32.max F32.max.

Definition scenarioFrame (emission : Score) (ss : SearchSpace) : option SearchSpace :=
  ss' ← exampleExpandHmm 4 ss;
  addAcousticScores exampleNetwork (fun _ => emission) (F32.of_Z 1) 1000 ss'.

Definition scenarioWordEnds (emission : Score) : option (list EarlyWordEndHypothesis) :=
  ss1 ← scenarioFrame emission scenarioStart;
  ss2 ← scenarioFrame emission ss1;
  ss3 ← scenarioFrame emission ss2;
  earlyWordEndHypotheses <$>
    findWordEnds exampleNetwork scenarioExits scenarioLabels [] [] scenarioItems traces3
      (fun _ weh _ => weh) (F32.of_Z 100) (F32.of_Z 50) F32.zero false [] ss3.

(** Without emission scores the word end of the scenario has the acoustic
    score 1 + 1 + 2 + 4. *)
Example scenario_without_emission_scores :
  exists weh, scenarioWordEnds F32.zero = Some [weh] /\
    acoustic (ewe_score weh)
    = F32.add (F32.add (F32.add (F32.of_Z 1) (F32.of_Z 1)) (F32.of_Z 2)) (F32.of_Z 4).
Proof. eexists. split; vm_compute; reflexivity. Qed.

